(** * PersonMatte: receiver-side person cut-out

    A shallow embedding of the [PersonMatte] class of holocall-v2, in its two
    versions:
    - [src/personMatte.js]     (variant [MaskThenRGB]), and
    - [src/unnamed/part_000]   (variant [RGBThenMask]).

    The class drives four HTML canvases through their 2D contexts.  The
    embedding keeps the object as a record, the canvas API as a small
    state-and-exception monad over that record, and the asynchronous parts
    ([await], [requestAnimationFrame], the [onResults] listener) as the
    handlers of an event-driven session.

    Idealisations, stated once:
    - JavaScript numbers are rationals in lowest terms ([Qc]); there is no
      NaN and no rounding;
    - a bitmap is an RGBA-valued function on the plane (premultiplied alpha),
      a [w] x [h] canvas being its restriction to [0,w) x [0,h); rasterisation
      and 8-bit quantisation are not modelled;
    - the CSS [blur] filter is a finite convolution whose taps, for each
      radius, are a parameter of the development ([kernel]).

    What is taken from the HTML canvas specification rather than from the
    source:
    - the drawing model of [drawImage]: the source is rendered on a
      transparent layer, the layer is filtered, multiplied by [globalAlpha]
      and composited over the whole bitmap with the current operator;
    - the operators [source-over], [source-in], [destination-in] and [copy];
    - [drawImage] raises InvalidStateError on a canvas source of zero width
      or height, and draws nothing from a video element without current data;
    - an assignment to [globalAlpha] outside [0, 1] is ignored;
    - a new canvas is 300 x 150 and transparent, and assigning its width or
      height clears it and resets its context. *)

From Stdlib Require Import ZArith NArith QArith Qcanon Qround List Bool Lia Lqa.
From Stdlib Require String DecimalString.
Import ListNotations.
Open Scope Qc_scope.

(** Decimal literals: [35 # 100] is 0.35. *)
Notation "n # d" := (Q2Qc (Qmake n%Z d%positive)) : Qc_scope.

(** ** Pixels and images *)

Record pixel := mkPx { red : Qc; green : Qc; blue : Qc; alpha : Qc }.

Definition transparent : pixel := mkPx 0 0 0 0.

Definition px_scale (k : Qc) (p : pixel) : pixel :=
  mkPx (k * red p) (k * green p) (k * blue p) (k * alpha p).

Definition px_add (p q : pixel) : pixel :=
  mkPx (red p + red q) (green p + green q) (blue p + blue q) (alpha p + alpha q).

Definition raster := Qc -> Qc -> pixel.

Definition img_eq (f g : raster) : Prop := forall u v, f u v = g u v.

Definition Qcleb (x y : Qc) : bool := Qle_bool x y.

Definition Qcltb (x y : Qc) : bool := negb (Qcleb y x).

Definition Qn (n : N) : Qc := Q2Qc (inject_Z (Z.of_N n)).

Definition two : Qc := 2 # 1.

(** [Math.min] and [Math.max] *)
Definition Math_min (a b : Qc) : Qc := if Qcleb a b then a else b.

Definition Math_max (a b : Qc) : Qc := if Qcleb a b then b else a.

(** The half-open rectangle [x, x+w) x [y, y+h). *)
Definition in_rect (x y w h u v : Qc) : bool :=
  Qcleb x u && Qcltb u (x + w) && Qcleb y v && Qcltb v (y + h).

(** The layer that [drawImage(src, dx, dy, dw, dh)] renders: the whole
    [sw] x [sh] source mapped onto the destination rectangle, transparent
    elsewhere. *)
Definition place (sw sh : Qc) (spx : raster) (dx dy dw dh : Qc) : raster :=
  fun u v =>
    if in_rect dx dy dw dh u v
    then spx ((u - dx) * sw / dw) ((v - dy) * sh / dh)
    else transparent.

(** The Porter-Duff operators the code selects through
    [globalCompositeOperation], on premultiplied pixels. *)
Inductive compop := SourceOver | SourceIn | DestinationIn | Copy.

Definition over (s d : pixel) : pixel := px_add s (px_scale (1 - alpha s) d).

Definition composite_px (op : compop) (s d : pixel) : pixel :=
  match op with
  | SourceOver => over s d
  | SourceIn => px_scale (alpha d) s
  | DestinationIn => px_scale (alpha s) d
  | Copy => s
  end.

(** ** Image sources outside the object *)

Record rgb := mkRgb { rgb_r : Qc; rgb_g : Qc; rgb_b : Qc }.

Definition opaque (c : rgb) : pixel := mkPx (rgb_r c) (rgb_g c) (rgb_b c) 1.

(** A snapshot of the [<video>] element [this.videoEl]: the element is live,
    so every handler receives the snapshot current at the time it runs. *)
Record Video := mkVideo {
  readyState : Z;
  videoWidth : N;
  videoHeight : N;
  elWidth : N;            (* videoEl.width  *)
  elHeight : N;           (* videoEl.height *)
  currentFrame : Qc -> Qc -> rgb
}.

(** An [ImageBitmap]-like buffer, as MediaPipe hands out. *)
Record Bitmap := mkBitmap { bmWidth : N; bmHeight : N; bmPixels : raster }.

Inductive ExtImage := ImgVideo (v : Video) | ImgBitmap (b : Bitmap).

(** The argument of the [onResults] listener. *)
Record Results := mkResults {
  segmentationMask : Bitmap;
  image : option ExtImage        (* results.image *)
}.

(** ** Canvases and their 2D contexts *)

Record Context2D := mkCtx {
  globalCompositeOperation : compop;
  globalAlpha : Qc;
  filter : option Qc            (* None: 'none'; Some r: 'blur(r px)' *)
}.

Definition defaultContext : Context2D := mkCtx SourceOver 1 None.

Record Canvas := mkCanvas {
  width : N;
  height : N;
  context : Context2D;
  saved : list Context2D;       (* the stack of ctx.save() *)
  bitmap : raster
}.

Definition blank : raster := fun _ _ => transparent.

(** [document.createElement('canvas')]: 300 x 150, transparent. *)
Definition createCanvas : Canvas := mkCanvas 300 150 defaultContext [] blank.

(** [c.width = w; c.height = h]: each assignment resets bitmap and context. *)
Definition resize (w h : N) (c : Canvas) : Canvas :=
  mkCanvas w h defaultContext [] blank.

Definition inb (c : Canvas) (u v : Qc) : bool :=
  in_rect 0 0 (Qn (width c)) (Qn (height c)) u v.

(** What another [drawImage] reads from a canvas. *)
Definition canvas_pixels (c : Canvas) : raster :=
  fun u v => if inb c u v then bitmap c u v else transparent.

Definition with_context (c : Canvas) (cx : Context2D) : Canvas :=
  mkCanvas (width c) (height c) cx (saved c) (bitmap c).

Definition with_bitmap (c : Canvas) (b : raster) : Canvas :=
  mkCanvas (width c) (height c) (context c) (saved c) b.

(** ** The object *)

Record Opts := mkOpts {
  modelSelection : Qc;
  featherPx : Qc;
  dilatePx : Qc;
  emaAlpha : Qc;
  rgbScale : Qc;
  depthFpsDivider : Qc
}.

Record PersonMatte := mkPM {
  opts : Opts;
  canvas : Canvas;
  _maskRaw : Canvas;
  _maskNice : Canvas;
  _scratch : Canvas;
  _stopped : bool;
  _frame : Z
}.

Inductive canvasId := Out | MaskRaw | MaskNice | Scratch.

Definition getC (id : canvasId) (m : PersonMatte) : Canvas :=
  match id with
  | Out => canvas m
  | MaskRaw => _maskRaw m
  | MaskNice => _maskNice m
  | Scratch => _scratch m
  end.

Definition setC (id : canvasId) (c : Canvas) (m : PersonMatte) : PersonMatte :=
  match id with
  | Out => mkPM (opts m) c (_maskRaw m) (_maskNice m) (_scratch m) (_stopped m) (_frame m)
  | MaskRaw => mkPM (opts m) (canvas m) c (_maskNice m) (_scratch m) (_stopped m) (_frame m)
  | MaskNice => mkPM (opts m) (canvas m) (_maskRaw m) c (_scratch m) (_stopped m) (_frame m)
  | Scratch => mkPM (opts m) (canvas m) (_maskRaw m) (_maskNice m) c (_stopped m) (_frame m)
  end.

(** ** State and exceptions *)

Inductive exn := InvalidStateError | NotLoadedError.

Inductive completion (A : Type) := Normal (a : A) | Throw (e : exn).
Arguments Normal {A} a.
Arguments Throw {A} e.

(** A computation returns or throws, and leaves the object as it was at
    that point (a throw does not undo earlier writes). *)
Definition M (A : Type) : Type := PersonMatte -> completion A * PersonMatte.

Definition ret {A} (a : A) : M A := fun m => (Normal a, m).

Definition bind {A B} (c : M A) (k : A -> M B) : M B :=
  fun m =>
    match c m with
    | (Normal a, m') => k a m'
    | (Throw e, m') => (Throw e, m')
    end.

Definition throw {A} (e : exn) : M A := fun m => (Throw e, m).

Definition gets {A} (f : PersonMatte -> A) : M A := fun m => (Normal (f m), m).

Definition modify (f : PersonMatte -> PersonMatte) : M unit :=
  fun m => (Normal tt, f m).

Declare Scope js_scope.
Delimit Scope js_scope with js.
Notation "x <- c ;; k" := (bind c (fun x => k))
  (at level 61, c at next level, right associativity) : js_scope.
Notation "c ;; k" := (bind c (fun _ => k))
  (at level 61, right associativity) : js_scope.

Definition modifyC (id : canvasId) (f : Canvas -> Canvas) : M unit :=
  modify (fun m => setC id (f (getC id m)) m).

(** ** The canvas 2D API *)

(** The host's blur: for each radius, the taps [(dx, dy, weight)] of the
    convolution it applies. *)
Class Platform := { kernel : Qc -> list (Qc * Qc * Qc) }.

Inductive drawable := FromCanvas (id : canvasId) | FromImage (i : ExtImage).

Section CanvasAPI.
Context {P : Platform}.
Local Open Scope js_scope.

Definition blur (r : Qc) (img : raster) : raster :=
  fun u v =>
    fold_right
      (fun t acc =>
         px_add (px_scale (snd t) (img (u + fst (fst t)) (v + snd (fst t)))) acc)
      transparent (kernel r).

(** The drawing model: render the layer, filter it, scale it by
    [globalAlpha], composite it over the whole bitmap with the current
    operator. *)
Definition paint (layer : raster) (c : Canvas) : Canvas :=
  let cx := context c in
  let src := match filter cx with Some r => blur r layer | None => layer end in
  with_bitmap c
    (fun u v =>
       if inb c u v
       then composite_px (globalCompositeOperation cx)
                         (px_scale (globalAlpha cx) (src u v)) (bitmap c u v)
       else bitmap c u v).

Definition set_globalCompositeOperation (id : canvasId) (op : compop) : M unit :=
  modifyC id (fun c =>
    with_context c (mkCtx op (globalAlpha (context c)) (filter (context c)))).

(** Assigning a value outside [0, 1] to [globalAlpha] is ignored. *)
Definition set_globalAlpha (id : canvasId) (a : Qc) : M unit :=
  modifyC id (fun c =>
    if Qcleb 0 a && Qcleb a 1
    then with_context c
           (mkCtx (globalCompositeOperation (context c)) a (filter (context c)))
    else c).

Definition set_filter (id : canvasId) (f : option Qc) : M unit :=
  modifyC id (fun c =>
    with_context c
      (mkCtx (globalCompositeOperation (context c)) (globalAlpha (context c)) f)).

Definition save (id : canvasId) : M unit :=
  modifyC id (fun c =>
    mkCanvas (width c) (height c) (context c) (context c :: saved c) (bitmap c)).

Definition restore (id : canvasId) : M unit :=
  modifyC id (fun c =>
    match saved c with
    | [] => c
    | cx :: rest => mkCanvas (width c) (height c) cx rest (bitmap c)
    end).

Definition clearRect (id : canvasId) (x y w h : Qc) : M unit :=
  modifyC id (fun c =>
    with_bitmap c
      (fun u v => if in_rect x y w h u v then transparent else bitmap c u v)).

(** [drawImage(src, dx, dy, dw, dh)].  A canvas source of zero width or
    height raises InvalidStateError; a video without current data, or an
    empty source, draws nothing. *)
Definition drawImage (dst : canvasId) (src : drawable) (dx dy dw dh : Qc) : M unit :=
  match src with
  | FromCanvas id =>
      s <- gets (getC id) ;;
      if ((width s =? 0) || (height s =? 0))%N
      then throw InvalidStateError
      else modifyC dst
             (paint (place (Qn (width s)) (Qn (height s)) (canvas_pixels s)
                           dx dy dw dh))
  | FromImage (ImgVideo v) =>
      if (readyState v <? 2)%Z || (videoWidth v =? 0)%N || (videoHeight v =? 0)%N
      then ret tt
      else modifyC dst
             (paint (place (Qn (videoWidth v)) (Qn (videoHeight v))
                           (fun x y => opaque (currentFrame v x y))
                           dx dy dw dh))
  | FromImage (ImgBitmap b) =>
      if ((bmWidth b =? 0) || (bmHeight b =? 0))%N
      then ret tt
      else modifyC dst
             (paint (place (Qn (bmWidth b)) (Qn (bmHeight b)) (bmPixels b)
                           dx dy dw dh))
  end.

(** [drawImage(src, dx, dy)] for a canvas source: at its own size. *)
Definition drawImage_at (dst : canvasId) (id : canvasId) (dx dy : Qc) : M unit :=
  s <- gets (getC id) ;;
  drawImage dst (FromCanvas id) dx dy (Qn (width s)) (Qn (height s)).

End CanvasAPI.

(** ** The class *)

(** The two versions differ in [start], [_waitForVideo] and [_composite]. *)
Inductive variant :=
| MaskThenRGB      (* src/personMatte.js *)
| RGBThenMask.     (* src/unnamed/part_000 *)

(** The options argument of the constructor; an absent field is [None]. *)
Record OptsArg := mkOptsArg {
  arg_modelSelection : option Qc;
  arg_featherPx : option Qc;
  arg_dilatePx : option Qc;
  arg_emaAlpha : option Qc;
  arg_rgbScale : option Qc;
  arg_depthFpsDivider : option Qc
}.

Definition noOpts : OptsArg := mkOptsArg None None None None None None.

Definition orDefault (o : option Qc) (d : Qc) : Qc :=
  match o with Some x => x | None => d end.

(** [constructor(videoEl, {...} = {})]; [loaded] is [window.SelfieSegmentation]. *)
Definition new_PersonMatte (loaded : bool) (arg : OptsArg) : completion PersonMatte :=
  if negb loaded then Throw NotLoadedError
  else Normal
    (mkPM (mkOpts (orDefault (arg_modelSelection arg) 1)
                  (orDefault (arg_featherPx arg) 1)
                  (orDefault (arg_dilatePx arg) (6 # 10))
                  (orDefault (arg_emaAlpha arg) (35 # 100))
                  (orDefault (arg_rgbScale arg) (992 # 1000))
                  (orDefault (arg_depthFpsDivider arg) 1))
          createCanvas createCanvas createCanvas createCanvas false 0).

(** [x|0]: truncate, then wrap to a signed 32-bit integer. *)
Definition Qtrunc (q : Qc) : Z := if Qcleb 0 q then Qfloor q else Qceiling q.

Definition ToInt32 (q : Qc) : Z := ((Qtrunc q + 2 ^ 31) mod 2 ^ 32 - 2 ^ 31)%Z.

(** [Math.max(1, this.opts.depthFpsDivider|0)] *)
Definition divide (o : Opts) : Z := Z.max 1 (ToInt32 (depthFpsDivider o)).

(** [Math.min(1, Math.max(0.97, this.opts.rgbScale))] *)
Definition scale_s (o : Opts) : Qc := Math_min 1 (Math_max (97 # 100) (rgbScale o)).

(** [a || b] on numbers. *)
Definition orElse (a b : N) : N := if (a =? 0)%N then b else a.

(** [results.image || this.videoEl] *)
Definition imageOr (results_image : option ExtImage) (videoEl : Video) : ExtImage :=
  match results_image with Some i => i | None => ImgVideo videoEl end.

(** What the loop does when [_tick] reaches its end or its [await]. *)
Inductive tickExit :=
| Returned      (* [if (this._stopped) return]: nothing is scheduled *)
| Scheduled     (* [requestAnimationFrame(() => this._tick())] was called *)
| Awaiting.     (* suspended at [await this.seg.send(...)] *)

(** The provider's answer to one [send]: the listener runs and the promise
    fulfils, or the promise rejects; with the video as it is by then. *)
Inductive outcome :=
| Delivered (r : Results) (videoThen : Video)
| Rejected (videoThen : Video).

Record tickRecord := mkTickRecord {
  requested : bool;       (* [this.seg.send] was called on this tick *)
  after : PersonMatte     (* the object when the tick is over *)
}.

Section Class.
Context {P : Platform}.
Local Open Scope js_scope.

(** [_composite(results)] of src/personMatte.js; only [results.image] is
    read from the argument. *)
Definition _composite_MaskThenRGB (results_image : option ExtImage) (videoEl : Video) : M unit :=
  w <- gets (fun m => Qn (width (canvas m))) ;;
  h <- gets (fun m => Qn (height (canvas m))) ;;
  save Out ;;
  clearRect Out 0 0 w h ;;
  (* draw mask into output *)
  set_globalCompositeOperation Out SourceOver ;;
  drawImage Out (FromCanvas MaskNice) 0 0 w h ;;
  (* soft after-feather (subtle) *)
  feather <- gets (fun m => featherPx (opts m)) ;;
  (if Qcltb (2 # 10) feather
   then set_filter Out (Some (feather * (6 # 10))) ;;
        drawImage_at Out Out 0 0 ;;
        set_filter Out None
   else ret tt) ;;
  (* keep only masked pixels for RGB *)
  set_globalCompositeOperation Out SourceIn ;;
  s <- gets (fun m => scale_s (opts m)) ;;
  let w2 := w * s in
  let h2 := h * s in
  let x := (w - w2) / two in
  let y := (h - h2) / two in
  drawImage Out (FromImage (imageOr results_image videoEl)) x y w2 h2 ;;
  restore Out.

(** [_composite(results)] of src/unnamed/part_000. *)
Definition _composite_RGBThenMask (results_image : option ExtImage) (videoEl : Video) : M unit :=
  w <- gets (fun m => Qn (width (canvas m))) ;;
  h <- gets (fun m => Qn (height (canvas m))) ;;
  save Out ;;
  clearRect Out 0 0 w h ;;
  s <- gets (fun m => scale_s (opts m)) ;;
  let w2 := w * s in
  let h2 := h * s in
  let x := (w - w2) / two in
  let y := (h - h2) / two in
  (* STEP A: put RGB into the destination *)
  set_globalCompositeOperation Out Copy ;;
  drawImage Out (FromImage (imageOr results_image videoEl)) x y w2 h2 ;;
  (* STEP B: keep only the parts where mask alpha > 0 *)
  set_globalCompositeOperation Out DestinationIn ;;
  drawImage Out (FromCanvas MaskNice) 0 0 w h ;;
  (* optional soft after-feather *)
  feather <- gets (fun m => featherPx (opts m)) ;;
  (if Qcltb (2 # 10) feather
   then set_globalCompositeOperation Out SourceOver ;;
        set_filter Out (Some (feather * (4 # 10))) ;;
        drawImage_at Out Out 0 0 ;;
        set_filter Out None
   else ret tt) ;;
  restore Out.

Definition _composite (ver : variant) : option ExtImage -> Video -> M unit :=
  match ver with
  | MaskThenRGB => _composite_MaskThenRGB
  | RGBThenMask => _composite_RGBThenMask
  end.

(** [_onResults], block 1: copy raw mask. *)
Definition copyRawMask (results : Results) (w h : Qc) : M unit :=
  set_globalCompositeOperation MaskRaw Copy ;;
  drawImage MaskRaw (FromImage (ImgBitmap (segmentationMask results))) 0 0 w h.

(** [_onResults], block 2: EMA temporal smoothing. *)
Definition emaSmooth (w h : Qc) : M unit :=
  set_globalCompositeOperation Scratch Copy ;;
  drawImage Scratch (FromCanvas MaskNice) 0 0 w h ;;
  clearRect MaskNice 0 0 w h ;;
  a <- gets (fun m => emaAlpha (opts m)) ;;
  set_globalAlpha MaskNice (1 - a) ;;
  drawImage MaskNice (FromCanvas Scratch) 0 0 w h ;;
  a' <- gets (fun m => emaAlpha (opts m)) ;;
  set_globalAlpha MaskNice a' ;;
  drawImage MaskNice (FromCanvas MaskRaw) 0 0 w h ;;
  set_globalAlpha MaskNice 1.

(** [_onResults], block 3: feather + slight dilation in a single blur pass. *)
Definition featherDilate (w h : Qc) : M unit :=
  o <- gets opts ;;
  if Qcltb 0 (dilatePx o) || Qcltb 0 (featherPx o)
  then let total := Math_max 0 (dilatePx o + featherPx o) in
       set_filter MaskNice (Some total) ;;
       drawImage MaskNice (FromCanvas MaskNice) 0 0 w h ;;
       set_filter MaskNice None
  else ret tt.

Definition _onResults (ver : variant) (results : Results) (videoEl : Video) : M unit :=
  w <- gets (fun m => Qn (width (canvas m))) ;;
  h <- gets (fun m => Qn (height (canvas m))) ;;
  copyRawMask results w h ;;
  emaSmooth w h ;;
  featherDilate w h ;;
  (* block 4: composite matte *)
  _composite ver (image results) videoEl.

(** [stop(){ this._stopped = true; }] *)
Definition stop : M unit :=
  modify (fun m =>
    mkPM (opts m) (canvas m) (_maskRaw m) (_maskNice m) (_scratch m) true (_frame m)).


(** [this._frame++] *)
Definition next_frame (m : PersonMatte) : PersonMatte :=
  mkPM (opts m) (canvas m) (_maskRaw m) (_maskNice m) (_scratch m)
       (_stopped m) (_frame m + 1).

Definition incr_frame : M unit := modify next_frame.

(** [_tick] from its entry to its end, or to the [await]. *)
Definition _tick_enter (ver : variant) (videoEl : Video) : M tickExit :=
  stopped <- gets _stopped ;;
  if (stopped : bool) then ret Returned
  else
    incr_frame ;;
    d <- gets (fun m => divide (opts m)) ;;
    f <- gets _frame ;;
    if (1 <? d)%Z && negb (Z.rem f d =? 0)%Z
    then _composite ver (Some (ImgVideo videoEl)) videoEl ;;
         ret Scheduled
    else ret Awaiting.

(** [_tick] resumed by the fulfilment of [send]. *)
Definition _tick_fulfilled : M tickExit := ret Scheduled.

(** [_tick] resumed by the rejection of [send]: the [catch] block. *)
Definition _tick_rejected (ver : variant) (videoEl : Video) : M tickExit :=
  _composite ver (Some (ImgVideo videoEl)) videoEl ;;
  ret Scheduled.

(** One whole tick, when nothing else runs between the [send] and its
    settlement: the listener runs before the promise fulfils.  The boolean
    tells whether [send] was called.  (An exception of the listener ends the
    tick here; it takes a canvas of size zero to raise one.) *)
Definition tick (ver : variant) (videoEl : Video) (o : outcome) : M (bool * tickExit) :=
  e <- _tick_enter ver videoEl ;;
  match e with
  | Awaiting =>
      match o with
      | Delivered r v' =>
          _onResults ver r v' ;; x <- _tick_fulfilled ;; ret (true, x)
      | Rejected v' =>
          x <- _tick_rejected ver v' ;; ret (true, x)
      end
  | other => ret (false, other)
  end.

(** The ticks of a session, one input per tick, for as long as the loop
    reschedules itself: a tick that returns at once or throws ends it. *)
Fixpoint run_ticks (ver : variant) (inputs : list (Video * outcome)) (m : PersonMatte)
  : list tickRecord :=
  match inputs with
  | [] => []
  | (v, o) :: rest =>
      match tick ver v o m with
      | (Normal (req, Scheduled), m') => mkTickRecord req m' :: run_ticks ver rest m'
      | _ => []
      end
  end.

(** [_waitForVideo]: [v0] is the element when the promise is created,
    [loads] the element at each later [loadeddata] event.  The result is
    the element when the promise resolves, if it does. *)
Definition hasSize (v : Video) : bool :=
  negb (ToInt32 (Qn (videoWidth v)) =? 0)%Z && negb (ToInt32 (Qn (videoHeight v)) =? 0)%Z.

Definition _waitForVideo (ver : variant) (v0 : Video) (loads : list Video) : option Video :=
  match ver with
  | MaskThenRGB =>
      if (2 <=? readyState v0)%Z then Some v0
      else match loads with [] => None | v :: _ => Some v end
  | RGBThenMask =>
      if (2 <=? readyState v0)%Z && hasSize v0 then Some v0
      else find hasSize loads
  end.

(** The sizes [start] gives the canvases. *)
Definition start_dims (ver : variant) (v : Video) : N * N :=
  match ver with
  | MaskThenRGB =>
      (orElse (videoWidth v) (elWidth v), orElse (videoHeight v) (elHeight v))
  | RGBThenMask =>
      (orElse (videoWidth v) (orElse (elWidth v) 640),
       orElse (videoHeight v) (orElse (elHeight v) 480))
  end.

Definition sizeAll (w h : N) : M unit :=
  modifyC Out (resize w h) ;;
  modifyC MaskRaw (resize w h) ;;
  modifyC MaskNice (resize w h) ;;
  modifyC Scratch (resize w h).

(** [start()]: [None] while [_waitForVideo] has not resolved. *)
Definition start (ver : variant) (v0 : Video) (loads : list Video) : option (M tickExit) :=
  match _waitForVideo ver v0 loads with
  | None => None
  | Some v =>
      Some (let '(w, h) := start_dims ver v in
            sizeAll w h ;;
            _tick_enter ver v)
  end.

End Class.

(** ** Sessions: the handlers under the host's event loop *)

Inductive event :=
| EvAnimationFrame (videoEl : Video)       (* a callback queued by requestAnimationFrame runs *)
| EvStop                                   (* the application calls stop() *)
| EvResults (r : Results) (videoEl : Video)(* seg calls the onResults listener *)
| EvSendFulfilled                          (* the awaited send() fulfils *)
| EvSendRejected (videoEl : Video).        (* the awaited send() rejects *)

Record Session := mkSession {
  self : PersonMatte;
  queued : nat;         (* animation-frame callbacks not yet run *)
  suspended : nat       (* ticks waiting at their await *)
}.

Section Sessions.
Context {P : Platform}.

(** The session after a handler ran: [Scheduled] queues a callback,
    [Awaiting] leaves a suspended tick, a return or a throw leaves nothing. *)
Definition settle (r : completion tickExit * PersonMatte) (q k : nat) : Session :=
  match r with
  | (Normal Scheduled, m) => mkSession m (S q) k
  | (Normal Awaiting, m) => mkSession m q (S k)
  | (Normal Returned, m) => mkSession m q k
  | (Throw _, m) => mkSession m q k
  end.

(** One event; [None] when the host cannot produce it in this state. *)
Definition step (ver : variant) (s : Session) (e : event) : option Session :=
  match e with
  | EvAnimationFrame v =>
      match queued s with
      | O => None
      | S q => Some (settle (_tick_enter ver v (self s)) q (suspended s))
      end
  | EvStop => Some (mkSession (snd (stop (self s))) (queued s) (suspended s))
  | EvResults r v =>
      Some (mkSession (snd (_onResults ver r v (self s))) (queued s) (suspended s))
  | EvSendFulfilled =>
      match suspended s with
      | O => None
      | S k => Some (settle (_tick_fulfilled (self s)) (queued s) k)
      end
  | EvSendRejected v =>
      match suspended s with
      | O => None
      | S k => Some (settle (_tick_rejected ver v (self s)) (queued s) k)
      end
  end.

Fixpoint run (ver : variant) (s : Session) (es : list event) : option Session :=
  match es with
  | [] => Some s
  | e :: rest =>
      match step ver s e with
      | Some s' => run ver s' rest
      | None => None
      end
  end.

(** The session [start()] leaves behind, once [_waitForVideo] resolved. *)
Definition start_session (ver : variant) (v0 : Video) (loads : list Video) (m : PersonMatte)
  : option Session :=
  match start ver v0 loads with
  | None => None
  | Some c => Some (settle (c m) 0 0)
  end.

End Sessions.

(** ** Well-formed objects *)

Definition nonzero (c : Canvas) : bool :=
  negb ((width c =? 0) || (height c =? 0))%N.

(** No canvas of the object is empty: no [drawImage] between them throws. *)
Definition sized (m : PersonMatte) : bool :=
  nonzero (canvas m) && nonzero (_maskRaw m) && nonzero (_maskNice m)
  && nonzero (_scratch m).

Definition same_size (a b : Canvas) : bool :=
  ((width a =? width b) && (height a =? height b))%N.

(** The four canvases have one common, non-zero size, as [start] leaves them. *)
Definition coherent (m : PersonMatte) : bool :=
  sized m && same_size (_maskRaw m) (canvas m)
  && same_size (_maskNice m) (canvas m) && same_size (_scratch m) (canvas m).

Definition plain (cx : Context2D) : Prop := globalAlpha cx = 1 /\ filter cx = None.

(** ** The compositor in the spec's words (section 4.4), as image algebra *)

Definition clip (w h : N) (f : raster) : raster :=
  fun u v => if in_rect 0 0 (Qn w) (Qn h) u v then f u v else transparent.

(** An image that [drawImage] can draw: a video with current data, a
    non-empty bitmap. *)
Definition has_frame (i : ExtImage) : bool :=
  match i with
  | ImgVideo v =>
      negb ((readyState v <? 2)%Z || (videoWidth v =? 0)%N || (videoHeight v =? 0)%N)
  | ImgBitmap b => negb ((bmWidth b =? 0) || (bmHeight b =? 0))%N
  end.

Definition frame_pixels (i : ExtImage) : raster :=
  match i with
  | ImgVideo v => fun x y => opaque (currentFrame v x y)
  | ImgBitmap b => bmPixels b
  end.

Definition frame_size (i : ExtImage) : Qc * Qc :=
  match i with
  | ImgVideo v => (Qn (videoWidth v), Qn (videoHeight v))
  | ImgBitmap b => (Qn (bmWidth b), Qn (bmHeight b))
  end.

(** The frame scaled by [s = clamp(rgbScale, 0.97, 1.0)] and centred in a
    [w] x [h] buffer: offsets [((w - w s)/2, (h - h s)/2)]. *)
Definition centred_rect (o : Opts) (w h : N) : Qc * Qc * Qc * Qc :=
  let s := Math_min 1 (Math_max (97 # 100) (rgbScale o)) in
  let w2 := Qn w * s in
  let h2 := Qn h * s in
  ((Qn w - w2) / two, (Qn h - h2) / two, w2, h2).

Definition scaled_frame (o : Opts) (w h : N) (frame : ExtImage) : raster :=
  let '(x, y, w2, h2) := centred_rect o w h in
  place (fst (frame_size frame)) (snd (frame_size frame)) (frame_pixels frame) x y w2 h2.

Section SpecCompositor.
Context {P : Platform}.

(** Steps 1 to 4 of the spec; [c] is the fraction of [featherPx] that the
    last blur takes as its radius. *)
Definition spec_composite (c : Qc) (o : Opts) (w h : N) (frame : ExtImage) (shaped : raster) : raster :=
  let cleared : raster := blank in
  let drawn : raster :=
    fun u v => composite_px Copy (scaled_frame o w h frame u v) (cleared u v) in
  let masked : raster := fun u v => px_scale (alpha (shaped u v)) (drawn u v) in
  let softened : raster :=
    fun u v => over (blur (featherPx o * c) (clip w h masked) u v) (masked u v) in
  if Qcltb (2 # 10) (featherPx o) then softened else masked.

(** The order of src/personMatte.js: the mask first, softened on its own,
    then the frame kept where the mask is. *)
Definition matte (c : Qc) (o : Opts) (w h : N) (shaped : raster) : raster :=
  let softened : raster :=
    fun u v => over (blur (featherPx o * c) (clip w h shaped) u v) (shaped u v) in
  if Qcltb (2 # 10) (featherPx o) then softened else shaped.

Definition mask_first_composite (c : Qc) (o : Opts) (w h : N) (frame : ExtImage) (shaped : raster) : raster :=
  fun u v => px_scale (alpha (matte c o w h shaped u v)) (scaled_frame o w h frame u v).

End SpecCompositor.

(** [stable m m']: only the bitmaps and contexts of the three mask canvases
    may differ between [m] and [m']. *)
Definition stable (m m' : PersonMatte) : Prop :=
  opts m' = opts m /\ canvas m' = canvas m /\
  _stopped m' = _stopped m /\ _frame m' = _frame m /\
  (width (_maskRaw m') = width (_maskRaw m) /\ height (_maskRaw m') = height (_maskRaw m)) /\
  (width (_maskNice m') = width (_maskNice m) /\ height (_maskNice m') = height (_maskNice m)) /\
  (width (_scratch m') = width (_scratch m) /\ height (_scratch m') = height (_scratch m)).

(** ** Vocabulary of the claims *)


(** The image a tick hands to [_composite], and the video at that time:
    the live element on a skipped or a failed tick, [results.image] (or the
    live element in its absence) when the listener ran. *)
Definition tick_image (io : Video * outcome) (req : bool) : option ExtImage * Video :=
  if req
  then match snd io with
       | Delivered r v' => (image r, v')
       | Rejected v' => (Some (ImgVideo v'), v')
       end
  else (Some (ImgVideo (fst io)), fst io).

(** Whether a tick skips the request: [divide > 1 && (this._frame % divide)],
    with [f] the counter before its increment. *)
Definition skips (o : Opts) (f : Z) : bool :=
  (1 <? divide o)%Z && negb (Z.rem (f + 1) (divide o) =? 0)%Z.

Section Vocabulary.
Context {P : Platform}.

(** [m'] is what a call of [_composite] on that image returned normally. *)
Definition composited (ver : variant) (iv : option ExtImage * Video) (m' : PersonMatte) : Prop :=
  exists m0, _composite ver (fst iv) (snd iv) m0 = (Normal tt, m')
             /\ _maskNice m0 = _maskNice m'.

End Vocabulary.

(** The live element a tick without a new mask draws from. *)
Definition live_video (v : Video) (o : outcome) (skipped : bool) : Video :=
  if skipped then v
  else match o with Delivered _ v' => v' | Rejected v' => v' end.

Section Laws.
Context {P : Platform}.

(** The image each version's [_composite] computes, as image algebra. *)
Definition composite_law (ver : variant) : Opts -> N -> N -> ExtImage -> raster -> raster :=
  match ver with
  | MaskThenRGB => mask_first_composite (6 # 10)
  | RGBThenMask => spec_composite (4 # 10)
  end.

End Laws.


(** ** The smoother and the shaper, as image algebra *)

(** The blend of the spec (section 4.2): S_new = (1 - a) S_prev + a R. *)
Definition ema_spec (a : Qc) (S_prev R : pixel) : pixel :=
  px_add (px_scale (1 - a) S_prev) (px_scale a R).

(** What the two draws of block 2 leave: the raw mask at opacity [a] drawn
    over the previous mask at opacity [1 - a]. *)
Definition ema_code (a : Qc) (S_prev R : pixel) : pixel :=
  over (px_scale a R) (px_scale (1 - a) S_prev).

Section Shaper.
Context {P : Platform}.

(** What block 3 leaves in [_maskNice]: its blurred copy drawn over it. *)
Definition shape (o : Opts) (w h : N) (smoothed : raster) : raster :=
  if Qcltb 0 (dilatePx o) || Qcltb 0 (featherPx o)
  then fun u v =>
         over (blur (Math_max 0 (dilatePx o + featherPx o)) (clip w h smoothed) u v)
              (smoothed u v)
  else smoothed.

(** The state after blocks 1 and 2 of [_onResults], before the shaper. *)
Definition smoothed_state (r : Results) (m : PersonMatte) : PersonMatte :=
  let w := Qn (width (canvas m)) in
  let h := Qn (height (canvas m)) in
  snd (emaSmooth w h (snd (copyRawMask r w h m))).

(** C7 as the spec states it: the shaper leaves alone the smoothed mask
    that the next EMA update reads from [_maskNice]. *)
Definition shaper_keeps_smoothed (ver : variant) (r : Results) (v : Video) (m : PersonMatte) : Prop :=
  forall x y, inb (_maskNice m) x y = true ->
    bitmap (_maskNice (snd (_onResults ver r v m))) x y
    = bitmap (_maskNice (smoothed_state r m)) x y.

End Shaper.

(** ** Properties of computations *)

(** [this._stopped = true] *)
Definition stopped_ (m : PersonMatte) : PersonMatte :=
  mkPM (opts m) (canvas m) (_maskRaw m) (_maskNice m) (_scratch m) true (_frame m).

(** A computation that never writes [this.opts]. *)
Definition keeps_opts {A} (c : M A) : Prop :=
  forall m, opts (snd (c m)) = opts m.

(** A computation that neither reads nor writes [this._stopped]: it does
    to a stopped object what it does to a running one. *)
Definition ignores_stop {A} (c : M A) : Prop :=
  forall m, c (stopped_ m) = (fst (c m), stopped_ (snd (c m))).

Definition no_results (es : list event) : bool :=
  forallb (fun e => match e with EvResults _ _ => false | _ => true end) es.

(** The state in which every handler finds and leaves a started session:
    one common non-zero size, and contexts back at their resting values. *)
Definition at_rest (m : PersonMatte) : Prop :=
  coherent m = true /\ plain (context (canvas m)) /\
  plain (context (_maskRaw m)) /\ plain (context (_scratch m)) /\
  context (_maskNice m) = defaultContext.

(** ** Concrete data for the examples below *)

(** A host whose blur, whatever the radius, weighs a point by 1/2 and its
    left and right neighbours at distance 1 by 1/4 each. *)
Definition tent : Platform :=
  {| kernel := fun _ => [(- (1), 0, 1 # 4); (0, 0, 1 # 2); (1, 0, 1 # 4)] |}.

Definition opaqueMask (w h : N) : Bitmap := mkBitmap w h (fun _ _ => mkPx 0 0 0 1).

(** A 4 x 4 video: red on the left half, blue on the right. *)
Definition stripes : Qc -> Qc -> rgb :=
  fun u _ => if Qcltb u two then mkRgb 1 0 0 else mkRgb 0 0 1.

Definition cam : Video := mkVideo 4 4 4 0 0 stripes.

Definition fallback : PersonMatte :=
  mkPM (mkOpts 0 0 0 0 0 0) createCanvas createCanvas createCanvas createCanvas true 0.

Definition construct (arg : OptsArg) : PersonMatte :=
  match new_PersonMatte true arg with Normal m => m | Throw _ => fallback end.

Definition everyOther : OptsArg := mkOptsArg None None None None None (Some (2 # 1)).

(** A session sized 4 x 4 that asks for a mask on every other frame. *)
Definition started2 : PersonMatte := snd (sizeAll 4 4 (construct everyOther)).

Definition maskRes : Results := mkResults (opaqueMask 4 4) None.

Definition threeTicks : list (Video * outcome) :=
  [(cam, Delivered maskRes cam); (cam, Rejected cam); (cam, Delivered maskRes cam)].

(** A session that takes each new mask as it is ([emaAlpha] = 1), feathers
    by one pixel and does not shrink the frame, after its first mask. *)
Definition crisp : OptsArg :=
  mkOptsArg None (Some 1) (Some 0) (Some 1) (Some 1) None.

Definition started (arg : OptsArg) : PersonMatte := snd (sizeAll 4 4 (construct arg)).

Definition afterFirstMask (ver : variant) (arg : OptsArg) : PersonMatte :=
  snd (tick (P := tent) ver cam (Delivered maskRes cam) (started arg)).

(** No feather, no dilation; everything else by default. *)
Definition sharp : OptsArg := mkOptsArg None (Some 0) (Some 0) None None None.

Definition withMask (m : PersonMatte) (b : raster) : PersonMatte :=
  setC MaskNice (with_bitmap (_maskNice m) b) m.

(** A sized session whose shaped mask is opaque all over. *)
Definition fullMask : PersonMatte := withMask (started sharp) (fun _ _ => mkPx 0 0 0 1).

Definition afterSecondMask (ver : variant) (arg : OptsArg) : PersonMatte :=
  snd (tick (P := tent) ver cam (Delivered maskRes cam) (afterFirstMask ver arg)).

Definition orIdle (s : option Session) : Session :=
  match s with Some s' => s' | None => mkSession fallback 0 0 end.

(** A session with the default options: started on [cam], its first mask
    delivered, then stop() called while the next tick is queued. *)
Definition stopRequested (ver : variant) : Session :=
  orIdle (run (P := tent) ver
            (orIdle (start_session (P := tent) ver cam [] (construct noOpts)))
            [EvResults maskRes cam; EvSendFulfilled; EvStop]).

(** The same session once the queued tick has run and seen the flag. *)
Definition stopObserved (ver : variant) : Session :=
  orIdle (step (P := tent) ver (stopRequested ver) (EvAnimationFrame cam)).

(** A video element showing an audio-only stream: data is there
    (readyState 4) but there is no picture, and no width or height attribute. *)
Definition audioOnly : Video := mkVideo 4 0 0 0 0 stripes.
(** ** Frame conditions: what a computation leaves as it found it *)

(** [keeps R c]: [c] leaves an object that [R] relates to the one it found,
    whether it returns or throws. *)
Definition keeps (R : PersonMatte -> PersonMatte -> Prop) {A} (c : M A) : Prop :=
  forall m, R m (snd (c m)).

(** No canvas changed its size. *)
Definition same_sizes (m m' : PersonMatte) : Prop :=
  forall id, width (getC id m') = width (getC id m) /\
             height (getC id m') = height (getC id m).

(** The three mask canvases are as they were: sizes, contexts and pixels. *)
Definition same_masks (m m' : PersonMatte) : Prop :=
  _maskRaw m' = _maskRaw m /\ _maskNice m' = _maskNice m /\ _scratch m' = _scratch m.

(** Nothing changed but the output canvas. *)
Definition same_but_output (m m' : PersonMatte) : Prop :=
  opts m' = opts m /\ same_masks m m' /\
  _stopped m' = _stopped m /\ _frame m' = _frame m.

(** A function on canvases that keeps their size. *)
Definition keeps_size (f : Canvas -> Canvas) : Prop :=
  forall c, width (f c) = width c /\ height (f c) = height c.

(** The options, the stop flag and the frame counter are as they were. *)
Definition same_control (m m' : PersonMatte) : Prop :=
  opts m' = opts m /\ _stopped m' = _stopped m /\ _frame m' = _frame m.

Definition is_some {A} (o : option A) : bool :=
  match o with Some _ => true | None => false end.

(** A session with the default options, started on [cam]: its first tick
    waits for the answer to its request. *)
Definition running (ver : variant) : Session :=
  orIdle (start_session (P := tent) ver cam [] (construct noOpts)).

(** The request fails, the next tick runs, the application stops the matte. *)
Definition failThenStop : list event :=
  [EvSendRejected cam; EvAnimationFrame cam; EvStop].

(** An object whose canvases were given the size 0 x 0, as [start] of
    src/personMatte.js does on an element without picture. *)
Definition unsized : PersonMatte := snd (sizeAll 0 0 (construct noOpts)).

(** Every answer in the list is a rejection. *)
Definition all_rejected (inputs : list (Video * outcome)) : bool :=
  forallb (fun io => match snd io with Rejected _ => true | Delivered _ _ => false end)
          inputs.

Definition twoFailures : list (Video * outcome) :=
  [(cam, Rejected cam); (cam, Rejected cam)].

(** The number of ticks that called [send]. *)
Definition requests (l : list tickRecord) : nat := length (List.filter requested l).

(** A divider that is not an integer: 1.9. *)
Definition fractional : OptsArg := mkOptsArg None None None None None (Some (19 # 10)).

(** Options whose [emaAlpha] is outside [0, 1], at 0 and at 1. *)
Definition wild : OptsArg := mkOptsArg None None None (Some (2 # 1)) None None.

Definition frozen : OptsArg := mkOptsArg None None None (Some 0) None None.

(** An element that has no picture yet (readyState 0), and its later
    states at two [loadeddata] events: still without size, then 4 x 4. *)
Definition notReady : Video := mkVideo 0 0 0 0 0 stripes.

Definition noSizeYet : Video := mkVideo 2 0 0 0 0 stripes.

(** ** The provider's side of a session

    The segmentation calls the listener while it works on a [send], before
    the promise of that [send] settles; [_tick] is the only caller of [send]
    and awaits it.  So a result reaches [_onResults] only while a tick is
    suspended at its [await]. *)
Definition in_flight (s : Session) : bool := negb (Nat.eqb (suspended s) 0).

Section Host.
Context {P : Platform}.

(** One event the host can produce in this state. *)
Definition host_step (ver : variant) (s : Session) (e : event) : option Session :=
  match e with
  | EvResults _ _ => if in_flight s then step ver s e else None
  | _ => step ver s e
  end.

Fixpoint host_run (ver : variant) (s : Session) (es : list event) : option Session :=
  match es with
  | [] => Some s
  | e :: rest =>
      match host_step ver s e with
      | Some s' => host_run ver s' rest
      | None => None
      end
  end.

End Host.

(** The session that [start] of src/personMatte.js leaves on an element
    without picture: canvases of size 0 x 0, the first tick at its [await]. *)
Definition emptySession : Session :=
  orIdle (start_session (P := tent) MaskThenRGB audioOnly [] (construct noOpts)).

(** * The application around the matte: src/demo.js

    [attachRemote] constructs and starts a [PersonMatte] on the remote video,
    [endCall] stops it.  The module-level variables of the script are the
    fields of [App]; objects that several variables can point to (the mattes,
    the textures, the meshes) live in stores and are named by their index.

    PeerJS and three.js are taken as follows: [close()] of a connection is
    recorded and runs no listener within the call; [scene.add] appends to the
    children of the scene and [scene.remove] takes the object out of them;
    [dispose()] is recorded on the mesh.  An exception that leaves an event
    handler, and a rejection that nothing handles, are recorded in
    [uncaught]. *)

Module Demo.
Import String.StringSyntax.
Delimit Scope string_scope with string.

Definition string := String.string.

(** The two versions of src/demo.js, in the order of the file. *)
Inductive version := First | Second.

Inductive error :=
| ReferenceError        (* an identifier that is not declared *)
| TypeError             (* a property read on null *)
| ConstructorError (e : exn).   (* thrown by [new PersonMatte] *)

(** [new THREE.CanvasTexture(matte.canvas)] *)
Record CanvasTexture := mkTexture {
  tex_canvas : nat;               (* the matte whose canvas the texture reads *)
  premultiplyAlpha : bool;
  needsUpdate : bool
}.

(** [new THREE.Mesh(new THREE.PlaneGeometry(1, 1.5),
                    new THREE.MeshBasicMaterial({ map, transparent: true }))] *)
Record Mesh := mkMesh {
  material_map : nat;             (* a texture *)
  material_transparent : bool;
  material_needsUpdate : bool;
  position : Z * Z * Z;
  geometry_disposed : bool;
  material_disposed : bool
}.

(** A [PersonMatte] with what its loop has pending; [waiting]: [start()] was
    called and is still at [await this._waitForVideo()]. *)
Record MatteObj := mkMatteObj {
  object : Session;
  waiting : bool
}.

Record App := mkApp {
  window_SelfieSegmentation : bool;
  callConn : option nat;
  closedCalls : list nat;         (* the connections [close()] was called on *)
  remoteStream : option nat;
  remoteVideo_srcObject : option nat;
  mattes : list MatteObj;         (* every PersonMatte constructed so far *)
  matte : option nat;
  textures : list CanvasTexture;
  matteTexture : option nat;
  meshes : list Mesh;
  remotePlane : option nat;
  scene : list nat;               (* scene.children *)
  isMuted : bool;
  audioTracks : list bool;        (* [enabled] of each audio track of localStream *)
  muteBtn_textContent : string;
  status_textContent : string;
  uncaught : list error
}.

(** Assignments to one variable. *)
Definition set_callConn (v : option nat) (a : App) : App :=
  mkApp (window_SelfieSegmentation a) v (closedCalls a) (remoteStream a)
        (remoteVideo_srcObject a) (mattes a) (matte a) (textures a) (matteTexture a)
        (meshes a) (remotePlane a) (scene a) (isMuted a) (audioTracks a)
        (muteBtn_textContent a) (status_textContent a) (uncaught a).

Definition set_closedCalls (v : list nat) (a : App) : App :=
  mkApp (window_SelfieSegmentation a) (callConn a) v (remoteStream a)
        (remoteVideo_srcObject a) (mattes a) (matte a) (textures a) (matteTexture a)
        (meshes a) (remotePlane a) (scene a) (isMuted a) (audioTracks a)
        (muteBtn_textContent a) (status_textContent a) (uncaught a).

Definition set_remoteStream (v : option nat) (a : App) : App :=
  mkApp (window_SelfieSegmentation a) (callConn a) (closedCalls a) v
        (remoteVideo_srcObject a) (mattes a) (matte a) (textures a) (matteTexture a)
        (meshes a) (remotePlane a) (scene a) (isMuted a) (audioTracks a)
        (muteBtn_textContent a) (status_textContent a) (uncaught a).

Definition set_srcObject (v : option nat) (a : App) : App :=
  mkApp (window_SelfieSegmentation a) (callConn a) (closedCalls a) (remoteStream a)
        v (mattes a) (matte a) (textures a) (matteTexture a)
        (meshes a) (remotePlane a) (scene a) (isMuted a) (audioTracks a)
        (muteBtn_textContent a) (status_textContent a) (uncaught a).

Definition set_mattes (v : list MatteObj) (a : App) : App :=
  mkApp (window_SelfieSegmentation a) (callConn a) (closedCalls a) (remoteStream a)
        (remoteVideo_srcObject a) v (matte a) (textures a) (matteTexture a)
        (meshes a) (remotePlane a) (scene a) (isMuted a) (audioTracks a)
        (muteBtn_textContent a) (status_textContent a) (uncaught a).

Definition set_matte (v : option nat) (a : App) : App :=
  mkApp (window_SelfieSegmentation a) (callConn a) (closedCalls a) (remoteStream a)
        (remoteVideo_srcObject a) (mattes a) v (textures a) (matteTexture a)
        (meshes a) (remotePlane a) (scene a) (isMuted a) (audioTracks a)
        (muteBtn_textContent a) (status_textContent a) (uncaught a).

Definition set_textures (v : list CanvasTexture) (a : App) : App :=
  mkApp (window_SelfieSegmentation a) (callConn a) (closedCalls a) (remoteStream a)
        (remoteVideo_srcObject a) (mattes a) (matte a) v (matteTexture a)
        (meshes a) (remotePlane a) (scene a) (isMuted a) (audioTracks a)
        (muteBtn_textContent a) (status_textContent a) (uncaught a).

Definition set_matteTexture (v : option nat) (a : App) : App :=
  mkApp (window_SelfieSegmentation a) (callConn a) (closedCalls a) (remoteStream a)
        (remoteVideo_srcObject a) (mattes a) (matte a) (textures a) v
        (meshes a) (remotePlane a) (scene a) (isMuted a) (audioTracks a)
        (muteBtn_textContent a) (status_textContent a) (uncaught a).

Definition set_meshes (v : list Mesh) (a : App) : App :=
  mkApp (window_SelfieSegmentation a) (callConn a) (closedCalls a) (remoteStream a)
        (remoteVideo_srcObject a) (mattes a) (matte a) (textures a) (matteTexture a)
        v (remotePlane a) (scene a) (isMuted a) (audioTracks a)
        (muteBtn_textContent a) (status_textContent a) (uncaught a).

Definition set_remotePlane (v : option nat) (a : App) : App :=
  mkApp (window_SelfieSegmentation a) (callConn a) (closedCalls a) (remoteStream a)
        (remoteVideo_srcObject a) (mattes a) (matte a) (textures a) (matteTexture a)
        (meshes a) v (scene a) (isMuted a) (audioTracks a)
        (muteBtn_textContent a) (status_textContent a) (uncaught a).

Definition set_scene (v : list nat) (a : App) : App :=
  mkApp (window_SelfieSegmentation a) (callConn a) (closedCalls a) (remoteStream a)
        (remoteVideo_srcObject a) (mattes a) (matte a) (textures a) (matteTexture a)
        (meshes a) (remotePlane a) v (isMuted a) (audioTracks a)
        (muteBtn_textContent a) (status_textContent a) (uncaught a).

Definition set_isMuted (v : bool) (a : App) : App :=
  mkApp (window_SelfieSegmentation a) (callConn a) (closedCalls a) (remoteStream a)
        (remoteVideo_srcObject a) (mattes a) (matte a) (textures a) (matteTexture a)
        (meshes a) (remotePlane a) (scene a) v (audioTracks a)
        (muteBtn_textContent a) (status_textContent a) (uncaught a).

Definition set_audioTracks (v : list bool) (a : App) : App :=
  mkApp (window_SelfieSegmentation a) (callConn a) (closedCalls a) (remoteStream a)
        (remoteVideo_srcObject a) (mattes a) (matte a) (textures a) (matteTexture a)
        (meshes a) (remotePlane a) (scene a) (isMuted a) v
        (muteBtn_textContent a) (status_textContent a) (uncaught a).

Definition set_muteBtn (v : string) (a : App) : App :=
  mkApp (window_SelfieSegmentation a) (callConn a) (closedCalls a) (remoteStream a)
        (remoteVideo_srcObject a) (mattes a) (matte a) (textures a) (matteTexture a)
        (meshes a) (remotePlane a) (scene a) (isMuted a) (audioTracks a)
        v (status_textContent a) (uncaught a).

Definition set_status (v : string) (a : App) : App :=
  mkApp (window_SelfieSegmentation a) (callConn a) (closedCalls a) (remoteStream a)
        (remoteVideo_srcObject a) (mattes a) (matte a) (textures a) (matteTexture a)
        (meshes a) (remotePlane a) (scene a) (isMuted a) (audioTracks a)
        (muteBtn_textContent a) v (uncaught a).

Definition set_uncaught (v : list error) (a : App) : App :=
  mkApp (window_SelfieSegmentation a) (callConn a) (closedCalls a) (remoteStream a)
        (remoteVideo_srcObject a) (mattes a) (matte a) (textures a) (matteTexture a)
        (meshes a) (remotePlane a) (scene a) (isMuted a) (audioTracks a)
        (muteBtn_textContent a) (status_textContent a) v.

(** [store[i] = f(store[i])] *)
Fixpoint update {A} (l : list A) (i : nat) (f : A -> A) : list A :=
  match l, i with
  | [], _ => []
  | x :: rest, O => f x :: rest
  | x :: rest, S j => x :: update rest j f
  end.

(** [scene.remove(o)]: the object leaves the children, if it is among them. *)
Fixpoint remove_child (o : nat) (children : list nat) : list nat :=
  match children with
  | [] => []
  | c :: rest => if Nat.eqb c o then rest else c :: remove_child o rest
  end.

(** [log(msg)]: els.status.textContent = `status: ${msg}` *)
Definition log (msg : string) (a : App) : App :=
  set_status (String.append "status: "%string msg) a.

(** The options [attachRemote] passes: [{ modelSelection: 1 }]. *)
Definition attachOptions : OptsArg := mkOptsArg (Some 1) None None None None None.

(** [attachRemote(stream)], up to the call of [matte.start()], which
    suspends at its first [await]. *)
Definition attachRemote (stream : nat) (a : App) : App :=
  let a1 := set_remoteStream (Some stream) a in
  let a2 := set_srcObject (Some stream) a1 in
  let a3 := log "remote stream received"%string a2 in
  match new_PersonMatte (window_SelfieSegmentation a3) attachOptions with
  | Throw e => set_uncaught (ConstructorError e :: uncaught a3) a3
  | Normal m =>
      let i := length (mattes a3) in
      set_matte (Some i) (set_mattes (mattes a3 ++ [mkMatteObj (mkSession m 0 0) true]) a3)
  end.

(** The function given to [matte.start().then(...)]; it reads the variable
    [matte] when it runs.  The texture is entered in the store with its two
    flags set, the mesh with its position. *)
Definition onStarted (a : App) : error + App :=
  match matte a with
  | None => inl TypeError                         (* matte.canvas *)
  | Some i =>
      let t := length (textures a) in
      let a1 := set_matteTexture (Some t)
                  (set_textures (textures a ++ [mkTexture i true true]) a) in
      let a2 :=
        match remotePlane a1 with
        | None =>
            let p := length (meshes a1) in
            set_scene (scene a1 ++ [p])
              (set_remotePlane (Some p)
                 (set_meshes (meshes a1 ++ [mkMesh t true false (0, 0, -2)%Z false false])
                    a1))
        | Some p =>
            set_meshes (update (meshes a1) p
              (fun x => mkMesh t (material_transparent x) true (position x)
                          (geometry_disposed x) (material_disposed x))) a1
        end in
      inr (log "segmentation active"%string a2)
  end.

(** What follows the fulfilment of [matte.start()]: the function above, and
    in the second version the [.catch] behind it. *)
Definition afterStart (dv : version) (a : App) : App :=
  match onStarted a with
  | inr a' => a'
  | inl e =>
      match dv with
      | First => set_uncaught (e :: uncaught a) a
      | Second => log "segmentation failed"%string a
      end
  end.

(** The three guarded blocks of [endCall]. *)
Definition closeCall (a : App) : App :=
  match callConn a with
  | Some c => set_callConn None (set_closedCalls (c :: closedCalls a) a)
  | None => a
  end.

Definition removePlane (a : App) : App :=
  match remotePlane a with
  | Some p =>
      let a1 := set_scene (remove_child p (scene a)) a in
      let a2 := set_meshes (update (meshes a1) p
                  (fun x => mkMesh (material_map x) (material_transparent x)
                              (material_needsUpdate x) (position x) true true)) a1 in
      set_remotePlane None a2
  | None => a
  end.

Definition stopMatte (a : App) : App :=
  match matte a with
  | Some i =>
      set_matte None
        (set_mattes (update (mattes a) i
           (fun o => mkMatteObj
                       (mkSession (snd (stop (self (object o))))
                                  (queued (object o)) (suspended (object o)))
                       (waiting o))) a)
  | None => a
  end.

(** [endCall()] *)
Definition endCall (dv : version) (a : App) : App :=
  match dv with
  | First =>
      log "call ended"%string (set_matteTexture None (stopMatte (removePlane (closeCall a))))
  | Second =>
      log "call ended"%string (removePlane (set_matteTexture None (stopMatte (closeCall a))))
  end.

(** [els.muteBtn.onclick] *)
Definition muteBtn_onclick (a : App) : App :=
  let a1 := set_isMuted (negb (isMuted a)) a in
  let a2 := set_audioTracks (map (fun _ => negb (isMuted a1)) (audioTracks a1)) a1 in
  set_muteBtn (if isMuted a2 then "unmute"%string else "mute"%string) a2.

(** [readableId()]: the three values of [Math.random()] are its inputs.
    [list[i]] is [undefined] outside the list, which a template prints as
    such. *)
Definition animals : list string :=
  ["lion"; "eagle"; "mamba"; "falcon"; "manatee"; "rhino"; "lynx"; "cheetah";
   "ibis"; "heron"; "hippo"; "oryx"]%string.

Definition dune : list string :=
  ["emperor"; "arrakis"; "paul"; "mahdi"; "fremen"; "shaihulud"; "sandworm"; "chani"]%string.

Definition places : list string :=
  ["lagos"; "abuja"; "accra"; "nairobi"; "kampala"; "cairo"; "jozi"; "mombasa";
   "ibadan"; "uyo"; "benin"; "kaduna"]%string.

Definition element (l : list string) (i : Z) : string :=
  if (i <? 0)%Z then "undefined"%string
  else nth (Z.to_nat i) l "undefined"%string.

Definition decimal (n : Z) : string :=
  DecimalString.NilZero.string_of_int (Z.to_int n).

Definition template (a p : string) (n : Z) : string :=
  String.append a (String.append "-"%string (String.append p (String.append "-"%string (decimal n)))).

Definition lengthOf (l : list string) : Qc := Q2Qc (inject_Z (Z.of_nat (length l))).

Definition readableId (dv : version) (r1 r2 r3 : Qc) : error + string :=
  match dv with
  | First =>
      (* [dune] is declared, [animals] is not *)
      inl ReferenceError
  | Second =>
      let a := element animals (ToInt32 (r1 * lengthOf animals)) in
      let p := element places (ToInt32 (r2 * lengthOf places)) in
      let n := ToInt32 (r3 * (899 # 1) + (100 # 1)) in
      inr (template a p n)
  end.

(** ** The events of the page *)

Inductive appEvent :=
| Stream (stream : nat)            (* the connection's "stream" event *)
| VideoReady (i : nat) (v0 : Video) (loads : list Video)
                                   (* [start()] of matte [i] gets past its
                                      wait, runs to its end and fulfils *)
| Hangup                           (* hangupBtn, or the connection's "close" *)
| MuteClick
| OfMatte (i : nat) (e : event).   (* an event of the loop of matte [i] *)

Section Events.
Context {P : Platform}.

Definition appStep (dv : version) (ver : variant) (a : App) (e : appEvent) : option App :=
  match e with
  | Stream s => Some (attachRemote s a)
  | VideoReady i v0 loads =>
      match nth_error (mattes a) i with
      | Some o =>
          if waiting o
          then match start_session ver v0 loads (self (object o)) with
               | Some s =>
                   Some (afterStart dv
                           (set_mattes (update (mattes a) i
                                          (fun _ => mkMatteObj s false)) a))
               | None => None
               end
          else None
      | None => None
      end
  | Hangup => Some (endCall dv a)
  | MuteClick => Some (muteBtn_onclick a)
  | OfMatte i e =>
      match e with
      | EvStop => None                 (* [stop()] is called by [endCall] only *)
      | _ =>
          match nth_error (mattes a) i with
          | Some o =>
              if waiting o then None
              else match step ver (object o) e with
                   | Some s => Some (set_mattes (update (mattes a) i
                                                   (fun _ => mkMatteObj s false)) a)
                   | None => None
                   end
          | None => None
          end
      end
  end.

Fixpoint appRun (dv : version) (ver : variant) (a : App) (es : list appEvent) : option App :=
  match es with
  | [] => Some a
  | e :: rest =>
      match appStep dv ver a e with
      | Some a' => appRun dv ver a' rest
      | None => None
      end
  end.

End Events.

(** Whether [stop()] was called on matte [i]. *)
Definition stoppedAt (a : App) (i : nat) : option bool :=
  match nth_error (mattes a) i with
  | Some o => Some (_stopped (self (object o)))
  | None => None
  end.

(** A page before any call, with one audio track. *)
Definition idle : App :=
  mkApp true None [] None None [] None [] None [] None [] false [true]
        "mute"%string "status: camera+mic ready"%string [].

(** The page when the stream of a call has arrived. *)
Definition inCall : App := attachRemote 7 idle.

Definition orIdle (o : option App) : App :=
  match o with Some a => a | None => idle end.

(** The call is ended before the remote video has a picture; then the
    video gets ready. *)
Definition lateStart : App :=
  orIdle (appStep (P := tent) Second RGBThenMask (endCall Second (attachRemote 7 idle))
            (VideoReady 0 cam [])).

(** A call from its stream to its end, the video getting ready in between. *)
Definition wholeCall : list appEvent :=
  [Stream 7; VideoReady 0 cam []; OfMatte 0 (EvResults maskRes cam); MuteClick; Hangup].

End Demo.

(** Matte [i] of the page is running and no variable points to it. *)
Definition abandoned (a : Demo.App) (i : nat) : Prop :=
  Demo.stoppedAt a i = Some false /\ Demo.matte a <> Some i.

(** The scene holds the remote plane, if there is one, and nothing else. *)
Definition plane_in_scene (a : Demo.App) : Prop :=
  Demo.scene a = match Demo.remotePlane a with Some p => [p] | None => [] end.

(** * Properties *)

(** ** Arithmetic and geometry *)

Lemma Qcleb_le (x y : Qc) : Qcleb x y = true <-> x <= y.
Proof. unfold Qcleb, Qcle. apply Qle_bool_iff. Qed.

Lemma Qcltb_lt (x y : Qc) : Qcltb x y = true <-> x < y.
Proof.
  unfold Qcltb. rewrite negb_true_iff. split; intro H.
  - apply Qcnot_le_lt. intro L. apply Qcleb_le in L. congruence.
  - destruct (Qcleb y x) eqn:E; trivial.
    apply Qcleb_le in E. exfalso. exact (Qclt_not_le _ _ H E).
Qed.

Lemma Qn_nonzero (n : N) : n <> 0%N -> Qn n <> 0.
Proof.
  intros Hn E. apply Hn. unfold Qn in E. apply Q2Qc_eq_iff in E.
  unfold Qeq in E. cbn in E. lia.
Qed.

Lemma place_same_size (w h : Qc) (f : raster) (u v : Qc) :
  w <> 0 -> h <> 0 ->
  place w h f 0 0 w h u v = if in_rect 0 0 w h u v then f u v else transparent.
Proof.
  intros Hw Hh. unfold place. destruct (in_rect 0 0 w h u v); trivial.
  replace ((u - 0) * w / w) with u by (field; assumption).
  replace ((v - 0) * h / h) with v by (field; assumption).
  reflexivity.
Qed.

Lemma nonzero_dims (c : Canvas) :
  nonzero c = true -> ((width c =? 0) || (height c =? 0))%N = false.
Proof. unfold nonzero. now rewrite negb_true_iff. Qed.

(** Symbolic execution of the monadic code: unfold the API, keep the
    arithmetic and the image algebra folded. *)
Ltac unfold_api :=
  unfold bind, gets, save, clearRect, set_globalCompositeOperation,
    set_globalAlpha, set_filter, restore, drawImage_at, drawImage, modifyC,
    modify, ret, throw.

Ltac crunch :=
  cbn -[Qn Qcplus Qcmult Qcminus Qcdiv Qcopp Qcinv Qcleb Qcltb in_rect blur place
        Q2Qc scale_s canvas_pixels inb composite_px px_scale px_add two
        Math_min Math_max divide ToInt32 Z.rem Z.add Z.ltb Z.eqb Z.max
        N.eqb Z.leb].

Ltac crunch_px :=
  repeat (progress (unfold inb, paint, with_context, with_bitmap, canvas_pixels;
                    cbn [width height bitmap context saved globalAlpha filter
                         globalCompositeOperation fst snd])).

Ltac split_ifs :=
  repeat match goal with
  | |- context [if ?b then _ else _] =>
      match b with
      | context [in_rect] => fail 1
      | context [inb] => fail 1
      | _ => destruct b eqn:?; crunch
      end
  end.

Section Frame.
Context {P : Platform}.

Lemma _composite_frame (ver : variant) (img : option ExtImage) (v : Video) (m : PersonMatte) :
  nonzero (canvas m) = true -> nonzero (_maskNice m) = true ->
  exists b, _composite ver img v m = (Normal tt, setC Out (with_bitmap (canvas m) b) m).
Proof.
  intros Hc Hn. apply nonzero_dims in Hc, Hn.
  destruct m as [o c r n s st f]. cbn [canvas _maskNice] in *.
  destruct c as [cw ch cx csv cb], n as [nw nh nx nsv nb]. cbn [width height] in *.
  destruct ver; unfold _composite, _composite_MaskThenRGB, _composite_RGBThenMask;
    unfold_api; crunch; rewrite ?Hn, ?Hc; crunch;
    destruct (imageOr img v) as [v'|b']; crunch;
    split_ifs; first [congruence | eexists; reflexivity].
Qed.

End Frame.

(** ** Pixel algebra *)

Lemma pixel_eq (p q : pixel) :
  red p = red q -> green p = green q -> blue p = blue q -> alpha p = alpha q ->
  p = q.
Proof. destruct p, q; cbn; intros; subst; reflexivity. Qed.

Lemma px_scale_1 (p : pixel) : px_scale 1 p = p.
Proof. apply pixel_eq; cbn; ring. Qed.

Lemma px_scale_0 (p : pixel) : px_scale 0 p = transparent.
Proof. apply pixel_eq; cbn; ring. Qed.

Lemma px_scale_transparent (k : Qc) : px_scale k transparent = transparent.
Proof. apply pixel_eq; cbn; ring. Qed.

Lemma over_transparent_r (s : pixel) : over s transparent = s.
Proof. apply pixel_eq; cbn; ring. Qed.

Lemma over_transparent_l (d : pixel) : over transparent d = d.
Proof. apply pixel_eq; cbn; ring. Qed.

Section Blur.
Context {P : Platform}.

Lemma blur_ext (r : Qc) (f g : raster) :
  img_eq f g -> img_eq (blur r f) (blur r g).
Proof.
  intros E u v. unfold blur.
  induction (kernel r) as [|t l IH]; cbn; [reflexivity|].
  now rewrite IH, E.
Qed.

(** Blurring cannot create opacity out of nothing. *)
Lemma blur_alpha_zero (r : Qc) (f : raster) :
  (forall u v, alpha (f u v) = 0) -> forall u v, alpha (blur r f u v) = 0.
Proof.
  intros Z u v. unfold blur.
  induction (kernel r) as [|t l IH]; cbn; [reflexivity|].
  rewrite IH, Z. ring.
Qed.

Lemma blur_transparent (r : Qc) (f : raster) :
  (forall u v, f u v = transparent) -> forall u v, blur r f u v = transparent.
Proof.
  intros Z u v. unfold blur.
  induction (kernel r) as [|t l IH]; cbn; [reflexivity|].
  rewrite IH, Z. apply pixel_eq; cbn; ring.
Qed.

End Blur.

(** ** Drawing a canvas at its own size *)

Lemma same_size_eq (a b : Canvas) :
  same_size a b = true -> width a = width b /\ height a = height b.
Proof.
  unfold same_size. rewrite andb_true_iff, !N.eqb_eq. trivial.
Qed.

Lemma nonzero_Qn (c : Canvas) :
  nonzero c = true -> Qn (width c) <> 0 /\ Qn (height c) <> 0.
Proof.
  intro H. apply nonzero_dims in H. apply orb_false_iff in H.
  destruct H as [Hw Hh]. apply N.eqb_neq in Hw, Hh.
  split; now apply Qn_nonzero.
Qed.

Lemma place_canvas (c : Canvas) (u v : Qc) :
  nonzero c = true ->
  place (Qn (width c)) (Qn (height c)) (canvas_pixels c) 0 0
        (Qn (width c)) (Qn (height c)) u v
  = canvas_pixels c u v.
Proof.
  intro H. destruct (nonzero_Qn c H) as [Hw Hh].
  rewrite place_same_size by assumption.
  unfold canvas_pixels, inb. now destruct (in_rect _ _ _ _ u v).
Qed.

(** ** What [_composite] leaves in the output buffer *)

Section Compositor.
Context {P : Platform}.

Lemma composite_RGBThenMask_px (img : option ExtImage) (v : Video) (m : PersonMatte) :
  nonzero (canvas m) = true -> nonzero (_maskNice m) = true ->
  same_size (_maskNice m) (canvas m) = true ->
  plain (context (canvas m)) ->
  has_frame (imageOr img v) = true ->
  forall x y, inb (canvas m) x y = true ->
  bitmap (canvas (snd (_composite RGBThenMask img v m))) x y
  = spec_composite (4 # 10) (opts m) (width (canvas m)) (height (canvas m))
      (imageOr img v) (bitmap (_maskNice m)) x y.
Proof.
  intros Hc Hn Hs [Ha Hf] Hfr x y Hin.
  destruct (same_size_eq _ _ Hs) as [Ew Eh].
  pose proof (nonzero_dims _ Hc) as Hc0. pose proof (nonzero_dims _ Hn) as Hn0.
  destruct m as [o c r n s st f]. cbn [canvas _maskNice opts] in *.
  destruct c as [cw ch cx csv cb], n as [nw nh nx nsv nb].
  destruct cx as [cop ca cf].
  cbn [width height context globalAlpha filter] in *. subst nw nh ca cf.
  unfold _composite, _composite_RGBThenMask; unfold_api; crunch.
  destruct (nonzero_Qn _ Hc) as [Qw Qh]. cbn [width height] in Qw, Qh.
  unfold inb in Hin. cbn [width height] in Hin.
  unfold spec_composite, scaled_frame, centred_rect.
  change (Math_min 1 (Math_max (97 # 100) (rgbScale o))) with (scale_s o).
  destruct (imageOr img v) as [v'|b']; cbn [has_frame] in Hfr;
    apply negb_true_iff in Hfr; rewrite Hfr; crunch; rewrite Hn0; crunch;
    cbn [frame_size frame_pixels fst snd];
    (destruct (Qcltb (2 # 10) (featherPx o)); crunch; rewrite ?Hc0; crunch; crunch_px;
      rewrite ?Hin; unfold composite_px, blank; rewrite ?px_scale_1;
      [ match goal with
        | |- over (blur ?r ?L x y) _ = over (blur _ ?R x y) _ =>
            assert (HB : img_eq (blur r L) (blur r R))
        end;
        [ apply blur_ext; intros u w; rewrite place_same_size by assumption; unfold clip;
          destruct (in_rect 0 0 (Qn cw) (Qn ch) u w) eqn:E; trivial;
          rewrite ?px_scale_1, place_same_size by assumption; rewrite E; reflexivity
        | rewrite (HB x y); rewrite place_same_size by assumption; rewrite Hin; reflexivity ]
      | rewrite !place_same_size by assumption; rewrite Hin; reflexivity ]).
Qed.

Lemma composite_MaskThenRGB_px (img : option ExtImage) (v : Video) (m : PersonMatte) :
  nonzero (canvas m) = true -> nonzero (_maskNice m) = true ->
  same_size (_maskNice m) (canvas m) = true ->
  plain (context (canvas m)) ->
  has_frame (imageOr img v) = true ->
  forall x y, inb (canvas m) x y = true ->
  bitmap (canvas (snd (_composite MaskThenRGB img v m))) x y
  = mask_first_composite (6 # 10) (opts m) (width (canvas m)) (height (canvas m))
      (imageOr img v) (bitmap (_maskNice m)) x y.
Proof.
  intros Hc Hn Hs [Ha Hf] Hfr x y Hin.
  destruct (same_size_eq _ _ Hs) as [Ew Eh].
  pose proof (nonzero_dims _ Hc) as Hc0. pose proof (nonzero_dims _ Hn) as Hn0.
  destruct m as [o c r n s st f]. cbn [canvas _maskNice opts] in *.
  destruct c as [cw ch cx csv cb], n as [nw nh nx nsv nb].
  destruct cx as [cop ca cf].
  cbn [width height context globalAlpha filter] in *. subst nw nh ca cf.
  unfold _composite, _composite_MaskThenRGB; unfold_api; crunch.
  destruct (nonzero_Qn _ Hc) as [Qw Qh]. cbn [width height] in Qw, Qh.
  unfold inb in Hin. cbn [width height] in Hin.
  unfold mask_first_composite, matte, scaled_frame, centred_rect.
  change (Math_min 1 (Math_max (97 # 100) (rgbScale o))) with (scale_s o).
  rewrite Hn0; crunch.
  destruct (Qcltb (2 # 10) (featherPx o)); crunch; rewrite ?Hc0; crunch;
    (destruct (imageOr img v) as [v'|b']; cbn [has_frame] in Hfr;
     apply negb_true_iff in Hfr; rewrite Hfr; crunch;
     cbn [frame_size frame_pixels fst snd]; crunch_px; rewrite ?Hin;
     unfold composite_px, blank; rewrite ?px_scale_1, ?over_transparent_r;
     rewrite ?place_same_size by assumption; rewrite ?Hin; trivial).
  all: match goal with
       | |- context [blur ?r ?L ?X ?Y] =>
           match goal with
           | |- _ = px_scale (alpha (over (blur _ ?R X Y) _)) _ =>
               assert (HB : img_eq (blur r L) (blur r R))
           end
       end;
       [ apply blur_ext; intros u w; rewrite place_same_size by assumption; unfold clip;
         destruct (in_rect 0 0 (Qn cw) (Qn ch) u w) eqn:E; trivial;
         rewrite ?px_scale_1, place_same_size by assumption; rewrite E;
         apply over_transparent_r
       | rewrite HB; reflexivity ].
Qed.

End Compositor.

(** ** The blocks of [_onResults] *)

Section Blocks.
Context {P : Platform}.

Lemma stable_refl (m : PersonMatte) : stable m m.
Proof. unfold stable; tauto. Qed.

Lemma stable_trans (a b c : PersonMatte) : stable a b -> stable b c -> stable a c.
Proof.
  unfold stable. intros (A1 & A2 & A3 & A4 & (A5 & A6) & (A7 & A8) & A9 & A10)
    (B1 & B2 & B3 & B4 & (B5 & B6) & (B7 & B8) & B9 & B10).
  repeat split; congruence.
Qed.

Lemma stable_sized (m m' : PersonMatte) : stable m m' -> sized m = true -> sized m' = true.
Proof.
  unfold stable, sized, nonzero.
  intros (_ & -> & _ & _ & (-> & ->) & (-> & ->) & -> & ->). trivial.
Qed.

Lemma stable_coherent (m m' : PersonMatte) :
  stable m m' -> coherent m = true -> coherent m' = true.
Proof.
  unfold stable, coherent, sized, nonzero, same_size.
  intros (_ & -> & _ & _ & (-> & ->) & (-> & ->) & -> & ->). trivial.
Qed.

Ltac open_object m :=
  let o := fresh "o" in let c := fresh "c" in let r := fresh "r" in
  let n := fresh "n" in let s := fresh "s" in let st := fresh "st" in
  let f := fresh "f" in
  destruct m as [o c r n s st f];
  destruct c as [? ? ? ? ?], r as [? ? ? ? ?], n as [? ? ? ? ?], s as [? ? ? ? ?].

Lemma sized_dims (m : PersonMatte) :
  sized m = true ->
  ((width (canvas m) =? 0) || (height (canvas m) =? 0))%N = false /\
  ((width (_maskRaw m) =? 0) || (height (_maskRaw m) =? 0))%N = false /\
  ((width (_maskNice m) =? 0) || (height (_maskNice m) =? 0))%N = false /\
  ((width (_scratch m) =? 0) || (height (_scratch m) =? 0))%N = false.
Proof.
  unfold sized. rewrite !andb_true_iff. intros [[[A B] C] D].
  auto using nonzero_dims.
Qed.

Lemma copyRawMask_frame (r : Results) (w h : Qc) (m : PersonMatte) :
  exists m', copyRawMask r w h m = (Normal tt, m') /\ stable m m' /\
             _maskNice m' = _maskNice m /\ _scratch m' = _scratch m.
Proof.
  open_object m. unfold copyRawMask; unfold_api; crunch.
  split_ifs; (eexists; split; [reflexivity|]); unfold stable; cbn; tauto.
Qed.

Lemma emaSmooth_frame (w h : Qc) (m : PersonMatte) :
  sized m = true ->
  exists m', emaSmooth w h m = (Normal tt, m') /\ stable m m' /\
             _maskRaw m' = _maskRaw m.
Proof.
  intro Hs. destruct (sized_dims m Hs) as (Hc & Hr & Hn & Hsc).
  open_object m. cbn [canvas _maskRaw _maskNice _scratch width height] in *.
  unfold emaSmooth; unfold_api; crunch. rewrite ?Hn; crunch.
  split_ifs; rewrite ?Hsc; crunch; split_ifs; rewrite ?Hr; crunch;
    try congruence;
    (eexists; split; [reflexivity|]); unfold stable; cbn; tauto.
Qed.

Lemma featherDilate_frame (w h : Qc) (m : PersonMatte) :
  sized m = true ->
  exists m', featherDilate w h m = (Normal tt, m') /\ stable m m' /\
             _maskRaw m' = _maskRaw m /\ _scratch m' = _scratch m.
Proof.
  intro Hs. destruct (sized_dims m Hs) as (Hc & Hr & Hn & Hsc).
  open_object m. cbn [canvas _maskRaw _maskNice _scratch width height] in *.
  unfold featherDilate; unfold_api; crunch.
  split_ifs; rewrite ?Hn; crunch; try congruence;
    (eexists; split; [reflexivity|]); unfold stable; cbn; tauto.
Qed.

End Blocks.

(** ** Handlers *)

Section Handlers.
Context {P : Platform}.

(** [_composite] returns normally and writes the bitmap of the output
    canvas, nothing else. *)
Lemma composite_repaints (ver : variant) (img : option ExtImage) (v : Video) (m : PersonMatte) :
  sized m = true ->
  exists b, _composite ver img v m = (Normal tt, setC Out (with_bitmap (canvas m) b) m).
Proof.
  unfold sized. rewrite !andb_true_iff. intros [[[A B] C] D].
  now apply _composite_frame.
Qed.

Lemma repaint_sized (m : PersonMatte) (b : raster) :
  sized (setC Out (with_bitmap (canvas m) b) m) = sized m.
Proof. reflexivity. Qed.

Lemma onResults_runs (ver : variant) (r : Results) (v : Video) (m : PersonMatte) :
  sized m = true ->
  exists m1 b,
    stable m m1 /\
    _composite ver (image r) v m1 = (Normal tt, setC Out (with_bitmap (canvas m1) b) m1) /\
    _onResults ver r v m = (Normal tt, setC Out (with_bitmap (canvas m1) b) m1).
Proof.
  intro Hs.
  set (w := Qn (width (canvas m))). set (h := Qn (height (canvas m))).
  destruct (copyRawMask_frame r w h m) as (ma & Ea & Sa & _).
  pose proof (stable_sized _ _ Sa Hs) as Hsa.
  destruct (emaSmooth_frame w h ma Hsa) as (mb & Eb & Sb & _).
  pose proof (stable_sized _ _ Sb Hsa) as Hsb.
  destruct (featherDilate_frame w h mb Hsb) as (mc & Ec & Sc & _).
  pose proof (stable_sized _ _ Sc Hsb) as Hsc.
  destruct (composite_repaints ver (image r) v mc Hsc) as (b & Eb').
  exists mc, b. split; [eauto using stable_trans|]. split; [assumption|].
  unfold _onResults, bind, gets. fold w h.
  now rewrite Ea, Eb, Ec.
Qed.

(** One tick of a running session. *)
Lemma tick_runs (ver : variant) (v : Video) (o : outcome) (m : PersonMatte) :
  sized m = true -> _stopped m = false ->
  let req := negb (skips (opts m) (_frame m)) in
  exists m',
    tick ver v o m = (Normal (req, Scheduled), m') /\
    sized m' = true /\ _stopped m' = false /\ _frame m' = (_frame m + 1)%Z /\
    opts m' = opts m /\
    composited ver (tick_image (v, o) req) m' /\
    (req = false \/ (exists v', o = Rejected v') ->
     _maskRaw m' = _maskRaw m /\ _maskNice m' = _maskNice m /\ _scratch m' = _scratch m).
Proof.
  intros Hs Hst req.
  set (m1 := next_frame m).
  assert (Hs1 : sized m1 = true) by exact Hs.
  assert (Enter : _tick_enter ver v m =
                  if skips (opts m) (_frame m)
                  then (let (c, m') := _composite ver (Some (ImgVideo v)) v m1 in
                        match c with Normal _ => (Normal Scheduled, m') | Throw e => (Throw e, m') end)
                  else (Normal Awaiting, m1)).
  { unfold _tick_enter, bind, gets, incr_frame, modify, ret, skips. rewrite Hst.
    fold m1. cbn [opts _frame next_frame m1].
    destruct ((1 <? divide (opts m))%Z && negb (Z.rem (_frame m + 1) (divide (opts m)) =? 0)%Z);
      reflexivity. }
  unfold tick, bind. rewrite Enter. subst req.
  destruct (skips (opts m) (_frame m)) eqn:Sk; cbn [negb].
  - destruct (composite_repaints ver (Some (ImgVideo v)) v m1 Hs1) as (b & Eb).
    rewrite Eb. eexists. split; [reflexivity|].
    repeat apply conj; try assumption; try reflexivity.
    + exists m1. cbn [tick_image fst snd]. split; [exact Eb | reflexivity].
    + intros _. repeat apply conj; reflexivity.
  - destruct o as [r v'|v'].
    + destruct (onResults_runs ver r v' m1 Hs1) as (m2 & b & St & Ec & Er).
      rewrite Er. unfold _tick_fulfilled, ret. eexists. split; [reflexivity|].
      pose proof (stable_sized _ _ St Hs1) as Hs2.
      destruct St as (S1 & S2 & S3 & S4 & _).
      repeat apply conj; try assumption; cbn; try congruence.
      * rewrite S3. exact Hst.
      * exists m2. cbn [tick_image fst snd]. split; [exact Ec | reflexivity].
      * intros [F | [v'' F]]; discriminate.
    + unfold _tick_rejected, bind, ret.
      destruct (composite_repaints ver (Some (ImgVideo v')) v' m1 Hs1) as (b & Eb).
      rewrite Eb. eexists. split; [reflexivity|].
      repeat apply conj; try assumption; try reflexivity.
      * exists m1. cbn [tick_image fst snd]. split; [exact Eb | reflexivity].
      * intros _. repeat apply conj; reflexivity.
Qed.

End Handlers.

(** ** Decimation *)

Lemma ToInt32_Z (k : Z) :
  (- 2 ^ 31 <= k < 2 ^ 31)%Z -> ToInt32 (Q2Qc (inject_Z k)) = k.
Proof.
  intro Hk. unfold ToInt32, Qtrunc, Qcleb.
  assert (E : (this (Q2Qc (inject_Z k)) == inject_Z k)%Q) by apply Qred_correct.
  assert (T : (if Qle_bool (this 0) (this (Q2Qc (inject_Z k)))
               then Qfloor (this (Q2Qc (inject_Z k)))
               else Qceiling (this (Q2Qc (inject_Z k)))) = k).
  { destruct (Qle_bool _ _).
    - rewrite (Qfloor_comp _ _ E). apply Qfloor_Z.
    - rewrite (Qceiling_comp _ _ E). apply Qceiling_Z. }
  rewrite T.
  replace ((k + 2 ^ 31) mod 2 ^ 32)%Z with (k + 2 ^ 31)%Z; [lia|].
  symmetry. apply Z.mod_small. lia.
Qed.

Lemma divide_Z (o : Opts) (k : Z) :
  (1 <= k < 2 ^ 31)%Z -> depthFpsDivider o = Q2Qc (inject_Z k) -> divide o = k.
Proof.
  intros Hk E. unfold divide. rewrite E, ToInt32_Z by lia. lia.
Qed.


Section Decimation.
Context {P : Platform}.



End Decimation.



(** ** Ticks that keep the mask *)

Section StaleTicks.
Context {P : Platform}.

Lemma tick_without_mask (ver : variant) (v : Video) (o : outcome) (m : PersonMatte) :
  sized m = true -> _stopped m = false ->
  skips (opts m) (_frame m) = true \/ (exists v', o = Rejected v') ->
  let live := live_video v o (skips (opts m) (_frame m)) in
  exists b,
    _composite ver (Some (ImgVideo live)) live (next_frame m)
    = (Normal tt, setC Out (with_bitmap (canvas m) b) (next_frame m)) /\
    tick ver v o m
    = (Normal (negb (skips (opts m) (_frame m)), Scheduled),
       setC Out (with_bitmap (canvas m) b) (next_frame m)).
Proof.
  intros Hs Hst Hcase live.
  assert (Hs1 : sized (next_frame m) = true) by exact Hs.
  destruct (composite_repaints ver (Some (ImgVideo live)) live (next_frame m) Hs1)
    as (b & Eb).
  exists b. split; [exact Eb|].
  unfold tick, _tick_enter, bind, gets, incr_frame, modify, ret. rewrite Hst.
  fold (skips (opts m) (_frame m)).
  change (divide (opts (next_frame m))) with (divide (opts m)).
  change (_frame (next_frame m)) with (_frame m + 1)%Z.
  fold (skips (opts m) (_frame m)).
  subst live. unfold live_video in *.
  destruct (skips (opts m) (_frame m)) eqn:Sk.
  - cbn [negb]. unfold bind in Eb. now rewrite Eb.
  - destruct Hcase as [F | [v' ->]]; [discriminate|].
    cbn [negb]. unfold _tick_rejected, bind, ret. now rewrite Eb.
Qed.

Lemma coherent_parts (m : PersonMatte) :
  coherent m = true ->
  sized m = true /\ nonzero (canvas m) = true /\ nonzero (_maskNice m) = true /\
  same_size (_maskNice m) (canvas m) = true.
Proof.
  unfold coherent, sized. rewrite !andb_true_iff. tauto.
Qed.

Lemma composite_px_law (ver : variant) (img : option ExtImage) (v : Video) (m : PersonMatte) :
  coherent m = true -> plain (context (canvas m)) ->
  has_frame (imageOr img v) = true ->
  forall x y, inb (canvas m) x y = true ->
  bitmap (canvas (snd (_composite ver img v m))) x y
  = composite_law ver (opts m) (width (canvas m)) (height (canvas m))
      (imageOr img v) (bitmap (_maskNice m)) x y.
Proof.
  intros Hc Hp Hf x y Hin. destruct (coherent_parts m Hc) as (_ & A & B & C).
  destruct ver; cbn [composite_law].
  - now apply composite_MaskThenRGB_px.
  - now apply composite_RGBThenMask_px.
Qed.


End StaleTicks.


(** ** The order of the compositing steps *)


(** ** Masking *)

Section Masking.
Context {P : Platform}.

(** Without a drawable frame the RGB-then-mask version leaves the buffer
    clear, the mask-first version leaves its softened mask. *)
Lemma composite_noframe_px (ver : variant) (img : option ExtImage) (v : Video) (m : PersonMatte) :
  coherent m = true -> plain (context (canvas m)) ->
  has_frame (imageOr img v) = false ->
  forall x y, inb (canvas m) x y = true ->
  bitmap (canvas (snd (_composite ver img v m))) x y
  = match ver with
    | RGBThenMask => transparent
    | MaskThenRGB =>
        matte (6 # 10) (opts m) (width (canvas m)) (height (canvas m))
              (bitmap (_maskNice m)) x y
    end.
Proof.
  intros Hco [Ha Hf] Hfr x y Hin.
  destruct (coherent_parts m Hco) as (_ & Hc & Hn & Hs).
  destruct (same_size_eq _ _ Hs) as [Ew Eh].
  pose proof (nonzero_dims _ Hc) as Hc0. pose proof (nonzero_dims _ Hn) as Hn0.
  destruct m as [o c r n s st f]. cbn [canvas _maskNice opts] in *.
  destruct c as [cw ch cx csv cb], n as [nw nh nx nsv nb].
  destruct cx as [cop ca cf].
  cbn [width height context globalAlpha filter] in *. subst nw nh ca cf.
  destruct (nonzero_Qn _ Hc) as [Qw Qh]. cbn [width height] in Qw, Qh.
  unfold inb in Hin. cbn [width height] in Hin.
  clear Hco Hc Hn Hs.
  destruct ver; unfold _composite, _composite_MaskThenRGB, _composite_RGBThenMask, matte;
    unfold_api; crunch; rewrite ?Hn0; crunch.
  - destruct (Qcltb (2 # 10) (featherPx o)); crunch; rewrite ?Hc0; crunch;
      (destruct (imageOr img v) as [v'|b']; cbn [has_frame] in Hfr;
       apply negb_false_iff in Hfr; rewrite Hfr; crunch; crunch_px; rewrite ?Hin;
       unfold composite_px, blank; rewrite ?px_scale_1, ?over_transparent_r;
       rewrite ?place_same_size by assumption; rewrite ?Hin; trivial).
    all: match goal with
         | |- over (blur ?r ?L ?X ?Y) _ = over (blur _ ?R ?X ?Y) _ =>
             assert (HB : img_eq (blur r L) (blur r R))
         end;
         [ apply blur_ext; intros u w; rewrite place_same_size by assumption; unfold clip;
           destruct (in_rect 0 0 (Qn cw) (Qn ch) u w) eqn:E; trivial;
           rewrite ?px_scale_1, place_same_size by assumption; rewrite E;
           apply over_transparent_r
         | rewrite HB; reflexivity ].
  - destruct (imageOr img v) as [v'|b']; cbn [has_frame] in Hfr;
      apply negb_false_iff in Hfr; rewrite Hfr; crunch; rewrite ?Hn0; crunch;
      (destruct (Qcltb (2 # 10) (featherPx o)); crunch; rewrite ?Hc0; crunch; crunch_px;
       rewrite ?Hin; unfold composite_px, blank;
       rewrite ?px_scale_1, ?px_scale_transparent; trivial).
    all: rewrite blur_transparent; [apply over_transparent_r|];
      intros u w; rewrite place_same_size by assumption;
      destruct (in_rect 0 0 (Qn cw) (Qn ch) u w); trivial;
      apply px_scale_transparent.
Qed.

Lemma inb_same_size (a b : Canvas) (x y : Qc) :
  same_size a b = true -> inb a x y = inb b x y.
Proof.
  intro H. destruct (same_size_eq _ _ H) as [Ew Eh]. unfold inb. now rewrite Ew, Eh.
Qed.

Lemma matte_alpha_zero (c : Qc) (o : Opts) (w h : N) (shaped : raster) :
  (forall x y, in_rect 0 0 (Qn w) (Qn h) x y = true -> alpha (shaped x y) = 0) ->
  forall x y, in_rect 0 0 (Qn w) (Qn h) x y = true ->
  alpha (matte c o w h shaped x y) = 0.
Proof.
  intros Z x y Hin. unfold matte.
  destruct (Qcltb (2 # 10) (featherPx o)); [|now apply Z].
  unfold over. cbn [px_add px_scale alpha].
  rewrite blur_alpha_zero, (Z x y Hin); [ring|].
  intros u v. unfold clip.
  destruct (in_rect 0 0 (Qn w) (Qn h) u v) eqn:E; [now apply Z | reflexivity].
Qed.

Lemma spec_composite_zero (c : Qc) (o : Opts) (w h : N) (frame : ExtImage) (shaped : raster) :
  (forall x y, in_rect 0 0 (Qn w) (Qn h) x y = true -> alpha (shaped x y) = 0) ->
  forall x y, in_rect 0 0 (Qn w) (Qn h) x y = true ->
  spec_composite c o w h frame shaped x y = transparent.
Proof.
  intros Z x y Hin. unfold spec_composite.
  destruct (Qcltb (2 # 10) (featherPx o)).
  - rewrite blur_transparent.
    + rewrite (Z x y Hin), px_scale_0. apply over_transparent_r.
    + intros u v. unfold clip.
      destruct (in_rect 0 0 (Qn w) (Qn h) u v) eqn:E; [|reflexivity].
      rewrite (Z u v E). apply px_scale_0.
  - rewrite (Z x y Hin). apply px_scale_0.
Qed.

(** C4: (1) if the shaped mask is zero all over the buffer, a composite
    leaves every pixel of the output with alpha 0, whatever the frame (and
    whether or not there is one); (2) if the shaped mask is at its maximum
    all over the buffer and featherPx = dilatePx = 0, then for a video frame
    the output is opaque exactly on the rectangle of size (w s, h s) centred
    in the buffer, s = clamp(rgbScale, 0.97, 1), and clear outside it. *)
Theorem masking_correctness (ver : variant) (img : option ExtImage) (v : Video) (m : PersonMatte) :
  coherent m = true -> plain (context (canvas m)) ->
  ((forall x y, inb (_maskNice m) x y = true -> alpha (bitmap (_maskNice m) x y) = 0) ->
   forall x y, inb (canvas m) x y = true ->
     alpha (bitmap (canvas (snd (_composite ver img v m))) x y) = 0)
  /\
  (forall fv, imageOr img v = ImgVideo fv -> has_frame (ImgVideo fv) = true ->
   (forall x y, inb (_maskNice m) x y = true -> alpha (bitmap (_maskNice m) x y) = 1) ->
   featherPx (opts m) = 0 -> dilatePx (opts m) = 0 ->
   forall x y, inb (canvas m) x y = true ->
     let '(rx, ry, rw, rh) :=
       centred_rect (opts m) (width (canvas m)) (height (canvas m)) in
     (alpha (bitmap (canvas (snd (_composite ver img v m))) x y) = 1
      <-> in_rect rx ry rw rh x y = true) /\
     (in_rect rx ry rw rh x y = false ->
      bitmap (canvas (snd (_composite ver img v m))) x y = transparent)).
Proof.
  intros Hco Hp. destruct (coherent_parts m Hco) as (_ & _ & _ & Hs). split.
  - intros Z x y Hin.
    assert (Z' : forall x y,
               in_rect 0 0 (Qn (width (canvas m))) (Qn (height (canvas m))) x y = true ->
               alpha (bitmap (_maskNice m) x y) = 0).
    { intros u w E. apply Z. rewrite (inb_same_size _ _ u w Hs). exact E. }
    destruct (has_frame (imageOr img v)) eqn:Hf.
    + rewrite (composite_px_law ver img v m Hco Hp Hf x y Hin).
      destruct ver; cbn [composite_law].
      * unfold mask_first_composite. cbn [px_scale alpha].
        rewrite (matte_alpha_zero _ _ _ _ _ Z' x y Hin). ring.
      * now rewrite (spec_composite_zero _ _ _ _ _ _ Z' x y Hin).
    + rewrite (composite_noframe_px ver img v m Hco Hp Hf x y Hin).
      destruct ver; [|reflexivity].
      exact (matte_alpha_zero _ _ _ _ _ Z' x y Hin).
  - intros fv Ei Hf Full Hfe _ x y Hin.
    assert (Hf' : has_frame (imageOr img v) = true) by now rewrite Ei.
    assert (Full' : alpha (bitmap (_maskNice m) x y) = 1).
    { apply Full. rewrite (inb_same_size _ _ x y Hs). exact Hin. }
    assert (E : bitmap (canvas (snd (_composite ver img v m))) x y
                = scaled_frame (opts m) (width (canvas m)) (height (canvas m))
                    (ImgVideo fv) x y).
    { rewrite (composite_px_law ver img v m Hco Hp Hf' x y Hin), Ei.
      destruct ver; cbn [composite_law];
        unfold mask_first_composite, matte, spec_composite; rewrite Hfe;
        change (Qcltb (2 # 10) 0) with false; cbv iota beta zeta; rewrite Full';
        unfold composite_px; apply px_scale_1. }
    rewrite E. unfold scaled_frame.
    destruct (centred_rect (opts m) (width (canvas m)) (height (canvas m)))
      as [[[rx ry] rw] rh].
    unfold place. destruct (in_rect rx ry rw rh x y).
    + split; [|discriminate]. split; trivial.
    + split; [|reflexivity]. split; [|discriminate].
      cbn [alpha transparent]. intro F. symmetry in F. now apply Q_apart_0_1 in F.
Qed.

End Masking.

Lemma masking_correctness_witness :
  (coherent (started sharp) = true /\ plain (context (canvas (started sharp))) /\
   forall x y, inb (canvas (started sharp)) x y = true ->
     alpha (bitmap (canvas (snd (_composite (P := tent) MaskThenRGB None cam
                                   (started sharp)))) x y) = 0)
  /\
  (coherent fullMask = true /\ plain (context (canvas fullMask)) /\
   has_frame (ImgVideo cam) = true /\
   featherPx (opts fullMask) = 0 /\ dilatePx (opts fullMask) = 0 /\
   forall x y, inb (canvas fullMask) x y = true ->
     let '(rx, ry, rw, rh) :=
       centred_rect (opts fullMask) (width (canvas fullMask)) (height (canvas fullMask)) in
     (alpha (bitmap (canvas (snd (_composite (P := tent) RGBThenMask None cam
                                    fullMask))) x y) = 1
      <-> in_rect rx ry rw rh x y = true) /\
     (in_rect rx ry rw rh x y = false ->
      bitmap (canvas (snd (_composite (P := tent) RGBThenMask None cam fullMask))) x y
      = transparent)).
Proof.
  assert (P0 : plain defaultContext) by (split; reflexivity).
  split.
  - split; [reflexivity|]. split; [exact P0|].
    apply (proj1 (masking_correctness (P := tent) MaskThenRGB None cam
                    (started sharp) eq_refl P0)).
    intros x y _. reflexivity.
  - split; [reflexivity|]. split; [exact P0|]. split; [reflexivity|].
    split; [reflexivity|]. split; [reflexivity|].
    apply (proj2 (masking_correctness (P := tent) RGBThenMask None cam
                    fullMask eq_refl P0) cam eq_refl eq_refl);
      [intros x y _; reflexivity | reflexivity | reflexivity].
Defined.

(** ** Smoothing and shaping *)

Lemma alpha_in_range (a : Qc) :
  0 <= a <= 1 -> Qcleb 0 a && Qcleb a 1 = true.
Proof.
  intros [A0 A1]. apply andb_true_iff. split; now apply Qcleb_le.
Qed.

Lemma one_minus_in_range (a : Qc) :
  0 <= a <= 1 -> Qcleb 0 (1 - a) && Qcleb (1 - a) 1 = true.
Proof.
  intros [A0 A1]. apply alpha_in_range. split.
  - apply Qcle_minus_iff in A1. exact A1.
  - apply Qcle_minus_iff. replace (1 + - (1 - a)) with a by ring. exact A0.
Qed.

Section Smoother.
Context {P : Platform}.

Lemma emaSmooth_px (m : PersonMatte) :
  coherent m = true ->
  plain (context (_scratch m)) ->
  globalCompositeOperation (context (_maskNice m)) = SourceOver ->
  filter (context (_maskNice m)) = None ->
  0 <= emaAlpha (opts m) <= 1 ->
  exists m',
    emaSmooth (Qn (width (canvas m))) (Qn (height (canvas m))) m = (Normal tt, m') /\
    context (_maskNice m') = defaultContext /\
    plain (context (_scratch m')) /\
    forall x y, inb (_maskNice m) x y = true ->
      bitmap (_maskNice m') x y
      = ema_code (emaAlpha (opts m)) (bitmap (_maskNice m) x y) (bitmap (_maskRaw m) x y)
      /\ bitmap (_scratch m') x y = bitmap (_maskNice m) x y.
Proof.
  intros Hco [Sa Sf] Ng Nf Ha.
  pose proof (alpha_in_range _ Ha) as T1. pose proof (one_minus_in_range _ Ha) as T2.
  unfold coherent in Hco. rewrite !andb_true_iff in Hco.
  destruct Hco as [[[Hs Hr] Hn] Hsc].
  destruct (sized_dims m Hs) as (Hc0 & Hr0 & Hn0 & Hs0).
  apply same_size_eq in Hr, Hn, Hsc. destruct Hr as [Rw Rh], Hn as [Nw Nh], Hsc as [Sw Sh].
  assert (Qw : Qn (width (canvas m)) <> 0 /\ Qn (height (canvas m)) <> 0).
  { apply nonzero_Qn. unfold nonzero. now rewrite Hc0. }
  destruct Qw as [Qw Qh]. clear Hs Ha.
  destruct m as [o c r n s st f].
  destruct c as [cw ch cx csv cb], r as [rw rh rx rsv rb], n as [nw nh nx nsv nb],
           s as [sw sh sx ssv sb].
  destruct nx as [nop na nf], sx as [sop sa sf].
  cbn [canvas _maskRaw _maskNice _scratch opts width height context globalAlpha filter
       globalCompositeOperation] in *.
  subst rw rh nw nh sw sh nop nf sa sf.
  assert (T3 : Qcleb 0 1 && Qcleb 1 1 = true) by reflexivity.
  unfold emaSmooth; unfold_api; crunch.
  repeat (progress (rewrite ?Hc0, ?T1, ?T2, ?T3; crunch)).
  eexists. split; [reflexivity|]. crunch. split; [reflexivity|].
  split; [split; reflexivity|].
  intros x y Hin. unfold inb in Hin. cbn [width height] in Hin.
  crunch_px. rewrite ?Hin. unfold composite_px, ema_code.
  rewrite ?place_same_size by assumption. rewrite ?Hin.
  rewrite ?px_scale_1, ?over_transparent_r. split; reflexivity.
Qed.

Lemma featherDilate_px (m : PersonMatte) :
  coherent m = true -> context (_maskNice m) = defaultContext ->
  exists m',
    featherDilate (Qn (width (canvas m))) (Qn (height (canvas m))) m = (Normal tt, m') /\
    context (_maskNice m') = defaultContext /\
    forall x y, inb (_maskNice m) x y = true ->
      bitmap (_maskNice m') x y
      = shape (opts m) (width (canvas m)) (height (canvas m)) (bitmap (_maskNice m)) x y.
Proof.
  intros Hco Hcx.
  unfold coherent in Hco. rewrite !andb_true_iff in Hco.
  destruct Hco as [[[Hs Hr] Hn] Hsc].
  destruct (sized_dims m Hs) as (Hc0 & Hr0 & Hn0 & Hs0).
  apply same_size_eq in Hn. destruct Hn as [Nw Nh].
  assert (Qw : Qn (width (canvas m)) <> 0 /\ Qn (height (canvas m)) <> 0).
  { apply nonzero_Qn. unfold nonzero. now rewrite Hc0. }
  destruct Qw as [Qw Qh]. clear Hs Hr Hsc.
  destruct m as [o c r n s st f].
  destruct c as [cw ch cx csv cb], n as [nw nh nx nsv nb].
  cbn [canvas _maskRaw _maskNice _scratch opts width height context] in *.
  subst nw nh nx.
  unfold featherDilate, shape; unfold_api; crunch.
  destruct (Qcltb 0 (dilatePx o) || Qcltb 0 (featherPx o)); crunch;
    rewrite ?Hc0; crunch;
    (eexists; split; [reflexivity|]; crunch; split; [reflexivity|]).
  - intros x y Hin. unfold inb in Hin. cbn [width height] in Hin.
    crunch_px. rewrite Hin. unfold composite_px. rewrite px_scale_1.
    match goal with
    | |- over (blur ?r ?L ?X ?Y) _ = over (blur _ ?R ?X ?Y) _ =>
        assert (HB : img_eq (blur r L) (blur r R))
    end.
    { apply blur_ext. intros u w. rewrite place_same_size by assumption.
      unfold clip. now destruct (in_rect 0 0 (Qn cw) (Qn ch) u w). }
    rewrite HB. reflexivity.
  - reflexivity.
Qed.

(** C7 (as amended): the raw mask has a canvas of its own, but smoothed and
    shaped mask share [_maskNice]: block 3 draws the blurred [_maskNice] over
    [_maskNice] itself, so what an update leaves there is the shaped mask,
    and the smoothed mask of that update was computed from the previous
    content of [_maskNice], i.e. from the previous shaped mask.  The update
    re-establishes its own preconditions, so this holds of every update. *)
Theorem shaper_overwrites_smoothed (ver : variant) (r : Results) (v : Video) (m : PersonMatte) :
  coherent m = true ->
  plain (context (_scratch m)) -> context (_maskNice m) = defaultContext ->
  0 <= emaAlpha (opts m) <= 1 ->
  exists m',
    _onResults ver r v m = (Normal tt, m') /\
    (forall x y, inb (_maskNice m) x y = true ->
       bitmap (_maskNice m') x y
       = shape (opts m) (width (canvas m)) (height (canvas m))
           (bitmap (_maskNice (smoothed_state r m))) x y /\
       bitmap (_maskNice (smoothed_state r m)) x y
       = ema_code (emaAlpha (opts m)) (bitmap (_maskNice m) x y)
           (bitmap (_maskRaw m') x y)) /\
    _maskRaw m'
    = _maskRaw (snd (copyRawMask r (Qn (width (canvas m))) (Qn (height (canvas m))) m)) /\
    coherent m' = true /\ plain (context (_scratch m')) /\
    context (_maskNice m') = defaultContext /\ opts m' = opts m.
Proof.
  intros Hco Hsc Hn Ha.
  set (w := Qn (width (canvas m))). set (h := Qn (height (canvas m))).
  destruct (copyRawMask_frame r w h m) as (m1 & E1 & S1 & N1 & Sc1).
  pose proof (stable_coherent _ _ S1 Hco) as Hco1.
  pose proof S1 as (O1 & C1 & _).
  destruct (emaSmooth_px m1 Hco1) as (m2 & E2 & X2 & P2 & F2);
    [now rewrite Sc1 | now rewrite N1, Hn | now rewrite N1, Hn | now rewrite O1|].
  assert (E2w : emaSmooth w h m1 = (Normal tt, m2))
    by (subst w h; rewrite <- C1; exact E2).
  clear E2. rename E2w into E2.
  destruct (coherent_parts m1 Hco1) as (Hs1 & _).
  destruct (emaSmooth_frame w h m1 Hs1) as (m2' & E2' & S2 & R2).
  pose proof (eq_trans (eq_sym E2) E2') as Q2. injection Q2 as <-.
  pose proof (stable_coherent _ _ S2 Hco1) as Hco2.
  pose proof S2 as (O2 & C2 & _).
  destruct (featherDilate_px m2 Hco2 X2) as (m3 & E3 & X3 & F3).
  assert (E3w : featherDilate w h m2 = (Normal tt, m3))
    by (subst w h; rewrite <- C1, <- C2; exact E3).
  clear E3. rename E3w into E3.
  destruct (coherent_parts m2 Hco2) as (Hs2 & _).
  destruct (featherDilate_frame w h m2 Hs2) as (m3' & E3' & S3 & R3 & Sc3).
  pose proof (eq_trans (eq_sym E3) E3') as Q3. injection Q3 as <-.
  pose proof (stable_coherent _ _ S3 Hco2) as Hco3.
  pose proof S3 as (O3 & C3 & _).
  destruct (coherent_parts m3 Hco3) as (Hs3 & _).
  destruct (composite_repaints ver (image r) v m3 Hs3) as (b & E4).
  assert (Sm : smoothed_state r m = m2).
  { unfold smoothed_state. fold w h. rewrite E1. cbn [snd]. now rewrite E2. }
  exists (setC Out (with_bitmap (canvas m3) b) m3).
  split.
  { unfold _onResults, bind, gets. fold w h. now rewrite E1, E2, E3. }
  split.
  { intros x y Hin. rewrite Sm. cbn [setC _maskNice _maskRaw].
    assert (Hin1 : inb (_maskNice m1) x y = true) by now rewrite N1.
    assert (Hin2 : inb (_maskNice m2) x y = true).
    { destruct S2 as (_ & _ & _ & _ & _ & (Ew & Eh) & _).
      unfold inb in *. now rewrite Ew, Eh. }
    split.
    - rewrite (F3 x y Hin2), O2, O1, C2, C1. reflexivity.
    - destruct (F2 x y Hin1) as [Fn _]. rewrite Fn, O1, N1, R3, R2. reflexivity. }
  split.
  { cbn [setC _maskRaw]. rewrite R3, R2. fold w h. rewrite E1. reflexivity. }
  split; [exact Hco3|].
  split; [cbn [setC _scratch]; now rewrite Sc3|].
  split; [exact X3|].
  cbn [setC opts]. congruence.
Qed.

End Smoother.

Lemma default_alpha_in_range : 0 <= 35 # 100 <= 1.
Proof. split; apply Qcleb_le; reflexivity. Qed.

Lemma shaper_overwrites_smoothed_witness :
  coherent (started noOpts) = true /\
  plain (context (_scratch (started noOpts))) /\
  context (_maskNice (started noOpts)) = defaultContext /\
  0 <= emaAlpha (opts (started noOpts)) <= 1 /\
  exists m',
    _onResults (P := tent) MaskThenRGB maskRes cam (started noOpts) = (Normal tt, m') /\
    (forall x y, inb (_maskNice (started noOpts)) x y = true ->
       bitmap (_maskNice m') x y
       = shape (P := tent) (opts (started noOpts)) (width (canvas (started noOpts)))
           (height (canvas (started noOpts)))
           (bitmap (_maskNice (smoothed_state (P := tent) maskRes (started noOpts)))) x y /\
       bitmap (_maskNice (smoothed_state (P := tent) maskRes (started noOpts))) x y
       = ema_code (emaAlpha (opts (started noOpts))) (bitmap (_maskNice (started noOpts)) x y)
           (bitmap (_maskRaw m') x y)) /\
    _maskRaw m'
    = _maskRaw (snd (copyRawMask (P := tent) maskRes
                       (Qn (width (canvas (started noOpts))))
                       (Qn (height (canvas (started noOpts)))) (started noOpts))) /\
    coherent m' = true /\ plain (context (_scratch m')) /\
    context (_maskNice m') = defaultContext /\ opts m' = opts (started noOpts).
Proof.
  assert (A : coherent (started noOpts) = true) by reflexivity.
  assert (B : plain (context (_scratch (started noOpts)))) by (split; reflexivity).
  assert (C : context (_maskNice (started noOpts)) = defaultContext) by reflexivity.
  assert (D : 0 <= emaAlpha (opts (started noOpts)) <= 1) by exact default_alpha_in_range.
  repeat (split; [assumption|]).
  exact (shaper_overwrites_smoothed (P := tent) MaskThenRGB maskRes cam
           (started noOpts) A B C D).
Defined.

(** C7, as the spec states it, fails: with the default options the first
    mask is smoothed to alpha 0.35 at (1, 1), and the shaper leaves 0.5775
    there, in the canvas the next update reads as S_prev. *)
Lemma shaper_alters_smoothed :
  ~ shaper_keeps_smoothed (P := tent) MaskThenRGB maskRes cam (started noOpts).
Proof.
  intro H. specialize (H 1 1 eq_refl).
  apply (f_equal alpha) in H. apply (f_equal this) in H.
  vm_compute in H. discriminate H.
Qed.

(** ** The temporal blend *)

Lemma ema_code_alpha (a : Qc) (S_prev R : pixel) :
  alpha (ema_code a S_prev R)
  = alpha (ema_spec a S_prev R) - a * (1 - a) * alpha R * alpha S_prev.
Proof. unfold ema_code, ema_spec, over. cbn [px_add px_scale alpha]. ring. Qed.

(** On the first response the previous mask is the blank canvas and the two
    agree. *)
Lemma ema_first_response (a : Qc) (R : pixel) :
  ema_code a transparent R = ema_spec a transparent R.
Proof. unfold ema_code, ema_spec, over. apply pixel_eq; cbn; ring. Qed.

(** C2, evaluated: a 4 x 4 session without feather or dilation and with the
    default emaAlpha = 0.35 receives the same fully opaque mask twice.  At
    (1, 1) the first response leaves alpha 0.35; the blend of the spec would
    then give 0.65 * 0.35 + 0.35 = 0.5775, the code leaves 0.497875: the raw
    mask drawn at opacity 0.35 over the previous mask drawn at 0.65. *)
Theorem ema_second_response (ver : variant) :
  let S_prev := bitmap (_maskNice (afterFirstMask ver sharp)) 1 1 in
  let R := bitmap (_maskRaw (afterSecondMask ver sharp)) 1 1 in
  let S_new := bitmap (_maskNice (afterSecondMask ver sharp)) 1 1 in
  alpha S_prev = 35 # 100 /\ alpha R = 1 /\
  alpha (ema_spec (35 # 100) S_prev R) = 231 # 400 /\
  alpha S_new = 3983 # 8000 /\
  S_new = ema_code (35 # 100) S_prev R.
Proof.
  destruct ver; cbv zeta; repeat apply conj;
    try apply pixel_eq; apply Qc_is_canon; vm_compute; reflexivity.
Qed.

(** ** What the handlers leave alone *)

Lemma keeps_opts_ret {A} (a : A) : keeps_opts (ret a).
Proof. intro m. reflexivity. Qed.

Lemma keeps_opts_throw {A} (e : exn) : keeps_opts (@throw A e).
Proof. intro m. reflexivity. Qed.

Lemma keeps_opts_gets {A} (f : PersonMatte -> A) : keeps_opts (gets f).
Proof. intro m. reflexivity. Qed.

Lemma keeps_opts_bind {A B} (c : M A) (k : A -> M B) :
  keeps_opts c -> (forall a, keeps_opts (k a)) -> keeps_opts (bind c k).
Proof.
  intros Hc Hk m. unfold bind. specialize (Hc m).
  destruct (c m) as [[a|e] m']; cbn [snd] in *.
  - now rewrite Hk.
  - exact Hc.
Qed.

Lemma keeps_opts_modifyC (id : canvasId) (f : Canvas -> Canvas) :
  keeps_opts (modifyC id f).
Proof. intro m. destruct id; reflexivity. Qed.

Lemma ignores_stop_ret {A} (a : A) : ignores_stop (ret a).
Proof. intro m. reflexivity. Qed.

Lemma ignores_stop_throw {A} (e : exn) : ignores_stop (@throw A e).
Proof. intro m. reflexivity. Qed.

Lemma ignores_stop_gets {A} (f : PersonMatte -> A) :
  (forall m, f (stopped_ m) = f m) -> ignores_stop (gets f).
Proof. intros Hf m. unfold gets. now rewrite Hf. Qed.

Lemma ignores_stop_bind {A B} (c : M A) (k : A -> M B) :
  ignores_stop c -> (forall a, ignores_stop (k a)) -> ignores_stop (bind c k).
Proof.
  intros Hc Hk m. unfold bind. rewrite Hc.
  destruct (c m) as [[a|e] m']; cbn [fst snd].
  - apply Hk.
  - reflexivity.
Qed.

Lemma ignores_stop_modifyC (id : canvasId) (f : Canvas -> Canvas) :
  ignores_stop (modifyC id f).
Proof. intro m. destruct id; reflexivity. Qed.

Ltac leaves_alone :=
  repeat first
    [ apply keeps_opts_bind; [|intros ?]
    | apply keeps_opts_ret | apply keeps_opts_throw | apply keeps_opts_gets
    | apply keeps_opts_modifyC
    | apply ignores_stop_bind; [|intros ?]
    | apply ignores_stop_ret | apply ignores_stop_throw
    | apply ignores_stop_gets; intros ?; reflexivity
    | apply ignores_stop_modifyC
    | match goal with
      | |- keeps_opts (if ?b then _ else _) => destruct b
      | |- ignores_stop (if ?b then _ else _) => destruct b
      | |- keeps_opts (match ?x with _ => _ end) => destruct x
      | |- ignores_stop (match ?x with _ => _ end) => destruct x
      end ].

Section LeftAlone.
Context {P : Platform}.

Lemma drawImage_leaves_alone (dst : canvasId) (src : drawable) (dx dy dw dh : Qc) :
  keeps_opts (drawImage dst src dx dy dw dh) /\
  ignores_stop (drawImage dst src dx dy dw dh).
Proof.
  split; unfold drawImage; destruct src as [id|[v|b]]; leaves_alone.
  all: try (apply ignores_stop_gets; intro m; destruct id; reflexivity).
Qed.

Lemma composite_leaves_alone (ver : variant) (img : option ExtImage) (v : Video) :
  keeps_opts (_composite ver img v) /\ ignores_stop (_composite ver img v).
Proof.
  split; destruct ver;
    unfold _composite, _composite_MaskThenRGB, _composite_RGBThenMask,
      save, restore, clearRect, set_globalCompositeOperation, set_filter,
      drawImage_at;
    leaves_alone; try apply drawImage_leaves_alone.
  all: try (apply ignores_stop_gets; intro m; reflexivity).
Qed.

Lemma onResults_leaves_alone (ver : variant) (r : Results) (v : Video) :
  keeps_opts (_onResults ver r v) /\ ignores_stop (_onResults ver r v).
Proof.
  split;
    unfold _onResults, copyRawMask, emaSmooth, featherDilate, clearRect,
      set_globalCompositeOperation, set_globalAlpha, set_filter;
    leaves_alone;
    try apply drawImage_leaves_alone; try apply composite_leaves_alone.
  all: try (apply ignores_stop_gets; intro m; reflexivity).
Qed.

Lemma tick_enter_keeps_opts (ver : variant) (v : Video) : keeps_opts (_tick_enter ver v).
Proof.
  unfold _tick_enter, incr_frame, modify. leaves_alone;
    try apply composite_leaves_alone.
  intro m. reflexivity.
Qed.

Lemma tick_rejected_keeps_opts (ver : variant) (v : Video) :
  keeps_opts (_tick_rejected ver v).
Proof. unfold _tick_rejected. leaves_alone. apply composite_leaves_alone. Qed.

Lemma stop_keeps_opts : keeps_opts stop.
Proof. intro m. reflexivity. Qed.

Lemma sizeAll_keeps_opts (w h : N) : keeps_opts (sizeAll w h).
Proof. unfold sizeAll. leaves_alone. Qed.

Lemma start_keeps_opts (ver : variant) (v0 : Video) (loads : list Video) (c : M tickExit) :
  start ver v0 loads = Some c -> keeps_opts c.
Proof.
  unfold start. destruct (_waitForVideo ver v0 loads) as [v|]; [|discriminate].
  intros [= <-]. destruct (start_dims ver v) as [w h].
  apply keeps_opts_bind; [apply sizeAll_keeps_opts|intros _].
  apply tick_enter_keeps_opts.
Qed.

Lemma settle_self (r : completion tickExit * PersonMatte) (q k : nat) :
  self (settle r q k) = snd r.
Proof. destruct r as [[[| |]|e] m]; reflexivity. Qed.

(** No event of a session changes the options. *)
Lemma step_keeps_opts (ver : variant) (s s' : Session) (e : event) :
  step ver s e = Some s' -> opts (self s') = opts (self s).
Proof.
  destruct e as [v| |r v| |v]; cbn [step].
  - destruct (queued s); [discriminate|]. intros [= <-].
    rewrite settle_self. apply tick_enter_keeps_opts.
  - intros [= <-]. reflexivity.
  - intros [= <-]. cbn [self]. apply onResults_leaves_alone.
  - destruct (suspended s); [discriminate|]. intros [= <-]. reflexivity.
  - destruct (suspended s); [discriminate|]. intros [= <-].
    rewrite settle_self. apply tick_rejected_keeps_opts.
Qed.

Lemma run_keeps_opts (ver : variant) (es : list event) :
  forall s s', run ver s es = Some s' -> opts (self s') = opts (self s).
Proof.
  induction es as [|e es IH]; intros s s'; cbn [run].
  - now intros [= <-].
  - destruct (step ver s e) as [s1|] eqn:E; [|discriminate].
    intro R. rewrite (IH _ _ R). now apply step_keeps_opts in E.
Qed.

End LeftAlone.

(** ** Configuration *)

Lemma Math_max_bounds (a x : Qc) : a <= Math_max a x /\ x <= Math_max a x.
Proof.
  unfold Math_max. destruct (Qcleb a x) eqn:E.
  - apply Qcleb_le in E. split; [exact E | apply Qcle_refl].
  - split; [apply Qcle_refl|].
    apply Qclt_le_weak, Qcnot_le_lt. intro L. apply Qcleb_le in L. congruence.
Qed.

Lemma Math_min_bounds (a y : Qc) : Math_min a y <= a /\ Math_min a y <= y.
Proof.
  unfold Math_min. destruct (Qcleb a y) eqn:E.
  - apply Qcleb_le in E. split; [apply Qcle_refl | exact E].
  - split; [|apply Qcle_refl].
    apply Qclt_le_weak, Qcnot_le_lt. intro L. apply Qcleb_le in L. congruence.
Qed.

Lemma scale_s_range (o : Opts) : 97 # 100 <= scale_s o <= 1.
Proof.
  unfold scale_s. split; [|apply Math_min_bounds].
  unfold Math_min. destruct (Qcleb 1 (Math_max (97 # 100) (rgbScale o))).
  - apply Qcleb_le. reflexivity.
  - apply Math_max_bounds.
Qed.

Lemma scale_s_in_range (o : Opts) :
  97 # 100 <= rgbScale o <= 1 -> scale_s o = rgbScale o.
Proof.
  intros [L U]. unfold scale_s, Math_max.
  apply Qcleb_le in L. rewrite L. unfold Math_min.
  destruct (Qcleb 1 (rgbScale o)) eqn:E; [|reflexivity].
  apply Qcleb_le in E. now apply Qcle_antisym.
Qed.

Section Configuration.
Context {P : Platform}.

(** C9 (as amended): the constructor stores the six options as passed (or
    defaulted), without validating any of them; nothing a session does ever
    writes them; rgbScale is clamped to [0.97, 1] where [_composite] uses it
    and the divider is coerced to max(1, value|0) where [_tick] uses it;
    emaAlpha is neither validated nor clamped. *)
Theorem options_fixed_and_clamped_at_use (arg : OptsArg) (m : PersonMatte) :
  new_PersonMatte true arg = Normal m ->
  opts m = mkOpts (orDefault (arg_modelSelection arg) 1)
                  (orDefault (arg_featherPx arg) 1)
                  (orDefault (arg_dilatePx arg) (6 # 10))
                  (orDefault (arg_emaAlpha arg) (35 # 100))
                  (orDefault (arg_rgbScale arg) (992 # 1000))
                  (orDefault (arg_depthFpsDivider arg) 1) /\
  (forall ver v0 loads c, start ver v0 loads = Some c -> opts (snd (c m)) = opts m) /\
  (forall ver s es s',
     opts (self s) = opts m -> run ver s es = Some s' -> opts (self s') = opts m) /\
  97 # 100 <= scale_s (opts m) <= 1 /\
  (97 # 100 <= rgbScale (opts m) <= 1 -> scale_s (opts m) = rgbScale (opts m)) /\
  (1 <= divide (opts m))%Z /\
  (forall k, (- 2 ^ 31 <= k < 2 ^ 31)%Z ->
     depthFpsDivider (opts m) = Q2Qc (inject_Z k) -> divide (opts m) = Z.max 1 k).
Proof.
  cbn [new_PersonMatte negb]. intros [= <-]. cbn [opts].
  split; [reflexivity|].
  split; [intros ver v0 loads c Hc; now apply (start_keeps_opts ver v0 loads c Hc)|].
  split; [intros ver s es s' Hs Hr; rewrite <- Hs; now apply (run_keeps_opts ver es)|].
  split; [apply scale_s_range|].
  split; [apply scale_s_in_range|].
  split; [unfold divide; lia|].
  intros k Hk E. unfold divide. cbn [depthFpsDivider] in *. rewrite E.
  now rewrite ToInt32_Z.
Qed.

End Configuration.

Lemma options_fixed_and_clamped_at_use_witness :
  new_PersonMatte true noOpts = Normal (construct noOpts) /\
  opts (construct noOpts) = mkOpts 1 1 (6 # 10) (35 # 100) (992 # 1000) 1 /\
  (forall ver v0 loads c,
     start (P := tent) ver v0 loads = Some c ->
     opts (snd (c (construct noOpts))) = opts (construct noOpts)) /\
  (forall ver s es s',
     opts (self s) = opts (construct noOpts) -> run (P := tent) ver s es = Some s' ->
     opts (self s') = opts (construct noOpts)) /\
  97 # 100 <= scale_s (opts (construct noOpts)) <= 1 /\
  (97 # 100 <= rgbScale (opts (construct noOpts)) <= 1 ->
   scale_s (opts (construct noOpts)) = rgbScale (opts (construct noOpts))) /\
  (1 <= divide (opts (construct noOpts)))%Z /\
  (forall k, (- 2 ^ 31 <= k < 2 ^ 31)%Z ->
     depthFpsDivider (opts (construct noOpts)) = Q2Qc (inject_Z k) ->
     divide (opts (construct noOpts)) = Z.max 1 k).
Proof.
  split; [reflexivity|].
  exact (options_fixed_and_clamped_at_use (P := tent) noOpts
           (construct noOpts) eq_refl).
Defined.

(** C9, as the spec states it, fails: an emaAlpha of 2 is accepted and
    stored as it is. *)
Lemma emaAlpha_is_not_validated :
  ~ (forall arg m, new_PersonMatte true arg = Normal m -> 0 <= emaAlpha (opts m) <= 1).
Proof.
  intro H.
  destruct (H (mkOptsArg None None None (Some (2 # 1)) None None) _ eq_refl) as [_ F].
  apply Qcleb_le in F. vm_compute in F. discriminate F.
Qed.

(** ** Stopping *)

Lemma stop_is (m : PersonMatte) : stop m = (Normal tt, stopped_ m).
Proof. reflexivity. Qed.

Lemma stopped_fixpoint (m : PersonMatte) : _stopped m = true -> stopped_ m = m.
Proof. destruct m; cbn; intros ->; reflexivity. Qed.

Section Stopping.
Context {P : Platform}.

Lemma tick_enter_stopped (ver : variant) (v : Video) (m : PersonMatte) :
  _stopped m = true -> _tick_enter ver v m = (Normal Returned, m).
Proof. intro H. unfold _tick_enter, bind, gets, ret. now rewrite H. Qed.



Lemma quiet_after_stop (ver : variant) (es : list event) (m : PersonMatte) :
  _stopped m = true -> no_results es = true ->
  forall s2, run ver (mkSession m 0 0) es = Some s2 -> s2 = mkSession m 0 0.
Proof.
  intros Hst. induction es as [|e es IH]; cbn [run no_results forallb].
  - now intros _ s2 [= <-].
  - intros Hn s2. apply andb_true_iff in Hn. destruct Hn as [He Hes].
    destruct e as [v| |r v| |v]; cbn [step queued suspended self];
      try discriminate.
    rewrite stop_is. cbn [snd]. rewrite (stopped_fixpoint m Hst).
    now apply IH.
Qed.

End Stopping.

(** ** Starting *)

Lemma hasSize_nonzero (v : Video) :
  hasSize v = true -> videoWidth v <> 0%N /\ videoHeight v <> 0%N.
Proof.
  unfold hasSize. rewrite andb_true_iff, !negb_true_iff, !Z.eqb_neq.
  intros [W H]. split; intro E; [apply W | apply H]; rewrite E; reflexivity.
Qed.

(** src/unnamed/part_000: the promise resolves on an element that has a
    picture size, and that size is the one [start] gives the canvases. *)
Lemma waitForVideo_has_size (v0 : Video) (loads : list Video) (v : Video) :
  _waitForVideo RGBThenMask v0 loads = Some v ->
  In v (v0 :: loads) /\ videoWidth v <> 0%N /\ videoHeight v <> 0%N /\
  start_dims RGBThenMask v = (videoWidth v, videoHeight v).
Proof.
  cbn [_waitForVideo]. intro H.
  assert (S : In v (v0 :: loads) /\ hasSize v = true).
  { destruct ((2 <=? readyState v0)%Z && hasSize v0) eqn:E.
    - injection H as <-. apply andb_true_iff in E. split; [now left | tauto].
    - apply find_some in H. split; [now right | tauto]. }
  destruct S as [I S]. destruct (hasSize_nonzero v S) as [W Hh].
  repeat split; trivial.
  cbn [start_dims]. unfold orElse.
  apply N.eqb_neq in W, Hh. now rewrite W, Hh.
Qed.

Section Starting.
Context {P : Platform}.

Lemma tick_enter_keeps_size (ver : variant) (v : Video) (m : PersonMatte) :
  sized m = true ->
  forall id, width (getC id (snd (_tick_enter ver v m))) = width (getC id m) /\
             height (getC id (snd (_tick_enter ver v m))) = height (getC id m).
Proof.
  intros Hs id. unfold _tick_enter, bind, gets, incr_frame, modify, ret.
  destruct (_stopped m); [split; reflexivity|].
  cbn [opts _frame next_frame].
  destruct ((1 <? divide (opts m))%Z && negb (Z.rem (_frame m + 1) (divide (opts m)) =? 0)%Z).
  - destruct (composite_repaints ver (Some (ImgVideo v)) v (next_frame m) Hs) as (b & ->).
    destruct id; split; reflexivity.
  - destruct id; split; reflexivity.
Qed.

(** src/unnamed/part_000: when [start] has completed, the four canvases
    have the picture size of the element, which is not zero. *)
Lemma start_RGBThenMask_dimensions (v0 : Video) (loads : list Video)
    (c : M tickExit) (m : PersonMatte) :
  start RGBThenMask v0 loads = Some c ->
  exists v, In v (v0 :: loads) /\ videoWidth v <> 0%N /\ videoHeight v <> 0%N /\
    forall id, width (getC id (snd (c m))) = videoWidth v /\
               height (getC id (snd (c m))) = videoHeight v.
Proof.
  unfold start. destruct (_waitForVideo RGBThenMask v0 loads) as [v|] eqn:W; [|discriminate].
  intros [= <-]. destruct (waitForVideo_has_size v0 loads v W) as (I & Hw & Hh & D).
  exists v. split; [assumption|]. split; [assumption|]. split; [assumption|].
  cbn [start_dims] in D. injection D as Dw Dh.
  intro id. rewrite Dw, Dh.
  unfold bind at 1 2. unfold sizeAll, bind, modifyC, modify.
  cbn [fst snd setC getC].
  match goal with |- context [_tick_enter RGBThenMask v ?M] => set (m1 := M) end.
  assert (Hs : sized m1 = true).
  { unfold sized, nonzero, m1, resize. cbn [canvas _maskRaw _maskNice _scratch width height].
    apply N.eqb_neq in Hw, Hh. now rewrite Hw, Hh. }
  destruct (tick_enter_keeps_size RGBThenMask v m1 Hs id) as [Ew Eh].
  rewrite Ew, Eh. destruct id; split; reflexivity.
Qed.

End Starting.

(** C8, evaluated on src/personMatte.js: on an element with data but no
    picture size the promise of [_waitForVideo] resolves at once, [start]
    gives the four canvases the size 0 x 0 and begins to tick; the first
    composite that follows throws.  On the same element
    src/unnamed/part_000 keeps waiting. *)
Theorem start_without_dimensions :
  _waitForVideo MaskThenRGB audioOnly [] = Some audioOnly /\
  videoWidth audioOnly = 0%N /\ videoHeight audioOnly = 0%N /\
  (exists c m,
     start (P := tent) MaskThenRGB audioOnly [] = Some c /\
     c (construct noOpts) = (Normal Awaiting, m) /\
     (forall id, width (getC id m) = 0%N /\ height (getC id m) = 0%N) /\
     fst (_tick_rejected (P := tent) MaskThenRGB audioOnly m) = Throw InvalidStateError) /\
  _waitForVideo RGBThenMask audioOnly [] = None.
Proof.
  repeat (split; [reflexivity|]).
  split; [|reflexivity].
  eexists. eexists. split; [reflexivity|]. split; [reflexivity|].
  split; [intros [| | |]; split; reflexivity | reflexivity].
Qed.

(** ** The resting state of a session *)

Lemma size_with_context (c : Canvas) (cx : Context2D) :
  width (with_context c cx) = width c /\ height (with_context c cx) = height c.
Proof. split; reflexivity. Qed.

Lemma context_with_context (c : Canvas) (cx : Context2D) :
  context (with_context c cx) = cx.
Proof. reflexivity. Qed.

Lemma size_with_bitmap (c : Canvas) (b : raster) :
  width (with_bitmap c b) = width c /\ height (with_bitmap c b) = height c.
Proof. split; reflexivity. Qed.

Lemma context_with_bitmap (c : Canvas) (b : raster) :
  context (with_bitmap c b) = context c.
Proof. reflexivity. Qed.

Section AtRest.
Context {P : Platform}.

Lemma size_paint (l : raster) (c : Canvas) :
  width (paint l c) = width c /\ height (paint l c) = height c.
Proof. split; reflexivity. Qed.

Lemma context_paint (l : raster) (c : Canvas) : context (paint l c) = context c.
Proof. reflexivity. Qed.

Ltac project :=
  repeat first
    [ rewrite (proj1 (size_with_context _ _)) | rewrite (proj2 (size_with_context _ _))
    | rewrite context_with_context
    | rewrite (proj1 (size_with_bitmap _ _)) | rewrite (proj2 (size_with_bitmap _ _))
    | rewrite context_with_bitmap
    | rewrite (proj1 (size_paint _ _)) | rewrite (proj2 (size_paint _ _))
    | rewrite context_paint
    | progress cbn [width height context globalAlpha filter globalCompositeOperation] ].

Lemma sizeAll_at_rest (w h : N) (m : PersonMatte) :
  w <> 0%N -> h <> 0%N -> at_rest (snd (sizeAll w h m)).
Proof.
  intros Hw Hh. apply N.eqb_neq in Hw, Hh.
  unfold at_rest, coherent, sized, nonzero, same_size, plain.
  cbn. rewrite Hw, Hh, !N.eqb_refl. cbn. repeat split; reflexivity.
Qed.

Lemma composite_at_rest (ver : variant) (img : option ExtImage) (v : Video) (m : PersonMatte) :
  at_rest m -> at_rest (snd (_composite ver img v m)).
Proof.
  intros (Hco & R). destruct (coherent_parts m Hco) as (Hs & _).
  destruct (composite_repaints ver img v m Hs) as (b & ->).
  split; [exact Hco | exact R].
Qed.

Lemma onResults_at_rest (ver : variant) (r : Results) (v : Video) (m : PersonMatte) :
  at_rest m -> at_rest (snd (_onResults ver r v m)).
Proof.
  intros (Hco & [Ca Cf] & [Ra Rf] & [Sa Sf] & Nx).
  set (w := Qn (width (canvas m))). set (h := Qn (height (canvas m))).
  assert (B : exists m3,
             (copyRawMask r w h ;; emaSmooth w h ;; featherDilate w h)%js m = (Normal tt, m3)
             /\ at_rest m3).
  { unfold coherent in Hco. rewrite !andb_true_iff in Hco.
    destruct Hco as [[[Hs Hr] Hn] Hsc].
    destruct (sized_dims m Hs) as (Hc0 & Hr0 & Hn0 & Hs0).
    apply same_size_eq in Hr, Hn, Hsc.
    destruct Hr as [Rw Rh], Hn as [Nw Nh], Hsc as [Sw Sh].
    subst w h. clear Hs.
    destruct m as [o c rw n s st f].
    destruct c as [cw ch cx csv cb], rw as [rw rh rx rsv rb], n as [nw nh nx nsv nb],
             s as [sw sh sx ssv sb].
    destruct rx as [rop ra rf], sx as [sop sa sf].
    cbn [canvas _maskRaw _maskNice _scratch opts width height context globalAlpha filter
         globalCompositeOperation] in *.
    subst rw rh nw nh sw sh nx ra rf sa sf.
    assert (T3 : Qcleb 0 1 && Qcleb 1 1 = true) by reflexivity.
    unfold copyRawMask, emaSmooth, featherDilate; unfold_api; crunch.
    destruct ((bmWidth (segmentationMask r) =? 0)%N || (bmHeight (segmentationMask r) =? 0)%N);
      crunch; repeat (progress (rewrite ?Hc0, ?T3; crunch));
      destruct (Qcleb 0 (1 - emaAlpha o) && Qcleb (1 - emaAlpha o) 1);
      crunch; repeat (progress (rewrite ?Hc0, ?T3; crunch));
      destruct (Qcleb 0 (emaAlpha o) && Qcleb (emaAlpha o) 1);
      crunch; repeat (progress (rewrite ?Hc0, ?T3; crunch));
      destruct (Qcltb 0 (dilatePx o) || Qcltb 0 (featherPx o));
      crunch; repeat (progress (rewrite ?Hc0, ?T3; crunch));
      (eexists; split; [reflexivity|]);
      unfold at_rest, coherent, sized, nonzero, same_size, plain;
      cbn [canvas _maskRaw _maskNice _scratch]; project;
      rewrite ?Hc0, ?N.eqb_refl; cbn [negb andb]; repeat split; trivial. }
  destruct B as (m3 & E3 & R3).
  assert (E : _onResults ver r v m = _composite ver (image r) v m3).
  { unfold _onResults. unfold bind at 1 2. unfold gets. fold w h.
    unfold bind in E3 |- *.
    destruct (copyRawMask r w h m) as [[[]|e] m1]; [|discriminate].
    destruct (emaSmooth w h m1) as [[[]|e] m2]; [|discriminate].
    destruct (featherDilate w h m2) as [[[]|e] m3']; [|discriminate].
    now injection E3 as ->. }
  rewrite E. now apply composite_at_rest.
Qed.

(** Every tick of a session at rest leaves it at rest. *)
Lemma tick_at_rest (ver : variant) (v : Video) (o : outcome) (m : PersonMatte) :
  at_rest m -> at_rest (snd (tick ver v o m)).
Proof.
  intro R. unfold tick, _tick_enter, bind, gets, incr_frame, modify, ret.
  destruct (_stopped m); [exact R|].
  assert (R1 : at_rest (next_frame m)) by exact R.
  cbn [opts _frame next_frame].
  destruct ((1 <? divide (opts m))%Z && negb (Z.rem (_frame m + 1) (divide (opts m)) =? 0)%Z).
  - pose proof (composite_at_rest ver (Some (ImgVideo v)) v _ R1) as C.
    destruct (_composite ver (Some (ImgVideo v)) v (next_frame m)) as [[[]|e] m']; exact C.
  - destruct o as [r v'|v'].
    + pose proof (onResults_at_rest ver r v' _ R1) as C.
      destruct (_onResults ver r v' (next_frame m)) as [[[]|e] m']; exact C.
    + unfold _tick_rejected, bind, ret.
      pose proof (composite_at_rest ver (Some (ImgVideo v')) v' _ R1) as C.
      destruct (_composite ver (Some (ImgVideo v')) v' (next_frame m)) as [[[]|e] m']; exact C.
Qed.

Lemma tick_enter_at_rest (ver : variant) (v : Video) (m : PersonMatte) :
  at_rest m -> at_rest (snd (_tick_enter ver v m)).
Proof.
  intro R. unfold _tick_enter, bind, gets, incr_frame, modify, ret.
  destruct (_stopped m); [exact R|].
  assert (R1 : at_rest (next_frame m)) by exact R.
  cbn [opts _frame next_frame].
  destruct ((1 <? divide (opts m))%Z && negb (Z.rem (_frame m + 1) (divide (opts m)) =? 0)%Z).
  - pose proof (composite_at_rest ver (Some (ImgVideo v)) v _ R1) as C.
    destruct (_composite ver (Some (ImgVideo v)) v (next_frame m)) as [[[]|e] m']; exact C.
  - exact R1.
Qed.

(** src/unnamed/part_000: [start] leaves the session at rest. *)
Lemma start_RGBThenMask_at_rest (v0 : Video) (loads : list Video)
    (c : M tickExit) (m : PersonMatte) :
  start RGBThenMask v0 loads = Some c -> at_rest (snd (c m)).
Proof.
  unfold start. destruct (_waitForVideo RGBThenMask v0 loads) as [v|] eqn:W; [|discriminate].
  intros [= <-]. destruct (waitForVideo_has_size v0 loads v W) as (_ & Hw & Hh & D).
  cbn [start_dims] in D. injection D as -> ->. unfold bind at 1.
  pose proof (sizeAll_at_rest (videoWidth v) (videoHeight v) m Hw Hh) as R.
  destruct (sizeAll (videoWidth v) (videoHeight v) m) as [[[]|e] m1] eqn:E.
  - now apply tick_enter_at_rest.
  - exact R.
Qed.

End AtRest.
(** ** The claims on the compositor's order, on failed requests and on stop *)

Lemma some_orIdle (o : option Session) : is_some o = true -> o = Some (orIdle o).
Proof. destruct o; [reflexivity | discriminate]. Qed.

Section StepOrder.
Context {P : Platform}.


End StepOrder.


Section FailedRequest.
Context {P : Platform}.

(** A tick whose request is rejected, on a session with canvases of one
    common non-zero size: it returns normally and reschedules the loop; it
    leaves the masks, the options, the flag and the size and context of the
    output as they were, counts the frame, and repaints the output from the
    live frame and the mask it found. *)
Lemma rejected_tick_recomposites (ver : variant) (v v' : Video) (m : PersonMatte) :
  coherent m = true -> plain (context (canvas m)) -> _stopped m = false ->
  skips (opts m) (_frame m) = false ->
  exists m',
    tick ver v (Rejected v') m = (Normal (true, Scheduled), m') /\
    _maskRaw m' = _maskRaw m /\ _maskNice m' = _maskNice m /\
    _scratch m' = _scratch m /\
    opts m' = opts m /\ _stopped m' = false /\ _frame m' = (_frame m + 1)%Z /\
    width (canvas m') = width (canvas m) /\ height (canvas m') = height (canvas m) /\
    context (canvas m') = context (canvas m) /\
    saved (canvas m') = saved (canvas m) /\
    forall x y, inb (canvas m) x y = true ->
      bitmap (canvas m') x y
      = if has_frame (ImgVideo v')
        then composite_law ver (opts m) (width (canvas m)) (height (canvas m))
               (ImgVideo v') (bitmap (_maskNice m)) x y
        else match ver with
             | RGBThenMask => transparent
             | MaskThenRGB =>
                 matte (6 # 10) (opts m) (width (canvas m)) (height (canvas m))
                       (bitmap (_maskNice m)) x y
             end.
Proof.
  intros Hc Hp Hst Sk. destruct (coherent_parts m Hc) as (Hs & _).
  destruct (tick_without_mask ver v (Rejected v') m Hs Hst) as (b & Ec & Et);
    [right; now exists v'|].
  rewrite Sk in Ec, Et. cbn [live_video negb] in Ec, Et.
  exists (setC Out (with_bitmap (canvas m) b) (next_frame m)).
  split; [exact Et|].
  repeat (split; [first [reflexivity | exact Hst]|]).
  intros x y Hin.
  assert (Hc1 : coherent (next_frame m) = true) by exact Hc.
  assert (Hp1 : plain (context (canvas (next_frame m)))) by exact Hp.
  destruct (has_frame (ImgVideo v')) eqn:Hf.
  - pose proof (composite_px_law ver (Some (ImgVideo v')) v' (next_frame m)
                  Hc1 Hp1 Hf x y Hin) as L.
    rewrite Ec in L. exact L.
  - pose proof (composite_noframe_px ver (Some (ImgVideo v')) v' (next_frame m)
                  Hc1 Hp1 Hf x y Hin) as L.
    rewrite Ec in L. exact L.
Qed.

End FailedRequest.

(** C5: on a session whose canvases have one common non-zero size, a tick
    whose request is rejected does what the claim says, in both versions.
    On the session that [start] of src/personMatte.js leaves on an element
    without picture (canvases 0 x 0), it does not: the [catch] block's
    [_composite] throws InvalidStateError, the tick ends there and nothing is
    queued.  src/unnamed/part_000 does not start on such an element. *)
Theorem rejected_tick_ends_loop_on_empty_canvases :
  (forall (P : Platform) (ver : variant) (v v' : Video) (m : PersonMatte),
     coherent m = true -> plain (context (canvas m)) -> _stopped m = false ->
     skips (opts m) (_frame m) = false ->
     exists m',
       tick ver v (Rejected v') m = (Normal (true, Scheduled), m') /\
       _maskRaw m' = _maskRaw m /\ _maskNice m' = _maskNice m /\
       _scratch m' = _scratch m /\
       opts m' = opts m /\ _stopped m' = false /\ _frame m' = (_frame m + 1)%Z /\
       width (canvas m') = width (canvas m) /\ height (canvas m') = height (canvas m) /\
       context (canvas m') = context (canvas m) /\
       saved (canvas m') = saved (canvas m) /\
       forall x y, inb (canvas m) x y = true ->
         bitmap (canvas m') x y
         = if has_frame (ImgVideo v')
           then composite_law ver (opts m) (width (canvas m)) (height (canvas m))
                  (ImgVideo v') (bitmap (_maskNice m)) x y
           else match ver with
                | RGBThenMask => transparent
                | MaskThenRGB =>
                    matte (6 # 10) (opts m) (width (canvas m)) (height (canvas m))
                          (bitmap (_maskNice m)) x y
                end) /\
  start_session (P := tent) MaskThenRGB audioOnly [] (construct noOpts)
  = Some emptySession /\
  _stopped (self emptySession) = false /\
  queued emptySession = 0%nat /\ suspended emptySession = 1%nat /\
  (forall id, width (getC id (self emptySession)) = 0%N /\
              height (getC id (self emptySession)) = 0%N) /\
  fst (_tick_rejected (P := tent) MaskThenRGB audioOnly (self emptySession))
  = Throw InvalidStateError /\
  (exists s1,
     step (P := tent) MaskThenRGB emptySession (EvSendRejected audioOnly) = Some s1 /\
     queued s1 = 0%nat /\ suspended s1 = 0%nat) /\
  fst (tick (P := tent) MaskThenRGB audioOnly (Rejected audioOnly) unsized)
  = Throw InvalidStateError /\
  run_ticks (P := tent) MaskThenRGB [(audioOnly, Rejected audioOnly)] unsized = [] /\
  _waitForVideo RGBThenMask audioOnly [] = None.
Proof.
  split; [intros P; apply rejected_tick_recomposites|].
  split; [apply some_orIdle; vm_compute; reflexivity|].
  split; [vm_compute; reflexivity|].
  split; [vm_compute; reflexivity|].
  split; [vm_compute; reflexivity|].
  split; [intros []; split; vm_compute; reflexivity|].
  split; [vm_compute; reflexivity|].
  split.
  { exists (orIdle (step (P := tent) MaskThenRGB emptySession (EvSendRejected audioOnly))).
    split; [apply some_orIdle; vm_compute; reflexivity|].
    split; vm_compute; reflexivity. }
  split; [vm_compute; reflexivity|].
  split; [vm_compute; reflexivity|].
  reflexivity.
Qed.

Section StopObserved.
Context {P : Platform}.

(** A stopped session with nothing queued and nothing in flight: the only
    event left is another stop(), which changes nothing. *)
Lemma quiet_host_step (ver : variant) (m : PersonMatte) (e : event) (s' : Session) :
  _stopped m = true -> host_step ver (mkSession m 0 0) e = Some s' ->
  e = EvStop /\ s' = mkSession m 0 0.
Proof.
  intros Hst. destruct e as [v| |r v| |v]; unfold host_step, in_flight;
    cbn [step queued suspended self Nat.eqb negb]; try discriminate.
  intros [= <-]. split; [reflexivity|].
  f_equal. exact (stopped_fixpoint m Hst).
Qed.

Lemma quiet_host_run (ver : variant) (m : PersonMatte) (es : list event) :
  _stopped m = true ->
  forall s2, host_run ver (mkSession m 0 0) es = Some s2 -> s2 = mkSession m 0 0.
Proof.
  intro Hst. induction es as [|e es IH]; cbn [host_run].
  - now intros s2 [= <-].
  - intros s2. destruct (host_step ver (mkSession m 0 0) e) as [s'|] eqn:E; [|discriminate].
    destruct (quiet_host_step ver m e s' Hst E) as [_ ->]. apply IH.
Qed.

(** C6: once a tick has observed the stop flag, it returns at once and
    leaves nothing of the loop: no callback is queued and no request is in
    flight.  From then on the host has no event for the session but another
    stop(): no tick runs, no result can arrive (the listener is called only
    for a request in flight), and over any sequence of events the session,
    its output buffer included, stays exactly as it is.  stop() is
    idempotent. *)
Theorem stop_observed_ends_the_session (ver : variant) (s : Session) (v : Video) :
  _stopped (self s) = true -> (queued s + suspended s <= 1)%nat ->
  forall s1, step ver s (EvAnimationFrame v) = Some s1 ->
    s1 = mkSession (self s) 0 0 /\
    in_flight s1 = false /\
    (forall e s2, host_step ver s1 e = Some s2 -> e = EvStop /\ s2 = s1) /\
    (forall es s2, host_run ver s1 es = Some s2 -> s2 = s1) /\
    (forall m, snd (stop (snd (stop m))) = snd (stop m)).
Proof.
  intros Hst Hch s1. cbn [step].
  destruct (queued s) as [|q] eqn:Q; [discriminate|].
  rewrite (tick_enter_stopped ver v _ Hst). cbn [settle]. intros [= <-].
  assert (q = 0%nat /\ suspended s = 0%nat) as [-> ->] by lia.
  split; [reflexivity|]. split; [reflexivity|].
  split; [intros e s2; now apply quiet_host_step|].
  split; [intros es s2; now apply quiet_host_run|].
  reflexivity.
Qed.

End StopObserved.

Lemma stop_observed_ends_the_session_witness :
  _stopped (self (stopRequested MaskThenRGB)) = true /\
  (queued (stopRequested MaskThenRGB) + suspended (stopRequested MaskThenRGB) <= 1)%nat /\
  step (P := tent) MaskThenRGB (stopRequested MaskThenRGB) (EvAnimationFrame cam)
  = Some (stopObserved MaskThenRGB) /\
  stopObserved MaskThenRGB = mkSession (self (stopRequested MaskThenRGB)) 0 0 /\
  in_flight (stopObserved MaskThenRGB) = false /\
  (forall e s2, host_step (P := tent) MaskThenRGB (stopObserved MaskThenRGB) e = Some s2 ->
     e = EvStop /\ s2 = stopObserved MaskThenRGB) /\
  (forall es s2, host_run (P := tent) MaskThenRGB (stopObserved MaskThenRGB) es = Some s2 ->
     s2 = stopObserved MaskThenRGB) /\
  (forall m, snd (stop (snd (stop m))) = snd (stop m)).
Proof.
  assert (A : _stopped (self (stopRequested MaskThenRGB)) = true) by reflexivity.
  assert (B : (queued (stopRequested MaskThenRGB)
               + suspended (stopRequested MaskThenRGB) <= 1)%nat)
    by (vm_compute; apply le_n).
  assert (C : step (P := tent) MaskThenRGB (stopRequested MaskThenRGB)
                (EvAnimationFrame cam) = Some (stopObserved MaskThenRGB))
    by reflexivity.
  repeat (split; [assumption|]).
  exact (stop_observed_ends_the_session (P := tent) MaskThenRGB
           (stopRequested MaskThenRGB) cam A B (stopObserved MaskThenRGB) C).
Defined.
Lemma same_sizes_refl (m : PersonMatte) : same_sizes m m.
Proof. intro id. split; reflexivity. Qed.

Lemma same_sizes_trans (a b c : PersonMatte) :
  same_sizes a b -> same_sizes b c -> same_sizes a c.
Proof.
  intros H1 H2 id. destruct (H1 id) as [A1 A2], (H2 id) as [B1 B2].
  split; congruence.
Qed.

Lemma same_masks_refl (m : PersonMatte) : same_masks m m.
Proof. repeat split. Qed.

Lemma same_masks_trans (a b c : PersonMatte) :
  same_masks a b -> same_masks b c -> same_masks a c.
Proof. intros (A1 & A2 & A3) (B1 & B2 & B3). repeat split; congruence. Qed.

Lemma same_but_output_refl (m : PersonMatte) : same_but_output m m.
Proof. repeat split. Qed.

Lemma same_but_output_trans (a b c : PersonMatte) :
  same_but_output a b -> same_but_output b c -> same_but_output a c.
Proof.
  intros (A1 & (A2 & A2' & A2'') & A3 & A4) (B1 & (B2 & B2' & B2'') & B3 & B4).
  repeat apply conj; congruence.
Qed.

Lemma keeps_bind (R : PersonMatte -> PersonMatte -> Prop) {A B} (c : M A) (k : A -> M B) :
  (forall x y z, R x y -> R y z -> R x z) ->
  keeps R c -> (forall a, keeps R (k a)) -> keeps R (bind c k).
Proof.
  intros T Hc Hk m. unfold bind. specialize (Hc m).
  destruct (c m) as [[a|e] m']; cbn [snd] in *.
  - exact (T _ _ _ Hc (Hk a m')).
  - exact Hc.
Qed.

Lemma keeps_sizes_modifyC (id : canvasId) (f : Canvas -> Canvas) :
  keeps_size f -> keeps same_sizes (modifyC id f).
Proof.
  intros Hf m id'. destruct (Hf (getC id m)) as [Hw Hh].
  destruct id, id'; cbn [modifyC modify snd setC getC] in *;
    split; trivial.
Qed.

Lemma keeps_output_modifyC (f : Canvas -> Canvas) :
  keeps same_but_output (modifyC Out f).
Proof. intro m. repeat split. Qed.

Lemma keeps_size_paint {P : Platform} (l : raster) : keeps_size (paint l).
Proof. intro c. split; reflexivity. Qed.

Ltac sizes_kept :=
  repeat first
    [ apply keeps_bind; [exact same_sizes_trans| |intros ?]
    | apply keeps_sizes_modifyC; intro; try (split; reflexivity)
    | intro; apply same_sizes_refl
    | match goal with
      | |- keeps _ (if ?b then _ else _) => destruct b
      | |- keeps _ (match ?x with _ => _ end) => destruct x
      end ].

Ltac output_only :=
  repeat first
    [ apply keeps_bind; [exact same_but_output_trans| |intros ?]
    | apply keeps_output_modifyC
    | intro; apply same_but_output_refl
    | match goal with
      | |- keeps _ (if ?b then _ else _) => destruct b
      | |- keeps _ (match ?x with _ => _ end) => destruct x
      end ].

Section Frames.
Context {P : Platform}.

Lemma drawImage_keeps_sizes (dst : canvasId) (src : drawable) (dx dy dw dh : Qc) :
  keeps same_sizes (drawImage dst src dx dy dw dh).
Proof. unfold drawImage. destruct src as [id|[v|b]]; sizes_kept. Qed.

Lemma composite_keeps_sizes (ver : variant) (img : option ExtImage) (v : Video) :
  keeps same_sizes (_composite ver img v).
Proof.
  destruct ver;
    unfold _composite, _composite_MaskThenRGB, _composite_RGBThenMask,
      save, restore, clearRect, set_globalCompositeOperation, set_filter,
      drawImage_at;
    sizes_kept; try apply drawImage_keeps_sizes.
  all: destruct (saved _); split; reflexivity.
Qed.

Lemma onResults_keeps_sizes (ver : variant) (r : Results) (v : Video) :
  keeps same_sizes (_onResults ver r v).
Proof.
  unfold _onResults, copyRawMask, emaSmooth, featherDilate, clearRect,
    set_globalCompositeOperation, set_globalAlpha, set_filter;
    sizes_kept; try apply drawImage_keeps_sizes; try apply composite_keeps_sizes.
  all: match goal with |- context [if ?b then _ else _] => destruct b end;
    split; reflexivity.
Qed.

Lemma tick_enter_keeps_sizes (ver : variant) (v : Video) :
  keeps same_sizes (_tick_enter ver v).
Proof.
  unfold _tick_enter, incr_frame, modify. sizes_kept; try apply composite_keeps_sizes.
  intros m id. destruct id; split; reflexivity.
Qed.

Lemma tick_rejected_keeps_sizes (ver : variant) (v : Video) :
  keeps same_sizes (_tick_rejected ver v).
Proof. unfold _tick_rejected. sizes_kept. apply composite_keeps_sizes. Qed.

Lemma step_keeps_sizes (ver : variant) (s s' : Session) (e : event) :
  step ver s e = Some s' -> same_sizes (self s) (self s').
Proof.
  destruct e as [v| |r v| |v]; cbn [step].
  - destruct (queued s); [discriminate|]. intros [= <-].
    rewrite settle_self. apply tick_enter_keeps_sizes.
  - intros [= <-] id. destruct id; split; reflexivity.
  - intros [= <-]. cbn [self]. apply onResults_keeps_sizes.
  - destruct (suspended s); [discriminate|]. intros [= <-]. apply same_sizes_refl.
  - destruct (suspended s); [discriminate|]. intros [= <-].
    rewrite settle_self. apply tick_rejected_keeps_sizes.
Qed.

Lemma run_keeps_sizes (ver : variant) (es : list event) :
  forall s s', run ver s es = Some s' -> same_sizes (self s) (self s').
Proof.
  induction es as [|e es IH]; intros s s'; cbn [run].
  - intros [= <-]. apply same_sizes_refl.
  - destruct (step ver s e) as [s1|] eqn:E; [|discriminate].
    intro R. apply (same_sizes_trans _ (self s1)).
    + now apply step_keeps_sizes in E.
    + exact (IH _ _ R).
Qed.

(** X1: no event of a session (a tick, a call of the listener, stop(), the
    settlement of a request) changes the width or the height of any of the
    four canvases: after [start] their sizes stay what they are, whether the
    handlers return or throw. *)
Theorem canvas_sizes_never_change (ver : variant) (es : list event) (s s' : Session) :
  run ver s es = Some s' ->
  forall id, width (getC id (self s')) = width (getC id (self s)) /\
             height (getC id (self s')) = height (getC id (self s)).
Proof. apply run_keeps_sizes. Qed.

Lemma drawImage_Out_only (src : drawable) (dx dy dw dh : Qc) :
  keeps same_but_output (drawImage Out src dx dy dw dh).
Proof. unfold drawImage. destruct src as [id|[v|b]]; output_only. Qed.

Lemma composite_output_only (ver : variant) (img : option ExtImage) (v : Video) :
  keeps same_but_output (_composite ver img v).
Proof.
  destruct ver;
    unfold _composite, _composite_MaskThenRGB, _composite_RGBThenMask,
      save, restore, clearRect, set_globalCompositeOperation, set_filter,
      drawImage_at;
    output_only; apply drawImage_Out_only.
Qed.

End Frames.
Lemma same_control_refl (m : PersonMatte) : same_control m m.
Proof. repeat split. Qed.

Lemma same_control_trans (a b c : PersonMatte) :
  same_control a b -> same_control b c -> same_control a c.
Proof. intros (A1 & A2 & A3) (B1 & B2 & B3). repeat split; congruence. Qed.

Lemma keeps_control_modifyC (id : canvasId) (f : Canvas -> Canvas) :
  keeps same_control (modifyC id f).
Proof. intro m. destruct id; repeat split. Qed.

Ltac control_kept :=
  repeat first
    [ apply keeps_bind; [exact same_control_trans| |intros ?]
    | apply keeps_control_modifyC
    | intro; apply same_control_refl
    | match goal with
      | |- keeps _ (if ?b then _ else _) => destruct b
      | |- keeps _ (match ?x with _ => _ end) => destruct x
      end ].

Section Lifecycle.
Context {P : Platform}.

Lemma drawImage_keeps_control (dst : canvasId) (src : drawable) (dx dy dw dh : Qc) :
  keeps same_control (drawImage dst src dx dy dw dh).
Proof. unfold drawImage. destruct src as [id|[v|b]]; control_kept. Qed.

Lemma onResults_keeps_control (ver : variant) (r : Results) (v : Video) :
  keeps same_control (_onResults ver r v).
Proof.
  unfold _onResults, copyRawMask, emaSmooth, featherDilate, clearRect,
    set_globalCompositeOperation, set_globalAlpha, set_filter;
    control_kept; try apply drawImage_keeps_control.
  intro m. destruct (composite_output_only ver (image r) v m) as (O & _ & S & F).
  repeat split; assumption.
Qed.

Lemma tick_enter_keeps_masks (ver : variant) (v : Video) :
  keeps same_masks (_tick_enter ver v).
Proof.
  intro m. unfold _tick_enter, bind, gets, incr_frame, modify, ret.
  destruct (_stopped m); [apply same_masks_refl|].
  cbn [opts _frame next_frame].
  destruct ((1 <? divide (opts m))%Z && negb (Z.rem (_frame m + 1) (divide (opts m)) =? 0)%Z).
  - destruct (composite_output_only ver (Some (ImgVideo v)) v (next_frame m))
      as (_ & M & _).
    destruct (_composite ver (Some (ImgVideo v)) v (next_frame m)) as [[[]|e] m']; exact M.
  - repeat split.
Qed.

Lemma tick_rejected_keeps_masks (ver : variant) (v : Video) :
  keeps same_masks (_tick_rejected ver v).
Proof.
  intro m. unfold _tick_rejected, bind, ret.
  destruct (composite_output_only ver (Some (ImgVideo v)) v m) as (_ & M & _).
  destruct (_composite ver (Some (ImgVideo v)) v m) as [[[]|e] m']; exact M.
Qed.

(** X2: the three mask canvases are written by the [onResults] listener
    only: over any sequence of events without a listener call (ticks that
    skip their request or whose request fails, stop()), [_maskRaw],
    [_maskNice] and [_scratch] are exactly as they were, pixels included. *)
Theorem masks_change_only_on_results (ver : variant) (es : list event) (s s' : Session) :
  no_results es = true -> run ver s es = Some s' ->
  _maskRaw (self s') = _maskRaw (self s) /\
  _maskNice (self s') = _maskNice (self s) /\
  _scratch (self s') = _scratch (self s).
Proof.
  revert s. induction es as [|e es IH]; intros s; cbn [run no_results forallb].
  - intros _ [= <-]. repeat split.
  - intros Hn. apply andb_true_iff in Hn. destruct Hn as [He Hes].
    destruct (step ver s e) as [s1|] eqn:E; [|discriminate].
    intro R. apply (same_masks_trans _ (self s1)); [|exact (IH _ Hes R)].
    destruct e as [v| |r v| |v]; cbn [step] in E; try discriminate.
    + destruct (queued s); [discriminate|]. injection E as <-.
      rewrite settle_self. apply tick_enter_keeps_masks.
    + injection E as <-. repeat split.
    + destruct (suspended s); [discriminate|]. injection E as <-. repeat split.
    + destruct (suspended s); [discriminate|]. injection E as <-.
      rewrite settle_self. apply tick_rejected_keeps_masks.
Qed.


Lemma ignores_stop_stays_stopped {A} (c : M A) (m : PersonMatte) :
  ignores_stop c -> _stopped m = true -> _stopped (snd (c m)) = true.
Proof.
  intros I S. pose proof (I m) as E. rewrite (stopped_fixpoint m S) in E.
  rewrite E. reflexivity.
Qed.

Lemma step_stays_stopped (ver : variant) (s s' : Session) (e : event) :
  _stopped (self s) = true -> step ver s e = Some s' ->
  _stopped (self s') = true /\ _frame (self s') = _frame (self s).
Proof.
  intro S. destruct e as [v| |r v| |v]; cbn [step].
  - destruct (queued s); [discriminate|]. intros [= <-].
    rewrite settle_self, (tick_enter_stopped ver v _ S). now split.
  - intros [= <-]. now split.
  - intros [= <-]. cbn [self].
    destruct (onResults_keeps_control ver r v (self s)) as (_ & St & F).
    split; congruence.
  - destruct (suspended s); [discriminate|]. intros [= <-]. now split.
  - destruct (suspended s); [discriminate|]. intros [= <-].
    rewrite settle_self. unfold _tick_rejected, bind, ret.
    destruct (composite_output_only ver (Some (ImgVideo v)) v (self s)) as (_ & _ & St & F).
    destruct (_composite ver (Some (ImgVideo v)) v (self s)) as [[[]|e] m']; cbn [snd] in *;
      split; congruence.
Qed.

Lemma run_stays_stopped (ver : variant) (es : list event) :
  forall s s', _stopped (self s) = true -> run ver s es = Some s' ->
  _stopped (self s') = true /\ _frame (self s') = _frame (self s).
Proof.
  induction es as [|e es IH]; intros s s' S; cbn [run].
  - intros [= <-]. now split.
  - destruct (step ver s e) as [s1|] eqn:E1; [|discriminate].
    destruct (step_stays_stopped ver s s1 e S E1) as [S1 F1].
    intro R. destruct (IH s1 s' S1 R) as [S2 F2].
    split; [exact S2|]. now rewrite F2.
Qed.

(** X4: nothing clears the stop flag.  Once it is set, no event sets it
    back or advances the frame counter; and [start] called on a stopped object
    sizes the canvases and returns: no tick runs, nothing is queued, nothing is
    requested. *)
Theorem stop_is_final (ver : variant) (s : Session) :
  _stopped (self s) = true ->
  (forall es s', run ver s es = Some s' ->
     _stopped (self s') = true /\ _frame (self s') = _frame (self s)) /\
  (forall v0 loads s0, start_session ver v0 loads (self s) = Some s0 ->
     _stopped (self s0) = true /\ _frame (self s0) = _frame (self s) /\
     queued s0 = 0%nat /\ suspended s0 = 0%nat).
Proof.
  intro S. split.
  - intros es s'. now apply run_stays_stopped.
  - intros v0 loads s0. unfold start_session, start.
    destruct (_waitForVideo ver v0 loads) as [v|]; [|discriminate].
    intros [= <-]. destruct (start_dims ver v) as [w h].
    unfold bind at 1. unfold sizeAll, bind, modifyC, modify. cbn [fst snd].
    rewrite tick_enter_stopped by (cbn; exact S).
    cbn. now repeat split.
Qed.

End Lifecycle.

Lemma canvas_sizes_never_change_witness :
  run (P := tent) MaskThenRGB (running MaskThenRGB) failThenStop
  = Some (orIdle (run (P := tent) MaskThenRGB (running MaskThenRGB) failThenStop)) /\
  forall id,
    width (getC id (self (orIdle (run (P := tent) MaskThenRGB (running MaskThenRGB)
                                    failThenStop))))
    = width (getC id (self (running MaskThenRGB))) /\
    height (getC id (self (orIdle (run (P := tent) MaskThenRGB (running MaskThenRGB)
                                     failThenStop))))
    = height (getC id (self (running MaskThenRGB))).
Proof.
  assert (R : run (P := tent) MaskThenRGB (running MaskThenRGB) failThenStop
              = Some (orIdle (run (P := tent) MaskThenRGB (running MaskThenRGB) failThenStop)))
    by (apply some_orIdle; vm_compute; reflexivity).
  split; [exact R|].
  exact (canvas_sizes_never_change (P := tent) MaskThenRGB failThenStop
           (running MaskThenRGB) _ R).
Defined.

Lemma masks_change_only_on_results_witness :
  no_results failThenStop = true /\
  run (P := tent) MaskThenRGB (running MaskThenRGB) failThenStop
  = Some (orIdle (run (P := tent) MaskThenRGB (running MaskThenRGB) failThenStop)) /\
  _maskRaw (self (orIdle (run (P := tent) MaskThenRGB (running MaskThenRGB) failThenStop)))
  = _maskRaw (self (running MaskThenRGB)) /\
  _maskNice (self (orIdle (run (P := tent) MaskThenRGB (running MaskThenRGB) failThenStop)))
  = _maskNice (self (running MaskThenRGB)) /\
  _scratch (self (orIdle (run (P := tent) MaskThenRGB (running MaskThenRGB) failThenStop)))
  = _scratch (self (running MaskThenRGB)).
Proof.
  assert (R : run (P := tent) MaskThenRGB (running MaskThenRGB) failThenStop
              = Some (orIdle (run (P := tent) MaskThenRGB (running MaskThenRGB) failThenStop)))
    by (apply some_orIdle; vm_compute; reflexivity).
  split; [reflexivity|]. split; [exact R|].
  exact (masks_change_only_on_results (P := tent) MaskThenRGB failThenStop
           (running MaskThenRGB) _ eq_refl R).
Defined.


Lemma stop_is_final_witness :
  _stopped (self (stopRequested MaskThenRGB)) = true /\
  (forall es s', run (P := tent) MaskThenRGB (stopRequested MaskThenRGB) es = Some s' ->
     _stopped (self s') = true /\
     _frame (self s') = _frame (self (stopRequested MaskThenRGB))) /\
  (forall v0 loads s0,
     start_session (P := tent) MaskThenRGB v0 loads (self (stopRequested MaskThenRGB))
     = Some s0 ->
     _stopped (self s0) = true /\
     _frame (self s0) = _frame (self (stopRequested MaskThenRGB)) /\
     queued s0 = 0%nat /\ suspended s0 = 0%nat).
Proof.
  assert (S : _stopped (self (stopRequested MaskThenRGB)) = true)
    by (vm_compute; reflexivity).
  split; [exact S|].
  exact (stop_is_final (P := tent) MaskThenRGB (stopRequested MaskThenRGB) S).
Defined.
Section EmptyCanvas.
Context {P : Platform}.

Lemma composite_empty_mask (ver : variant) (img : option ExtImage) (v : Video) (m : PersonMatte) :
  nonzero (_maskNice m) = false -> fst (_composite ver img v m) = Throw InvalidStateError.
Proof.
  unfold nonzero. rewrite negb_false_iff. intro Hn.
  destruct m as [o c r n s st f]. cbn [_maskNice] in Hn.
  destruct c as [cw ch cx csv cb], n as [nw nh nx nsv nb]. cbn [width height] in Hn.
  destruct ver; unfold _composite, _composite_MaskThenRGB, _composite_RGBThenMask;
    unfold_api; crunch; rewrite ?Hn; crunch; try reflexivity;
    destruct (imageOr img v) as [v'|b']; crunch;
    split_ifs; first [discriminate | congruence | reflexivity].
Qed.

Lemma onResults_empty_mask (ver : variant) (r : Results) (v : Video) (m : PersonMatte) :
  nonzero (_maskNice m) = false -> fst (_onResults ver r v m) = Throw InvalidStateError.
Proof.
  unfold nonzero. rewrite negb_false_iff. intro Hn.
  destruct m as [o c rw n s st f]. cbn [_maskNice] in Hn.
  destruct n as [nw nh nx nsv nb]. cbn [width height] in Hn.
  unfold _onResults, copyRawMask, emaSmooth; unfold_api; crunch.
  destruct ((bmWidth (segmentationMask r) =? 0)%N || (bmHeight (segmentationMask r) =? 0)%N);
    crunch; rewrite Hn; reflexivity.
Qed.

Lemma tick_empty_mask (ver : variant) (v : Video) (o : outcome) (m : PersonMatte) :
  nonzero (_maskNice m) = false ->
  exists c m', tick ver v o m = (c, m') /\ forall req, c <> Normal (req, Scheduled).
Proof.
  intro Hn. unfold tick, _tick_enter, bind, gets, incr_frame, modify, ret.
  destruct (_stopped m).
  - do 2 eexists. split; [reflexivity|]. intro; discriminate.
  - cbn [opts _frame next_frame].
    assert (Hn' : nonzero (_maskNice (next_frame m)) = false) by exact Hn.
    destruct ((1 <? divide (opts m))%Z && negb (Z.rem (_frame m + 1) (divide (opts m)) =? 0)%Z).
    + pose proof (composite_empty_mask ver (Some (ImgVideo v)) v _ Hn') as C.
      destruct (_composite ver (Some (ImgVideo v)) v (next_frame m)) as [[[]|e] m'];
        [discriminate|].
      do 2 eexists. split; [reflexivity|]. intro; discriminate.
    + destruct o as [r v'|v'].
      * pose proof (onResults_empty_mask ver r v' _ Hn') as C.
        destruct (_onResults ver r v' (next_frame m)) as [[[]|e] m']; [discriminate|].
        do 2 eexists. split; [reflexivity|]. intro; discriminate.
      * unfold _tick_rejected, bind, ret.
        pose proof (composite_empty_mask ver (Some (ImgVideo v')) v' _ Hn') as C.
        destruct (_composite ver (Some (ImgVideo v')) v' (next_frame m)) as [[[]|e] m'];
          [discriminate|].
        do 2 eexists. split; [reflexivity|]. intro; discriminate.
Qed.

Lemma tick_enter_skip_empty_mask (ver : variant) (v : Video) (m : PersonMatte) :
  nonzero (_maskNice m) = false -> _stopped m = false ->
  skips (opts m) (_frame m) = true ->
  fst (_tick_enter ver v m) = Throw InvalidStateError.
Proof.
  intros Hn Hst Sk. unfold _tick_enter, bind, gets, incr_frame, modify, ret.
  rewrite Hst. cbn [opts _frame next_frame].
  unfold skips in Sk. rewrite Sk.
  assert (Hn' : nonzero (_maskNice (next_frame m)) = false) by exact Hn.
  pose proof (composite_empty_mask ver (Some (ImgVideo v)) v _ Hn') as C.
  destruct (_composite ver (Some (ImgVideo v)) v (next_frame m)) as [[[]|e] m'];
    [discriminate|].
  cbn [fst] in *. now injection C as ->.
Qed.

Lemma tick_rejected_empty_mask (ver : variant) (v : Video) (m : PersonMatte) :
  nonzero (_maskNice m) = false ->
  fst (_tick_rejected ver v m) = Throw InvalidStateError.
Proof.
  intro Hn. unfold _tick_rejected, bind, ret.
  pose proof (composite_empty_mask ver (Some (ImgVideo v)) v _ Hn) as C.
  destruct (_composite ver (Some (ImgVideo v)) v m) as [[[]|e] m']; [discriminate|].
  cbn [fst] in *. now injection C as ->.
Qed.

Lemma settle_throw (r : completion tickExit * PersonMatte) (e : exn) (q k : nat) :
  fst r = Throw e -> queued (settle r q k) = q /\ suspended (settle r q k) = k.
Proof. destruct r as [[x|e'] m]; cbn; [discriminate | now split]. Qed.

(** X5: if the canvas [_maskNice] has width or height 0, every
    [_composite] and every [_onResults] throws InvalidStateError, and so does
    the [catch] block of [_tick]: a tick whose request is rejected, and a tick
    that skips its request, end there without reaching their
    requestAnimationFrame, and leave nothing queued. *)
Theorem empty_mask_canvas_ends_the_loop (ver : variant) (m : PersonMatte) :
  nonzero (_maskNice m) = false ->
  (forall img v, fst (_composite ver img v m) = Throw InvalidStateError) /\
  (forall r v, fst (_onResults ver r v m) = Throw InvalidStateError) /\
  (forall v, fst (_tick_rejected ver v m) = Throw InvalidStateError) /\
  (forall q k v s', step ver (mkSession m q (S k)) (EvSendRejected v) = Some s' ->
     queued s' = q /\ suspended s' = k) /\
  (forall q k v s', _stopped m = false -> skips (opts m) (_frame m) = true ->
     step ver (mkSession m (S q) k) (EvAnimationFrame v) = Some s' ->
     queued s' = q /\ suspended s' = k) /\
  (forall inputs, all_rejected inputs = true -> run_ticks ver inputs m = []).
Proof.
  intro Hn. repeat apply conj.
  - intros img v. now apply composite_empty_mask.
  - intros r v. now apply onResults_empty_mask.
  - intro v. now apply tick_rejected_empty_mask.
  - intros q k v s'. cbn [step suspended queued self]. intros [= <-].
    apply (settle_throw _ InvalidStateError). now apply tick_rejected_empty_mask.
  - intros q k v s' Hst Sk. cbn [step suspended queued self]. intros [= <-].
    apply (settle_throw _ InvalidStateError). now apply tick_enter_skip_empty_mask.
  - intros [|[v o] rest] A; [reflexivity|]. cbn [run_ticks].
    destruct (tick_empty_mask ver v o m Hn) as (c & m' & -> & N).
    destruct c as [[req [| |]]|e]; try reflexivity. now destruct (N req).
Qed.

End EmptyCanvas.

Lemma empty_mask_canvas_ends_the_loop_witness :
  nonzero (_maskNice unsized) = false /\
  (forall img v, fst (_composite (P := tent) MaskThenRGB img v unsized) = Throw InvalidStateError) /\
  (forall r v, fst (_onResults (P := tent) MaskThenRGB r v unsized) = Throw InvalidStateError) /\
  (forall v, fst (_tick_rejected (P := tent) MaskThenRGB v unsized) = Throw InvalidStateError) /\
  (forall q k v s',
     step (P := tent) MaskThenRGB (mkSession unsized q (S k)) (EvSendRejected v) = Some s' ->
     queued s' = q /\ suspended s' = k) /\
  (forall q k v s', _stopped unsized = false ->
     skips (opts unsized) (_frame unsized) = true ->
     step (P := tent) MaskThenRGB (mkSession unsized (S q) k) (EvAnimationFrame v) = Some s' ->
     queued s' = q /\ suspended s' = k) /\
  (forall inputs, all_rejected inputs = true ->
     run_ticks (P := tent) MaskThenRGB inputs unsized = []).
Proof.
  split; [reflexivity|].
  exact (empty_mask_canvas_ends_the_loop (P := tent) MaskThenRGB unsized eq_refl).
Defined.
(** ** Decimation: edge cases and counting *)

Lemma int32_small (z : Z) :
  (- 2 ^ 31 <= z < 2 ^ 31)%Z -> ((z + 2 ^ 31) mod 2 ^ 32 - 2 ^ 31)%Z = z.
Proof. intro H. rewrite Z.mod_small; lia. Qed.

Lemma this_inject_Z (z : Z) : (this (Q2Qc (inject_Z z)) == inject_Z z)%Q.
Proof. cbn [this Q2Qc]. apply Qred_correct. Qed.

Lemma Qtrunc_below_two (q : Qc) :
  Q2Qc (inject_Z (- 2 ^ 31 - 1)) < q -> q < two ->
  (- 2 ^ 31 <= Qtrunc q <= 1)%Z.
Proof.
  intros L U. unfold Qclt in L, U. rewrite this_inject_Z in L.
  assert (U' : (this q < inject_Z 2)%Q) by exact U.
  unfold Qtrunc. destruct (Qcleb 0 q) eqn:E.
  - apply Qcleb_le in E. unfold Qcle in E.
    assert (F0 : (0 <= Qfloor q)%Z).
    { change 0%Z with (Qfloor (inject_Z 0)). now apply Qfloor_resp_le. }
    assert (F2 : (Qfloor q < 2)%Z).
    { rewrite Zlt_Qlt. apply Qle_lt_trans with (this q); [apply Qfloor_le | exact U']. }
    lia.
  - assert (N : (this q <= 0)%Q).
    { apply Qlt_le_weak. apply Qnot_le_lt. intro C.
      assert (T : Qcleb 0 q = true) by (apply Qcleb_le; exact C). congruence. }
    assert (C0 : (Qceiling q <= 0)%Z).
    { change 0%Z with (Qceiling (inject_Z 0)). now apply Qceiling_resp_le. }
    assert (C1 : (- 2 ^ 31 - 1 < Qceiling q)%Z).
    { rewrite Zlt_Qlt. apply Qlt_le_trans with (this q); [exact L | apply Qle_ceiling]. }
    lia.
Qed.

Lemma divider_below_two (o : Opts) :
  Q2Qc (inject_Z (- 2 ^ 31 - 1)) < depthFpsDivider o -> depthFpsDivider o < two ->
  divide o = 1%Z.
Proof.
  intros L U. pose proof (Qtrunc_below_two _ L U) as T.
  unfold divide, ToInt32. rewrite int32_small by lia. lia.
Qed.

Lemma div_succ (f k : Z) :
  (0 <= f)%Z -> (1 < k)%Z ->
  ((f + 1) / k = f / k + (if ((f + 1) mod k =? 0)%Z then 1 else 0))%Z.
Proof.
  intros F K.
  pose proof (Z.div_mod f k ltac:(lia)) as D.
  pose proof (Z.mod_pos_bound f k ltac:(lia)) as B.
  destruct (Z.eq_dec (f mod k + 1) k) as [E|E].
  - assert (M : ((f + 1) mod k = 0)%Z).
    { symmetry. apply (Z.mod_unique _ _ (f / k + 1)); lia. }
    rewrite M. cbn. symmetry. apply (Z.div_unique _ _ _ 0); lia.
  - assert (M : ((f + 1) mod k = f mod k + 1)%Z).
    { symmetry. apply (Z.mod_unique _ _ (f / k)); lia. }
    rewrite M. destruct (Z.eqb_spec (f mod k + 1) 0); [lia|].
    symmetry. apply (Z.div_unique _ _ _ (f mod k + 1)); lia.
Qed.

Section Decimation.
Context {P : Platform}.

(** X6: a [depthFpsDivider] below 2 (fractions such as 1.9, zero and
    negative values above -2^31 - 1 included) switches decimation off: every
    tick of the session calls [send]. *)
Theorem divider_below_two_requests_every_tick (ver : variant)
    (inputs : list (Video * outcome)) (m : PersonMatte) :
  Q2Qc (inject_Z (- 2 ^ 31 - 1)) < depthFpsDivider (opts m) ->
  depthFpsDivider (opts m) < two ->
  sized m = true -> _stopped m = false ->
  length (run_ticks ver inputs m) = length inputs /\
  forall rec, In rec (run_ticks ver inputs m) -> requested rec = true.
Proof.
  intros L U. pose proof (divider_below_two _ L U) as D. clear L U.
  revert m D. induction inputs as [|[v o] rest IH]; intros m D Hs Hst; cbn [run_ticks].
  - split; [reflexivity | intros rec []].
  - destruct (tick_runs ver v o m Hs Hst) as (m' & -> & Hs' & Hst' & _ & Ho & _).
    assert (D' : divide (opts m') = 1%Z) by now rewrite Ho.
    destruct (IH m' D' Hs' Hst') as [Len All].
    split; [cbn [length]; now rewrite Len|].
    intros rec [<-|I]; [|now apply All].
    cbn [requested]. unfold skips. now rewrite D.
Qed.

Lemma requests_counted (ver : variant) (k : Z) (inputs : list (Video * outcome)) :
  (1 < k)%Z ->
  forall m, divide (opts m) = k -> sized m = true -> _stopped m = false ->
    (0 <= _frame m)%Z ->
    Z.of_nat (requests (run_ticks ver inputs m))
    = ((_frame m + Z.of_nat (length inputs)) / k - _frame m / k)%Z.
Proof.
  intro K. induction inputs as [|[v o] rest IH]; intros m D Hs Hst Hf; cbn [run_ticks].
  - cbn. rewrite Z.add_0_r. lia.
  - destruct (tick_runs ver v o m Hs Hst) as (m' & -> & Hs' & Hst' & Hf' & Ho & _).
    assert (D' : divide (opts m') = k) by now rewrite Ho.
    specialize (IH m' D' Hs' Hst' ltac:(lia)).
    unfold requests in *. cbn [List.filter requested length].
    rewrite Hf' in IH.
    pose proof (div_succ (_frame m) k Hf K) as Dv.
    unfold skips. rewrite D.
    replace (1 <? k)%Z with true by (symmetry; now apply Z.ltb_lt).
    cbn [andb]. rewrite negb_involutive.
    rewrite Z.rem_mod_nonneg by lia.
    replace (_frame m + Z.of_nat (S (length rest)))%Z
      with (_frame m + 1 + Z.of_nat (length rest))%Z by lia.
    destruct ((_frame m + 1) mod k =? 0)%Z; cbn [length]; lia.
Qed.

(** X7: with an integer divider k > 1, the first n ticks of a session
    call [send] floor(n / k) times. *)
Theorem requests_are_one_in_k (ver : variant) (k : Z)
    (inputs : list (Video * outcome)) (m : PersonMatte) :
  (1 < k < 2 ^ 31)%Z ->
  depthFpsDivider (opts m) = Q2Qc (inject_Z k) ->
  sized m = true -> _stopped m = false -> _frame m = 0%Z ->
  Z.of_nat (requests (run_ticks ver inputs m)) = (Z.of_nat (length inputs) / k)%Z.
Proof.
  intros K Hd Hs Hst Hf.
  assert (D : divide (opts m) = k) by (apply divide_Z; [lia | exact Hd]).
  rewrite (requests_counted ver k inputs ltac:(lia) m D Hs Hst ltac:(lia)), Hf.
  cbn. now rewrite Z.sub_0_r.
Qed.

End Decimation.

Lemma divider_below_two_requests_every_tick_witness :
  Q2Qc (inject_Z (- 2 ^ 31 - 1)) < depthFpsDivider (opts (started fractional)) /\
  depthFpsDivider (opts (started fractional)) < two /\
  sized (started fractional) = true /\ _stopped (started fractional) = false /\
  length (run_ticks (P := tent) RGBThenMask threeTicks (started fractional))
  = length threeTicks /\
  forall rec, In rec (run_ticks (P := tent) RGBThenMask threeTicks (started fractional)) ->
    requested rec = true.
Proof.
  assert (L : Q2Qc (inject_Z (- 2 ^ 31 - 1)) < depthFpsDivider (opts (started fractional)))
    by reflexivity.
  assert (U : depthFpsDivider (opts (started fractional)) < two) by reflexivity.
  split; [exact L|]. split; [exact U|]. split; [reflexivity|]. split; [reflexivity|].
  exact (divider_below_two_requests_every_tick (P := tent) RGBThenMask threeTicks
           (started fractional) L U eq_refl eq_refl).
Defined.

Lemma requests_are_one_in_k_witness :
  (1 < 2 < 2 ^ 31)%Z /\
  depthFpsDivider (opts started2) = Q2Qc (inject_Z 2) /\
  sized started2 = true /\ _stopped started2 = false /\ _frame started2 = 0%Z /\
  Z.of_nat (requests (run_ticks (P := tent) MaskThenRGB threeTicks started2))
  = (Z.of_nat (length threeTicks) / 2)%Z.
Proof.
  assert (K : (1 < 2 < 2 ^ 31)%Z) by lia.
  assert (D : depthFpsDivider (opts started2) = Q2Qc (inject_Z 2))
    by (apply Qc_is_canon; reflexivity).
  split; [exact K|]. split; [exact D|]. repeat (split; [reflexivity|]).
  exact (requests_are_one_in_k (P := tent) MaskThenRGB 2 threeTicks started2 K D
           eq_refl eq_refl eq_refl).
Defined.
(** ** Before the first mask *)

Section FirstMask.
Context {P : Platform}.

Lemma composite_clear_mask (ver : variant) (img : option ExtImage) (v : Video) (m : PersonMatte) :
  coherent m = true -> plain (context (canvas m)) ->
  (forall x y, inb (_maskNice m) x y = true -> alpha (bitmap (_maskNice m) x y) = 0) ->
  forall x y, inb (canvas m) x y = true ->
    alpha (bitmap (canvas (snd (_composite ver img v m))) x y) = 0.
Proof.
  intros Hco Hp Z x y Hin. destruct (coherent_parts m Hco) as (_ & _ & _ & Hs).
  assert (Z' : forall x y,
             in_rect 0 0 (Qn (width (canvas m))) (Qn (height (canvas m))) x y = true ->
             alpha (bitmap (_maskNice m) x y) = 0).
  { intros u w E. apply Z. rewrite (inb_same_size _ _ u w Hs). exact E. }
  destruct (has_frame (imageOr img v)) eqn:Hf.
  - rewrite (composite_px_law ver img v m Hco Hp Hf x y Hin).
    destruct ver; cbn [composite_law].
    + unfold mask_first_composite. cbn [px_scale alpha].
      rewrite (matte_alpha_zero _ _ _ _ _ Z' x y Hin). ring.
    + now rewrite (spec_composite_zero _ _ _ _ _ _ Z' x y Hin).
  - rewrite (composite_noframe_px ver img v m Hco Hp Hf x y Hin).
    destruct ver; [|reflexivity].
    exact (matte_alpha_zero _ _ _ _ _ Z' x y Hin).
Qed.

(** X8: as long as no mask has been delivered, the output stays
    fully transparent: on a session at rest whose [_maskNice] is clear, however
    many requests fail, every tick completes and leaves alpha 0 on every pixel
    of the output, whatever the video shows. *)
Theorem no_picture_before_first_mask (ver : variant)
    (inputs : list (Video * outcome)) (m : PersonMatte) :
  at_rest m -> _stopped m = false ->
  (forall x y, inb (_maskNice m) x y = true -> alpha (bitmap (_maskNice m) x y) = 0) ->
  all_rejected inputs = true ->
  length (run_ticks ver inputs m) = length inputs /\
  forall rec, In rec (run_ticks ver inputs m) ->
    forall x y, inb (canvas m) x y = true -> alpha (bitmap (canvas (after rec)) x y) = 0.
Proof.
  revert m. induction inputs as [|[v o] rest IH]; intros m R Hst Z A; cbn [run_ticks].
  - split; [reflexivity | intros rec []].
  - cbn [all_rejected forallb snd] in A. apply andb_true_iff in A. destruct A as [Ao A].
    destruct o as [r v'|v']; [discriminate|].
    pose proof R as (Hco & Hp & _).
    destruct (coherent_parts m Hco) as (Hs & _).
    destruct (tick_without_mask ver v (Rejected v') m Hs Hst
                (or_intror (ex_intro _ v' eq_refl))) as (b & C & T).
    rewrite T.
    set (live := live_video v (Rejected v') (skips (opts m) (_frame m))) in *.
    set (m' := setC Out (with_bitmap (canvas m) b) (next_frame m)) in *.
    assert (R1 : at_rest (next_frame m)) by exact R.
    assert (R' : at_rest m').
    { pose proof (composite_at_rest ver (Some (ImgVideo live)) live _ R1) as X.
      now rewrite C in X. }
    assert (Px : forall x y, inb (canvas m) x y = true -> alpha (bitmap (canvas m') x y) = 0).
    { intros x y Hin.
      pose proof (composite_clear_mask ver (Some (ImgVideo live)) live (next_frame m)
                    Hco Hp Z x y Hin) as X.
      now rewrite C in X. }
    destruct (IH m' R' Hst Z A) as [Len All].
    split; [cbn [length]; now rewrite Len|].
    intros rec [<-|I]; [exact Px|].
    intros x y Hin. exact (All rec I x y Hin).
Qed.

End FirstMask.

Lemma started_is_at_rest (arg : OptsArg) : at_rest (started arg).
Proof. apply (sizeAll_at_rest 4 4); discriminate. Qed.

Lemma no_picture_before_first_mask_witness :
  at_rest (started noOpts) /\ _stopped (started noOpts) = false /\
  (forall x y, inb (_maskNice (started noOpts)) x y = true ->
     alpha (bitmap (_maskNice (started noOpts)) x y) = 0) /\
  all_rejected twoFailures = true /\
  length (run_ticks (P := tent) MaskThenRGB twoFailures (started noOpts))
  = length twoFailures /\
  forall rec, In rec (run_ticks (P := tent) MaskThenRGB twoFailures (started noOpts)) ->
    forall x y, inb (canvas (started noOpts)) x y = true ->
      alpha (bitmap (canvas (after rec)) x y) = 0.
Proof.
  assert (Z : forall x y, inb (_maskNice (started noOpts)) x y = true ->
              alpha (bitmap (_maskNice (started noOpts)) x y) = 0)
    by (intros x y _; reflexivity).
  split; [exact (started_is_at_rest noOpts)|]. split; [reflexivity|]. split; [exact Z|].
  split; [reflexivity|].
  exact (no_picture_before_first_mask (P := tent) MaskThenRGB twoFailures (started noOpts)
           (started_is_at_rest noOpts) eq_refl Z eq_refl).
Defined.
(** ** The smoother at its bounds *)

Lemma this_plus (x y : Qc) : (this (x + y) == this x + this y)%Q.
Proof. cbn [this Qcplus Q2Qc]. apply Qred_correct. Qed.

Lemma this_mult (x y : Qc) : (this (x * y) == this x * this y)%Q.
Proof. cbn [this Qcmult Q2Qc]. apply Qred_correct. Qed.

Lemma this_opp (x : Qc) : (this (- x) == - this x)%Q.
Proof. cbn [this Qcopp Q2Qc]. apply Qred_correct. Qed.

Lemma this_minus (x y : Qc) : (this (x - y) == this x - this y)%Q.
Proof. unfold Qcminus. rewrite this_plus, this_opp. reflexivity. Qed.

Ltac to_Q :=
  unfold Qcle, Qclt in *;
  repeat first [ rewrite this_plus in * | rewrite this_mult in *
               | rewrite this_minus in * | rewrite this_opp in * ];
  change (this 0) with 0%Q in *; change (this 1) with 1%Q in *.

Lemma ema_code_bounds (a : Qc) (S_prev R : pixel) :
  0 <= a <= 1 -> 0 <= alpha S_prev <= 1 -> 0 <= alpha R <= 1 ->
  0 <= alpha (ema_code a S_prev R) /\
  alpha (ema_code a S_prev R) <= alpha (ema_spec a S_prev R) /\
  alpha (ema_spec a S_prev R) <= 1 /\
  alpha (ema_code a S_prev R) <= 1 - a * (1 - a).
Proof.
  intros [A0 A1] [S0 S1] [R0 R1].
  unfold ema_code, ema_spec, over. cbn [px_add px_scale alpha].
  to_Q.
  set (A := this a) in *. set (S := this (alpha S_prev)) in *. set (T := this (alpha R)) in *.
  assert (P1 : (0 <= A * T)%Q) by (apply Qmult_le_0_compat; assumption).
  assert (P2 : (0 <= A * (1 - T))%Q) by (apply Qmult_le_0_compat; lra).
  assert (P3 : (0 <= (1 - A) * S)%Q) by (apply Qmult_le_0_compat; lra).
  assert (P4 : (0 <= (1 - A) * (1 - S))%Q) by (apply Qmult_le_0_compat; lra).
  assert (P5 : (0 <= (1 - A * T) * ((1 - A) * S))%Q) by (apply Qmult_le_0_compat; lra).
  assert (P6 : (0 <= (A * T) * ((1 - A) * S))%Q) by (apply Qmult_le_0_compat; lra).
  assert (P7 : (0 <= (1 - A * T) * ((1 - A) * (1 - S)))%Q)
    by (apply Qmult_le_0_compat; lra).
  assert (P8 : (0 <= A * (A * (1 - T)))%Q)
    by (apply Qmult_le_0_compat; [|apply Qmult_le_0_compat]; lra).
  repeat apply conj; lra.
Qed.

Lemma ema_code_one (S_prev R : pixel) : ema_code 1 S_prev R = R.
Proof.
  unfold ema_code. replace (1 - 1) with 0 by ring.
  now rewrite px_scale_0, px_scale_1, over_transparent_r.
Qed.

Lemma ema_code_zero (S_prev R : pixel) : ema_code 0 S_prev R = S_prev.
Proof.
  unfold ema_code. replace (1 - 0) with 1 by ring.
  now rewrite px_scale_0, px_scale_1, over_transparent_l.
Qed.

Lemma out_of_range (a : Qc) :
  a < 0 \/ 1 < a ->
  Qcleb 0 a && Qcleb a 1 = false /\ Qcleb 0 (1 - a) && Qcleb (1 - a) 1 = false.
Proof.
  intro H. split; apply andb_false_iff.
  - destruct H as [H|H]; [left|right]; apply not_true_is_false; intro C;
      apply Qcleb_le in C; exact (Qclt_not_le _ _ H C).
  - destruct H as [H|H]; [right|left]; apply not_true_is_false; intro C;
      apply Qcleb_le in C; to_Q; lra.
Qed.

Section Bounds.
Context {P : Platform}.

Lemma emaSmooth_px_ignored (m : PersonMatte) :
  coherent m = true ->
  plain (context (_scratch m)) ->
  context (_maskNice m) = defaultContext ->
  emaAlpha (opts m) < 0 \/ 1 < emaAlpha (opts m) ->
  exists m',
    emaSmooth (Qn (width (canvas m))) (Qn (height (canvas m))) m = (Normal tt, m') /\
    forall x y, inb (_maskNice m) x y = true ->
      bitmap (_maskNice m') x y
      = over (bitmap (_maskRaw m) x y) (bitmap (_maskNice m) x y).
Proof.
  intros Hco [Sa Sf] Nx Ha.
  destruct (out_of_range _ Ha) as [T1 T2].
  unfold coherent in Hco. rewrite !andb_true_iff in Hco.
  destruct Hco as [[[Hs Hr] Hn] Hsc].
  destruct (sized_dims m Hs) as (Hc0 & Hr0 & Hn0 & Hs0).
  apply same_size_eq in Hr, Hn, Hsc. destruct Hr as [Rw Rh], Hn as [Nw Nh], Hsc as [Sw Sh].
  assert (Qw : Qn (width (canvas m)) <> 0 /\ Qn (height (canvas m)) <> 0).
  { apply nonzero_Qn. unfold nonzero. now rewrite Hc0. }
  destruct Qw as [Qw Qh]. clear Hs Ha.
  destruct m as [o c r n s st f].
  destruct c as [cw ch cx csv cb], r as [rw rh rx rsv rb], n as [nw nh nx nsv nb],
           s as [sw sh sx ssv sb].
  destruct sx as [sop sa sf].
  cbn [canvas _maskRaw _maskNice _scratch opts width height context globalAlpha filter
       globalCompositeOperation] in *.
  subst rw rh nw nh sw sh nx sa sf.
  assert (T3 : Qcleb 0 1 && Qcleb 1 1 = true) by reflexivity.
  unfold emaSmooth; unfold_api; crunch.
  repeat (progress (rewrite ?Hc0, ?T1, ?T2, ?T3; crunch)).
  eexists. split; [reflexivity|]. crunch.
  intros x y Hin. unfold inb in Hin. cbn [width height] in Hin.
  crunch_px. rewrite ?Hin. unfold composite_px.
  rewrite ?place_same_size by assumption. rewrite ?Hin.
  rewrite ?px_scale_1, ?over_transparent_r. reflexivity.
Qed.

(** The mask that blocks 1 and 2 leave, from the mask they found and the
    raw mask of this update. *)
Lemma smoothed_state_parts (r : Results) (m : PersonMatte) :
  coherent m = true ->
  exists m1,
    copyRawMask r (Qn (width (canvas m))) (Qn (height (canvas m))) m = (Normal tt, m1) /\
    coherent m1 = true /\ opts m1 = opts m /\ canvas m1 = canvas m /\
    _maskNice m1 = _maskNice m /\ _scratch m1 = _scratch m /\
    smoothed_state r m
    = snd (emaSmooth (Qn (width (canvas m1))) (Qn (height (canvas m1))) m1) /\
    _maskRaw (smoothed_state r m) = _maskRaw m1.
Proof.
  intro Hco.
  destruct (copyRawMask_frame r (Qn (width (canvas m))) (Qn (height (canvas m))) m)
    as (m1 & E1 & S1 & N1 & Sc1).
  pose proof (stable_coherent _ _ S1 Hco) as Hco1.
  pose proof S1 as (O1 & C1 & _).
  exists m1. repeat (split; [assumption|]).
  assert (Sm : smoothed_state r m
               = snd (emaSmooth (Qn (width (canvas m1))) (Qn (height (canvas m1))) m1)).
  { unfold smoothed_state. rewrite E1. cbn [snd]. now rewrite C1. }
  split; [exact Sm|].
  destruct (coherent_parts m1 Hco1) as (Hs1 & _).
  destruct (emaSmooth_frame (Qn (width (canvas m1))) (Qn (height (canvas m1))) m1 Hs1)
    as (m2 & E2 & _ & R2).
  rewrite Sm, E2. exact R2.
Qed.

Lemma smoothed_state_px (r : Results) (m : PersonMatte) :
  at_rest m -> 0 <= emaAlpha (opts m) <= 1 ->
  forall x y, inb (_maskNice m) x y = true ->
    bitmap (_maskNice (smoothed_state r m)) x y
    = ema_code (emaAlpha (opts m)) (bitmap (_maskNice m) x y)
        (bitmap (_maskRaw (smoothed_state r m)) x y).
Proof.
  intros (Hco & _ & _ & Hsc & Hn) Ha x y Hin.
  destruct (smoothed_state_parts r m Hco) as (m1 & _ & Hco1 & O1 & _ & N1 & Sc1 & Sm & Rw).
  destruct (emaSmooth_px m1 Hco1) as (m2 & E2 & _ & _ & F2);
    [now rewrite Sc1 | now rewrite N1, Hn | now rewrite N1, Hn | now rewrite O1|].
  rewrite Rw, Sm, E2. cbn [snd].
  assert (Hin1 : inb (_maskNice m1) x y = true) by now rewrite N1.
  destruct (F2 x y Hin1) as [Fn _]. now rewrite Fn, O1, N1.
Qed.

(** X9: with [emaAlpha] = a in [0, 1] and mask opacities in [0, 1], the
    opacity that blocks 1 and 2 of [_onResults] leave in [_maskNice] is in
    [0, 1], never above the exponential average (1 - a) S_prev + a R, and never
    above 1 - a (1 - a): for 0 < a < 1 the smoothed mask is never fully
    opaque. *)
Theorem smoothed_opacity_stays_below_average (r : Results) (m : PersonMatte) (x y : Qc) :
  at_rest m -> 0 <= emaAlpha (opts m) <= 1 ->
  inb (_maskNice m) x y = true ->
  0 <= alpha (bitmap (_maskNice m) x y) <= 1 ->
  0 <= alpha (bitmap (_maskRaw (smoothed_state r m)) x y) <= 1 ->
  0 <= alpha (bitmap (_maskNice (smoothed_state r m)) x y) /\
  alpha (bitmap (_maskNice (smoothed_state r m)) x y)
  <= alpha (ema_spec (emaAlpha (opts m)) (bitmap (_maskNice m) x y)
              (bitmap (_maskRaw (smoothed_state r m)) x y)) /\
  alpha (ema_spec (emaAlpha (opts m)) (bitmap (_maskNice m) x y)
           (bitmap (_maskRaw (smoothed_state r m)) x y)) <= 1 /\
  alpha (bitmap (_maskNice (smoothed_state r m)) x y)
  <= 1 - emaAlpha (opts m) * (1 - emaAlpha (opts m)).
Proof.
  intros R Ha Hin Hs Hr.
  rewrite (smoothed_state_px r m R Ha x y Hin).
  now apply ema_code_bounds.
Qed.

(** X10: an [emaAlpha] below 0 or above 1 is not rejected: both
    assignments to [globalAlpha] are ignored by the canvas, and blocks 1 and 2
    leave the raw mask drawn at full opacity over the previous mask. *)
Theorem out_of_range_emaAlpha_is_ignored (r : Results) (m : PersonMatte) :
  at_rest m -> emaAlpha (opts m) < 0 \/ 1 < emaAlpha (opts m) ->
  forall x y, inb (_maskNice m) x y = true ->
    bitmap (_maskNice (smoothed_state r m)) x y
    = over (bitmap (_maskRaw (smoothed_state r m)) x y) (bitmap (_maskNice m) x y).
Proof.
  intros (Hco & _ & _ & Hsc & Hn) Ha x y Hin.
  destruct (smoothed_state_parts r m Hco) as (m1 & _ & Hco1 & O1 & _ & N1 & Sc1 & Sm & Rw).
  destruct (emaSmooth_px_ignored m1 Hco1) as (m2 & E2 & F2);
    [now rewrite Sc1 | now rewrite N1 | now rewrite O1|].
  rewrite Rw, Sm, E2. cbn [snd].
  assert (Hin1 : inb (_maskNice m1) x y = true) by now rewrite N1.
  now rewrite (F2 x y Hin1), N1.
Qed.

(** X11: at [emaAlpha] = 0 blocks 1 and 2 leave [_maskNice] as it was
    (the new mask is ignored); at [emaAlpha] = 1 they leave the raw mask of
    this update (no smoothing). *)
Theorem emaAlpha_at_its_bounds (r : Results) (m : PersonMatte) :
  at_rest m ->
  forall x y, inb (_maskNice m) x y = true ->
    (emaAlpha (opts m) = 0 ->
     bitmap (_maskNice (smoothed_state r m)) x y = bitmap (_maskNice m) x y) /\
    (emaAlpha (opts m) = 1 ->
     bitmap (_maskNice (smoothed_state r m)) x y
     = bitmap (_maskRaw (smoothed_state r m)) x y).
Proof.
  intros R x y Hin. split; intro E.
  - assert (A : 0 <= emaAlpha (opts m) <= 1)
      by (rewrite E; split; apply Qcleb_le; reflexivity).
    rewrite (smoothed_state_px r m R A x y Hin), E. apply ema_code_zero.
  - assert (A : 0 <= emaAlpha (opts m) <= 1)
      by (rewrite E; split; apply Qcleb_le; reflexivity).
    rewrite (smoothed_state_px r m R A x y Hin), E. apply ema_code_one.
Qed.

(** X12: on a clear [_maskNice], as [start] leaves it, blocks 1 and 2
    leave the raw mask scaled by [emaAlpha]: the first response is blended
    with a transparent previous mask, as the exponential average has it. *)
Theorem first_response_is_the_raw_mask_at_emaAlpha (r : Results) (m : PersonMatte) :
  at_rest m -> 0 <= emaAlpha (opts m) <= 1 ->
  (forall x y, inb (_maskNice m) x y = true -> bitmap (_maskNice m) x y = transparent) ->
  forall x y, inb (_maskNice m) x y = true ->
    bitmap (_maskNice (smoothed_state r m)) x y
    = px_scale (emaAlpha (opts m)) (bitmap (_maskRaw (smoothed_state r m)) x y) /\
    bitmap (_maskNice (smoothed_state r m)) x y
    = ema_spec (emaAlpha (opts m)) transparent (bitmap (_maskRaw (smoothed_state r m)) x y).
Proof.
  intros R Ha Z x y Hin.
  rewrite (smoothed_state_px r m R Ha x y Hin), (Z x y Hin), ema_first_response.
  split; [|reflexivity].
  unfold ema_spec. rewrite px_scale_transparent.
  apply pixel_eq; cbn [px_add px_scale transparent red green blue alpha]; ring.
Qed.

End Bounds.

Lemma smoothed_opacity_stays_below_average_witness :
  at_rest (started noOpts) /\ 0 <= emaAlpha (opts (started noOpts)) <= 1 /\
  inb (_maskNice (started noOpts)) 1 1 = true /\
  0 <= alpha (bitmap (_maskNice (started noOpts)) 1 1) <= 1 /\
  0 <= alpha (bitmap (_maskRaw (smoothed_state (P := tent) maskRes (started noOpts))) 1 1) <= 1 /\
  0 <= alpha (bitmap (_maskNice (smoothed_state (P := tent) maskRes (started noOpts))) 1 1) /\
  alpha (bitmap (_maskNice (smoothed_state (P := tent) maskRes (started noOpts))) 1 1)
  <= alpha (ema_spec (emaAlpha (opts (started noOpts)))
              (bitmap (_maskNice (started noOpts)) 1 1)
              (bitmap (_maskRaw (smoothed_state (P := tent) maskRes (started noOpts))) 1 1)) /\
  alpha (ema_spec (emaAlpha (opts (started noOpts)))
           (bitmap (_maskNice (started noOpts)) 1 1)
           (bitmap (_maskRaw (smoothed_state (P := tent) maskRes (started noOpts))) 1 1)) <= 1 /\
  alpha (bitmap (_maskNice (smoothed_state (P := tent) maskRes (started noOpts))) 1 1)
  <= 1 - emaAlpha (opts (started noOpts)) * (1 - emaAlpha (opts (started noOpts))).
Proof.
  assert (A : 0 <= emaAlpha (opts (started noOpts)) <= 1)
    by (split; apply Qcleb_le; vm_compute; reflexivity).
  assert (I : inb (_maskNice (started noOpts)) 1 1 = true) by (vm_compute; reflexivity).
  assert (S : 0 <= alpha (bitmap (_maskNice (started noOpts)) 1 1) <= 1)
    by (split; apply Qcleb_le; vm_compute; reflexivity).
  assert (R : 0 <= alpha (bitmap (_maskRaw (smoothed_state (P := tent) maskRes
                                              (started noOpts))) 1 1) <= 1)
    by (split; apply Qcleb_le; vm_compute; reflexivity).
  split; [exact (started_is_at_rest noOpts)|].
  split; [exact A|]. split; [exact I|]. split; [exact S|]. split; [exact R|].
  exact (smoothed_opacity_stays_below_average (P := tent) maskRes (started noOpts) 1 1
           (started_is_at_rest noOpts) A I S R).
Defined.

Lemma out_of_range_emaAlpha_is_ignored_witness :
  at_rest (started wild) /\
  (emaAlpha (opts (started wild)) < 0 \/ 1 < emaAlpha (opts (started wild))) /\
  forall x y, inb (_maskNice (started wild)) x y = true ->
    bitmap (_maskNice (smoothed_state (P := tent) maskRes (started wild))) x y
    = over (bitmap (_maskRaw (smoothed_state (P := tent) maskRes (started wild))) x y)
           (bitmap (_maskNice (started wild)) x y).
Proof.
  assert (A : emaAlpha (opts (started wild)) < 0 \/ 1 < emaAlpha (opts (started wild)))
    by (right; reflexivity).
  split; [exact (started_is_at_rest wild)|]. split; [exact A|].
  exact (out_of_range_emaAlpha_is_ignored (P := tent) maskRes (started wild)
           (started_is_at_rest wild) A).
Defined.

Lemma emaAlpha_at_its_bounds_witness :
  (at_rest (started frozen) /\ inb (_maskNice (started frozen)) 1 1 = true /\
   emaAlpha (opts (started frozen)) = 0 /\
   bitmap (_maskNice (smoothed_state (P := tent) maskRes (started frozen))) 1 1
   = bitmap (_maskNice (started frozen)) 1 1) /\
  (at_rest (started crisp) /\ inb (_maskNice (started crisp)) 1 1 = true /\
   emaAlpha (opts (started crisp)) = 1 /\
   bitmap (_maskNice (smoothed_state (P := tent) maskRes (started crisp))) 1 1
   = bitmap (_maskRaw (smoothed_state (P := tent) maskRes (started crisp))) 1 1).
Proof.
  assert (I0 : inb (_maskNice (started frozen)) 1 1 = true) by (vm_compute; reflexivity).
  assert (I1 : inb (_maskNice (started crisp)) 1 1 = true) by (vm_compute; reflexivity).
  split.
  - split; [exact (started_is_at_rest frozen)|]. split; [exact I0|]. split; [reflexivity|].
    exact (proj1 (emaAlpha_at_its_bounds (P := tent) maskRes (started frozen)
                    (started_is_at_rest frozen) 1 1 I0) eq_refl).
  - split; [exact (started_is_at_rest crisp)|]. split; [exact I1|]. split; [reflexivity|].
    exact (proj2 (emaAlpha_at_its_bounds (P := tent) maskRes (started crisp)
                    (started_is_at_rest crisp) 1 1 I1) eq_refl).
Defined.

Lemma first_response_is_the_raw_mask_at_emaAlpha_witness :
  at_rest (started noOpts) /\ 0 <= emaAlpha (opts (started noOpts)) <= 1 /\
  (forall x y, inb (_maskNice (started noOpts)) x y = true ->
     bitmap (_maskNice (started noOpts)) x y = transparent) /\
  forall x y, inb (_maskNice (started noOpts)) x y = true ->
    bitmap (_maskNice (smoothed_state (P := tent) maskRes (started noOpts))) x y
    = px_scale (emaAlpha (opts (started noOpts)))
        (bitmap (_maskRaw (smoothed_state (P := tent) maskRes (started noOpts))) x y) /\
    bitmap (_maskNice (smoothed_state (P := tent) maskRes (started noOpts))) x y
    = ema_spec (emaAlpha (opts (started noOpts))) transparent
        (bitmap (_maskRaw (smoothed_state (P := tent) maskRes (started noOpts))) x y).
Proof.
  assert (A : 0 <= emaAlpha (opts (started noOpts)) <= 1)
    by (split; apply Qcleb_le; vm_compute; reflexivity).
  assert (Z : forall x y, inb (_maskNice (started noOpts)) x y = true ->
              bitmap (_maskNice (started noOpts)) x y = transparent)
    by (intros x y _; reflexivity).
  split; [exact (started_is_at_rest noOpts)|]. split; [exact A|]. split; [exact Z|].
  exact (first_response_is_the_raw_mask_at_emaAlpha (P := tent) maskRes (started noOpts)
           (started_is_at_rest noOpts) A Z).
Defined.
(** ** The shaper without radii *)

Section ShaperOff.
Context {P : Platform}.

Lemma copyRawMask_keeps_opts (r : Results) (w h : Qc) : keeps_opts (copyRawMask r w h).
Proof.
  unfold copyRawMask, set_globalCompositeOperation. leaves_alone.
  apply drawImage_leaves_alone.
Qed.

Lemma emaSmooth_keeps_opts (w h : Qc) : keeps_opts (emaSmooth w h).
Proof.
  unfold emaSmooth, clearRect, set_globalCompositeOperation, set_globalAlpha.
  leaves_alone; apply drawImage_leaves_alone.
Qed.

(** X13: when [dilatePx] and [featherPx] are both at most 0, block 3 of
    [_onResults] does nothing: the listener leaves in [_maskNice] the canvas
    that blocks 1 and 2 left. *)
Theorem shaper_is_skipped_without_radii (ver : variant) (r : Results) (v : Video)
    (m : PersonMatte) :
  dilatePx (opts m) <= 0 -> featherPx (opts m) <= 0 ->
  _maskNice (snd (_onResults ver r v m)) = _maskNice (smoothed_state r m).
Proof.
  intros Hd Hf.
  assert (T : Qcltb 0 (dilatePx (opts m)) || Qcltb 0 (featherPx (opts m)) = false).
  { apply orb_false_iff. unfold Qcltb. rewrite !negb_false_iff.
    split; now apply Qcleb_le. }
  unfold _onResults, smoothed_state. unfold bind at 1 2. unfold gets.
  set (w := Qn (width (canvas m))). set (h := Qn (height (canvas m))).
  pose proof (copyRawMask_keeps_opts r w h m) as O1.
  destruct (copyRawMask_frame r w h m) as (m1 & E1 & _).
  rewrite E1 in O1. unfold bind at 1. rewrite E1. cbn [snd] in *.
  pose proof (emaSmooth_keeps_opts w h m1) as O2.
  unfold bind at 1.
  destruct (emaSmooth w h m1) as [[[]|e] m2]; [|reflexivity]. cbn [snd] in *.
  unfold bind at 1. unfold featherDilate at 1. unfold bind at 1. unfold gets at 1.
  rewrite O2, O1, T. unfold ret at 1.
  apply (composite_output_only ver (image r) v m2).
Qed.

End ShaperOff.

Lemma shaper_is_skipped_without_radii_witness :
  dilatePx (opts (started sharp)) <= 0 /\ featherPx (opts (started sharp)) <= 0 /\
  _maskNice (snd (_onResults (P := tent) MaskThenRGB maskRes cam (started sharp)))
  = _maskNice (smoothed_state (P := tent) maskRes (started sharp)).
Proof.
  assert (D : dilatePx (opts (started sharp)) <= 0) by (apply Qcleb_le; reflexivity).
  assert (F : featherPx (opts (started sharp)) <= 0) by (apply Qcleb_le; reflexivity).
  split; [exact D|]. split; [exact F|].
  exact (shaper_is_skipped_without_radii (P := tent) MaskThenRGB maskRes cam
           (started sharp) D F).
Defined.
(** ** Where the frame is drawn *)

Lemma this_inv (x : Qc) : (this (/ x) == / this x)%Q.
Proof. cbn [this Qcinv Q2Qc]. apply Qred_correct. Qed.

Lemma this_div (x y : Qc) : (this (x / y) == this x / this y)%Q.
Proof. unfold Qcdiv. rewrite this_mult, this_inv. reflexivity. Qed.

Lemma Qn_nonneg (n : N) : 0 <= Qn n.
Proof.
  unfold Qcle, Qn. rewrite this_inject_Z. change (this 0) with (inject_Z 0).
  rewrite <- Zle_Qle. lia.
Qed.

Lemma this_half (x : Qc) : (this (x / two) == this x * (1 # 2))%Q.
Proof. rewrite this_div. change (this two) with 2%Q. field. Qed.

Ltac to_Q_div :=
  unfold Qcle, Qclt in *;
  repeat first [ rewrite this_plus in * | rewrite this_mult in *
               | rewrite this_minus in * | rewrite this_opp in *
               | rewrite this_half in * ];
  change (this 0) with 0%Q in *; change (this 1) with 1%Q in *;
  change (this two) with 2%Q in *;
  change (this (97 # 100)) with (97 # 100)%Q in *;
  change (this (3 # 200)) with (3 # 200)%Q in *.

(** The rectangle of [centred_rect]: in each direction the two margins are
    equal and between 0 and 1.5% of the size. *)
Lemma centred_rect_margins (o : Opts) (w h : N) :
  let '(x, y, w2, h2) := centred_rect o w h in
  (0 <= x /\ x + w2 + x = Qn w /\ (97 # 100) * Qn w <= w2 <= Qn w /\
   x <= (3 # 200) * Qn w) /\
  (0 <= y /\ y + h2 + y = Qn h /\ (97 # 100) * Qn h <= h2 <= Qn h /\
   y <= (3 # 200) * Qn h).
Proof.
  unfold centred_rect. fold (scale_s o).
  destruct (scale_s_range o) as [L U]. set (s := scale_s o) in *.
  assert (G : forall W : Qc, 0 <= W ->
            0 <= (W - W * s) / two /\
            (W - W * s) / two + W * s + (W - W * s) / two = W /\
            (97 # 100) * W <= W * s <= W /\
            (W - W * s) / two <= (3 # 200) * W).
  { intros W W0. split; [|split; [|split]].
    - to_Q_div.
      set (A := this W) in *. set (B := this s) in *.
      assert (P1 : (0 <= A * (1 - B))%Q) by (apply Qmult_le_0_compat; lra).
      lra.
    - apply Qc_is_canon.
      repeat first [ rewrite this_plus | rewrite this_half | rewrite this_minus
                   | rewrite this_mult ].
      ring.
    - to_Q_div.
      set (A := this W) in *. set (B := this s) in *.
      assert (P1 : (0 <= A * (1 - B))%Q) by (apply Qmult_le_0_compat; lra).
      assert (P2 : (0 <= A * (B - (97 # 100)))%Q) by (apply Qmult_le_0_compat; lra).
      split; lra.
    - to_Q_div.
      set (A := this W) in *. set (B := this s) in *.
      assert (P2 : (0 <= A * (B - (97 # 100)))%Q) by (apply Qmult_le_0_compat; lra).
      lra. }
  split; apply G; apply Qn_nonneg.
Qed.

Section Outside.
Context {P : Platform}.

Lemma scaled_frame_outside (o : Opts) (w h : N) (frame : ExtImage) (x y : Qc) :
  (let '(rx, ry, rw, rh) := centred_rect o w h in in_rect rx ry rw rh x y) = false ->
  scaled_frame o w h frame x y = transparent.
Proof.
  unfold scaled_frame. destruct (centred_rect o w h) as [[[rx ry] rw] rh].
  intro H. unfold place. now rewrite H.
Qed.

(** X14: [_composite] draws the frame centred.  In a composite that draws a
    frame (src/personMatte.js; src/unnamed/part_000 when [featherPx] is at
    most 0.2), every pixel of the output is the pixel of the frame stretched
    onto the rectangle that leaves the same margin on the left and on the
    right, and the same on top and at the bottom, each between 0 and 1.5% of
    the buffer's size, scaled by the opacity of the softened mask there. *)
Theorem frame_is_drawn_centred (ver : variant) (img : option ExtImage)
    (v : Video) (m : PersonMatte) (x y : Qc) :
  coherent m = true -> plain (context (canvas m)) ->
  has_frame (imageOr img v) = true ->
  ver = MaskThenRGB \/ featherPx (opts m) <= 2 # 10 ->
  inb (canvas m) x y = true ->
  exists mx my,
    (0 <= mx /\ mx <= (3 # 200) * Qn (width (canvas m))) /\
    (0 <= my /\ my <= (3 # 200) * Qn (height (canvas m))) /\
    bitmap (canvas (snd (_composite ver img v m))) x y
    = px_scale
        (alpha (matte (6 # 10) (opts m) (width (canvas m)) (height (canvas m))
                  (bitmap (_maskNice m)) x y))
        (place (fst (frame_size (imageOr img v))) (snd (frame_size (imageOr img v)))
               (frame_pixels (imageOr img v))
               mx my
               (Qn (width (canvas m)) - mx - mx) (Qn (height (canvas m)) - my - my)
               x y).
Proof.
  intros Hco Hp Hf Hv Hin.
  rewrite (composite_px_law ver img v m Hco Hp Hf x y Hin).
  pose proof (centred_rect_margins (opts m) (width (canvas m)) (height (canvas m))) as G.
  assert (S : scaled_frame (opts m) (width (canvas m)) (height (canvas m)) (imageOr img v)
              = let '(rx, ry, rw, rh) :=
                  centred_rect (opts m) (width (canvas m)) (height (canvas m)) in
                place (fst (frame_size (imageOr img v))) (snd (frame_size (imageOr img v)))
                      (frame_pixels (imageOr img v)) rx ry rw rh) by reflexivity.
  destruct (centred_rect (opts m) (width (canvas m)) (height (canvas m)))
    as [[[rx ry] rw] rh].
  destruct G as ((X0 & Xs & _ & Xm) & (Y0 & Ys & _ & Ym)).
  assert (Ew : rw = Qn (width (canvas m)) - rx - rx) by (rewrite <- Xs; ring).
  assert (Eh : rh = Qn (height (canvas m)) - ry - ry) by (rewrite <- Ys; ring).
  exists rx, ry. split; [now split|]. split; [now split|].
  rewrite <- Ew, <- Eh.
  destruct ver; cbn [composite_law].
  - unfold mask_first_composite. now rewrite S.
  - destruct Hv as [Hv|Hv]; [discriminate|].
    assert (T : Qcltb (2 # 10) (featherPx (opts m)) = false).
    { unfold Qcltb. rewrite negb_false_iff. now apply Qcleb_le. }
    unfold spec_composite, matte. rewrite T. unfold composite_px. now rewrite S.
Qed.

(** X15: a composite that draws a frame leaves every pixel of the
    buffer outside the frame's rectangle fully transparent, for any mask: in
    src/personMatte.js always, in src/unnamed/part_000 when [featherPx] is at
    most 0.2 (its last blur is then skipped). *)
Theorem nothing_outside_the_frame_rectangle (ver : variant) (img : option ExtImage)
    (v : Video) (m : PersonMatte) (x y : Qc) :
  coherent m = true -> plain (context (canvas m)) ->
  has_frame (imageOr img v) = true ->
  ver = MaskThenRGB \/ featherPx (opts m) <= 2 # 10 ->
  inb (canvas m) x y = true ->
  (let '(rx, ry, rw, rh) := centred_rect (opts m) (width (canvas m)) (height (canvas m)) in
   in_rect rx ry rw rh x y) = false ->
  bitmap (canvas (snd (_composite ver img v m))) x y = transparent.
Proof.
  intros Hco Hp Hf Hv Hin Hout.
  rewrite (composite_px_law ver img v m Hco Hp Hf x y Hin).
  pose proof (scaled_frame_outside (opts m) _ _ (imageOr img v) x y Hout) as E.
  destruct ver; cbn [composite_law].
  - unfold mask_first_composite. rewrite E. apply px_scale_transparent.
  - destruct Hv as [Hv|Hv]; [discriminate|].
    assert (T : Qcltb (2 # 10) (featherPx (opts m)) = false).
    { unfold Qcltb. rewrite negb_false_iff. now apply Qcleb_le. }
    unfold spec_composite. rewrite T. unfold composite_px. rewrite E.
    apply px_scale_transparent.
Qed.

(** X16: when the image cannot be drawn (a video without current data
    or without picture), the composite of src/unnamed/part_000 leaves the
    output fully transparent, while the one of src/personMatte.js leaves the
    softened mask itself in the output: the pixels of [_maskNice] when
    [featherPx] is at most 0.2. *)
Theorem composite_without_a_frame (img : option ExtImage) (v : Video) (m : PersonMatte)
    (x y : Qc) :
  coherent m = true -> plain (context (canvas m)) ->
  has_frame (imageOr img v) = false ->
  inb (canvas m) x y = true ->
  bitmap (canvas (snd (_composite RGBThenMask img v m))) x y = transparent /\
  bitmap (canvas (snd (_composite MaskThenRGB img v m))) x y
  = matte (6 # 10) (opts m) (width (canvas m)) (height (canvas m))
      (bitmap (_maskNice m)) x y /\
  (featherPx (opts m) <= 2 # 10 ->
   bitmap (canvas (snd (_composite MaskThenRGB img v m))) x y = bitmap (_maskNice m) x y).
Proof.
  intros Hco Hp Hf Hin.
  pose proof (composite_noframe_px RGBThenMask img v m Hco Hp Hf x y Hin) as E2.
  pose proof (composite_noframe_px MaskThenRGB img v m Hco Hp Hf x y Hin) as E1.
  cbv beta iota in E1, E2.
  split; [exact E2|]. split; [exact E1|].
  intro F. rewrite E1. unfold matte.
  assert (T : Qcltb (2 # 10) (featherPx (opts m)) = false).
  { unfold Qcltb. rewrite negb_false_iff. now apply Qcleb_le. }
  now rewrite T.
Qed.

End Outside.

Lemma fullMask_plain : plain (context (canvas fullMask)).
Proof. split; reflexivity. Qed.

Lemma nothing_outside_the_frame_rectangle_witness :
  coherent fullMask = true /\ plain (context (canvas fullMask)) /\
  has_frame (imageOr None cam) = true /\
  (RGBThenMask = MaskThenRGB \/ featherPx (opts fullMask) <= 2 # 10) /\
  inb (canvas fullMask) (1 # 100) 1 = true /\
  (let '(rx, ry, rw, rh) :=
     centred_rect (opts fullMask) (width (canvas fullMask)) (height (canvas fullMask)) in
   in_rect rx ry rw rh (1 # 100) 1) = false /\
  bitmap (canvas (snd (_composite (P := tent) RGBThenMask None cam fullMask))) (1 # 100) 1
  = transparent.
Proof.
  assert (F : RGBThenMask = MaskThenRGB \/ featherPx (opts fullMask) <= 2 # 10)
    by (right; apply Qcleb_le; reflexivity).
  assert (I : inb (canvas fullMask) (1 # 100) 1 = true) by (vm_compute; reflexivity).
  assert (O : (let '(rx, ry, rw, rh) :=
                 centred_rect (opts fullMask) (width (canvas fullMask))
                   (height (canvas fullMask)) in
               in_rect rx ry rw rh (1 # 100) 1) = false) by (vm_compute; reflexivity).
  split; [reflexivity|]. split; [exact fullMask_plain|]. split; [reflexivity|].
  split; [exact F|]. split; [exact I|]. split; [exact O|].
  exact (nothing_outside_the_frame_rectangle (P := tent) RGBThenMask None cam fullMask
           (1 # 100) 1 eq_refl fullMask_plain eq_refl F I O).
Defined.

Lemma composite_without_a_frame_witness :
  coherent fullMask = true /\ plain (context (canvas fullMask)) /\
  has_frame (imageOr None audioOnly) = false /\
  inb (canvas fullMask) 1 1 = true /\
  bitmap (canvas (snd (_composite (P := tent) RGBThenMask None audioOnly fullMask))) 1 1
  = transparent /\
  bitmap (canvas (snd (_composite (P := tent) MaskThenRGB None audioOnly fullMask))) 1 1
  = matte (P := tent) (6 # 10) (opts fullMask) (width (canvas fullMask))
      (height (canvas fullMask)) (bitmap (_maskNice fullMask)) 1 1 /\
  (featherPx (opts fullMask) <= 2 # 10 ->
   bitmap (canvas (snd (_composite (P := tent) MaskThenRGB None audioOnly fullMask))) 1 1
   = bitmap (_maskNice fullMask) 1 1).
Proof.
  assert (I : inb (canvas fullMask) 1 1 = true) by (vm_compute; reflexivity).
  split; [reflexivity|]. split; [exact fullMask_plain|]. split; [reflexivity|].
  split; [exact I|].
  exact (composite_without_a_frame (P := tent) None audioOnly fullMask 1 1
           eq_refl fullMask_plain eq_refl I).
Defined.

Lemma frame_is_drawn_centred_witness :
  coherent fullMask = true /\ plain (context (canvas fullMask)) /\
  has_frame (imageOr None cam) = true /\
  (RGBThenMask = MaskThenRGB \/ featherPx (opts fullMask) <= 2 # 10) /\
  inb (canvas fullMask) 1 1 = true /\
  exists mx my,
    (0 <= mx /\ mx <= (3 # 200) * Qn (width (canvas fullMask))) /\
    (0 <= my /\ my <= (3 # 200) * Qn (height (canvas fullMask))) /\
    bitmap (canvas (snd (_composite (P := tent) RGBThenMask None cam fullMask))) 1 1
    = px_scale
        (alpha (matte (P := tent) (6 # 10) (opts fullMask) (width (canvas fullMask))
                  (height (canvas fullMask)) (bitmap (_maskNice fullMask)) 1 1))
        (place (fst (frame_size (imageOr None cam))) (snd (frame_size (imageOr None cam)))
               (frame_pixels (imageOr None cam))
               mx my
               (Qn (width (canvas fullMask)) - mx - mx)
               (Qn (height (canvas fullMask)) - my - my)
               1 1).
Proof.
  assert (F : RGBThenMask = MaskThenRGB \/ featherPx (opts fullMask) <= 2 # 10)
    by (right; apply Qcleb_le; reflexivity).
  assert (I : inb (canvas fullMask) 1 1 = true) by (vm_compute; reflexivity).
  split; [reflexivity|]. split; [exact fullMask_plain|]. split; [reflexivity|].
  split; [exact F|]. split; [exact I|].
  exact (frame_is_drawn_centred (P := tent) RGBThenMask None cam fullMask 1 1
           eq_refl fullMask_plain eq_refl F I).
Defined.
(** ** A session of src/unnamed/part_000, from [start] on *)

Section Part000.
Context {P : Platform}.

Lemma step_at_rest (ver : variant) (s s' : Session) (e : event) :
  at_rest (self s) -> step ver s e = Some s' -> at_rest (self s').
Proof.
  intro R. destruct e as [v| |r v| |v]; cbn [step].
  - destruct (queued s); [discriminate|]. intros [= <-].
    rewrite settle_self. now apply tick_enter_at_rest.
  - intros [= <-]. exact R.
  - intros [= <-]. cbn [self]. now apply onResults_at_rest.
  - destruct (suspended s); [discriminate|]. intros [= <-]. exact R.
  - destruct (suspended s); [discriminate|]. intros [= <-].
    rewrite settle_self. unfold _tick_rejected, bind, ret.
    pose proof (composite_at_rest ver (Some (ImgVideo v)) v _ R) as C.
    destruct (_composite ver (Some (ImgVideo v)) v (self s)) as [[[]|e] m']; exact C.
Qed.

Lemma run_at_rest (ver : variant) (es : list event) :
  forall s s', at_rest (self s) -> run ver s es = Some s' -> at_rest (self s').
Proof.
  induction es as [|e es IH]; intros s s' R; cbn [run].
  - now intros [= <-].
  - destruct (step ver s e) as [s1|] eqn:E; [|discriminate].
    apply IH. exact (step_at_rest ver s s1 e R E).
Qed.

(** X17: in src/unnamed/part_000, a session started by [start] is, after
    any sequence of events, at rest (contexts back at their defaults) with its
    four canvases at the picture size of the element on which
    [_waitForVideo] resolved, which is not zero. *)
Theorem part_000_session_keeps_the_picture_size (v0 : Video) (loads : list Video)
    (m : PersonMatte) (s0 : Session) (es : list event) (s : Session) :
  start_session RGBThenMask v0 loads m = Some s0 ->
  run RGBThenMask s0 es = Some s ->
  at_rest (self s) /\
  exists v, In v (v0 :: loads) /\ videoWidth v <> 0%N /\ videoHeight v <> 0%N /\
    forall id, width (getC id (self s)) = videoWidth v /\
               height (getC id (self s)) = videoHeight v.
Proof.
  unfold start_session.
  destruct (start RGBThenMask v0 loads) as [c|] eqn:St; [|discriminate].
  intros [= <-] R.
  pose proof (start_RGBThenMask_at_rest v0 loads c m St) as R0.
  destruct (start_RGBThenMask_dimensions v0 loads c m St) as (v & I & W & H & D).
  split.
  - apply (run_at_rest RGBThenMask es (settle (c m) 0 0) s); [|exact R].
    now rewrite settle_self.
  - exists v. repeat (split; [assumption|]).
    intro id. pose proof (run_keeps_sizes RGBThenMask es _ _ R id) as [Ew Eh].
    rewrite settle_self in Ew, Eh. destruct (D id) as [Dw Dh].
    split; congruence.
Qed.

End Part000.

Lemma part_000_session_keeps_the_picture_size_witness :
  start_session (P := tent) RGBThenMask cam [] (construct noOpts)
  = Some (running RGBThenMask) /\
  run (P := tent) RGBThenMask (running RGBThenMask)
      [EvResults maskRes cam; EvSendFulfilled; EvStop]
  = Some (stopRequested RGBThenMask) /\
  at_rest (self (stopRequested RGBThenMask)) /\
  exists v, In v [cam] /\ videoWidth v <> 0%N /\ videoHeight v <> 0%N /\
    forall id, width (getC id (self (stopRequested RGBThenMask))) = videoWidth v /\
               height (getC id (self (stopRequested RGBThenMask))) = videoHeight v.
Proof.
  assert (S0 : start_session (P := tent) RGBThenMask cam [] (construct noOpts)
               = Some (running RGBThenMask))
    by (apply some_orIdle; vm_compute; reflexivity).
  assert (R : run (P := tent) RGBThenMask (running RGBThenMask)
                  [EvResults maskRes cam; EvSendFulfilled; EvStop]
              = Some (stopRequested RGBThenMask))
    by (apply some_orIdle; vm_compute; reflexivity).
  split; [exact S0|]. split; [exact R|].
  exact (part_000_session_keeps_the_picture_size (P := tent) cam [] (construct noOpts)
           _ _ _ S0 R).
Defined.

(** ** Waiting for the video *)

(** X18: on an element that is not ready when [start] is called,
    [_waitForVideo] of src/unnamed/part_000 resolves at the first loadeddata
    event at which the element has a picture size, and the one of
    src/personMatte.js at the first loadeddata event, with or without size. *)
Theorem waitForVideo_resolves_on_first_picture (v0 : Video) (before : list Video)
    (v : Video) (later : list Video) :
  (readyState v0 < 2)%Z ->
  forallb (fun u => negb (hasSize u)) before = true ->
  hasSize v = true ->
  _waitForVideo RGBThenMask v0 (before ++ v :: later) = Some v /\
  _waitForVideo MaskThenRGB v0 (before ++ v :: later) = Some (hd v before).
Proof.
  intros Hr Hb Hv. cbn [_waitForVideo].
  replace (2 <=? readyState v0)%Z with false by (symmetry; apply Z.leb_gt; exact Hr).
  cbn [andb]. split.
  - induction before as [|u before IH]; cbn [app find].
    + now rewrite Hv.
    + cbn [forallb] in Hb. apply andb_true_iff in Hb. destruct Hb as [Hu Hb].
      apply negb_true_iff in Hu. rewrite Hu. now apply IH.
  - destruct before; reflexivity.
Qed.

Lemma waitForVideo_resolves_on_first_picture_witness :
  (readyState notReady < 2)%Z /\
  forallb (fun u => negb (hasSize u)) [noSizeYet] = true /\
  hasSize cam = true /\
  _waitForVideo RGBThenMask notReady ([noSizeYet] ++ cam :: []) = Some cam /\
  _waitForVideo MaskThenRGB notReady ([noSizeYet] ++ cam :: []) = Some (hd cam [noSizeYet]).
Proof.
  assert (R : (readyState notReady < 2)%Z) by reflexivity.
  split; [exact R|]. split; [reflexivity|]. split; [reflexivity|].
  exact (waitForVideo_resolves_on_first_picture notReady [noSizeYet] cam [] R eq_refl eq_refl).
Defined.
(** * The application: src/demo.js *)

Import String.StringSyntax.
Delimit Scope string_scope with string.

Lemma nth_error_update {A} (l : list A) (i j : nat) (f : A -> A) :
  nth_error (Demo.update l i f) j
  = if Nat.eqb i j then option_map f (nth_error l j) else nth_error l j.
Proof.
  revert i j. induction l as [|x l IH]; intros [|i] [|j]; cbn; trivial;
    now destruct (Nat.eqb i j).
Qed.

Lemma length_update {A} (l : list A) (i : nat) (f : A -> A) :
  length (Demo.update l i f) = length l.
Proof.
  revert i. induction l as [|x l IH]; intros [|i]; cbn; trivial. now rewrite IH.
Qed.

(** Evaluation of the assignments, innermost first. *)
Ltac app_eval :=
  cbv beta iota zeta delta
    [Demo.endCall Demo.closeCall Demo.removePlane Demo.stopMatte Demo.log
     Demo.attachRemote Demo.onStarted Demo.afterStart Demo.muteBtn_onclick
     Demo.attachOptions Demo.stoppedAt
     Demo.set_callConn Demo.set_closedCalls Demo.set_remoteStream Demo.set_srcObject
     Demo.set_mattes Demo.set_matte Demo.set_textures Demo.set_matteTexture
     Demo.set_meshes Demo.set_remotePlane Demo.set_scene Demo.set_isMuted
     Demo.set_audioTracks Demo.set_muteBtn Demo.set_status Demo.set_uncaught
     Demo.window_SelfieSegmentation Demo.callConn Demo.closedCalls Demo.remoteStream
     Demo.remoteVideo_srcObject Demo.mattes Demo.matte Demo.textures Demo.matteTexture
     Demo.meshes Demo.remotePlane Demo.scene Demo.isMuted Demo.audioTracks
     Demo.muteBtn_textContent Demo.status_textContent Demo.uncaught].

Ltac open_app a :=
  destruct a as [? [?|] ? ? ? ? [?|] ? ? ? [?|] ? ? ? ? ? ?].

(** X19: [endCall] leaves [callConn], [matte], [matteTexture] and
    [remotePlane] null, has called stop() on the matte that was current and on
    no other, has taken the plane out of the scene, and shows "call ended";
    a second [endCall] changes nothing, and the two versions of src/demo.js,
    which order the statements differently, leave the same state. *)
Theorem endCall_leaves_no_call (dv : Demo.version) (a : Demo.App) :
  let a' := Demo.endCall dv a in
  (Demo.callConn a' = None /\ Demo.matte a' = None /\
   Demo.matteTexture a' = None /\ Demo.remotePlane a' = None) /\
  (forall i, Demo.matte a = Some i -> (i < length (Demo.mattes a))%nat ->
     Demo.stoppedAt a' i = Some true) /\
  (forall i, Demo.matte a <> Some i ->
     nth_error (Demo.mattes a') i = nth_error (Demo.mattes a) i) /\
  (forall p, Demo.remotePlane a = Some p ->
     Demo.scene a' = Demo.remove_child p (Demo.scene a)) /\
  Demo.status_textContent a' = "status: call ended"%string /\
  Demo.endCall dv a' = a' /\
  Demo.endCall Demo.First a = Demo.endCall Demo.Second a.
Proof.
  cbv zeta. repeat apply conj.
  - destruct dv; open_app a; app_eval; reflexivity.
  - destruct dv; open_app a; app_eval; reflexivity.
  - destruct dv; open_app a; app_eval; reflexivity.
  - destruct dv; open_app a; app_eval; reflexivity.
  - intros i Hm Hi.
    assert (E : Demo.mattes (Demo.endCall dv a)
                = Demo.update (Demo.mattes a) i
                    (fun o => Demo.mkMatteObj
                                (mkSession (snd (stop (self (Demo.object o))))
                                   (queued (Demo.object o)) (suspended (Demo.object o)))
                                (Demo.waiting o))).
    { destruct dv; open_app a; revert Hm; app_eval; congruence. }
    unfold Demo.stoppedAt.
    rewrite E, nth_error_update, Nat.eqb_refl.
    destruct (nth_error (Demo.mattes a) i) as [o|] eqn:N.
    + reflexivity.
    + apply nth_error_None in N. lia.
  - intros i Hm.
    destruct dv; open_app a; revert Hm; app_eval; intro Hm;
      trivial; rewrite nth_error_update;
      match goal with |- context [Nat.eqb ?x ?y] => destruct (Nat.eqb_spec x y) end;
      trivial; congruence.
  - intros p Hp.
    destruct dv; open_app a; revert Hp; app_eval; congruence.
  - destruct dv; open_app a; app_eval; reflexivity.
  - destruct dv; open_app a; app_eval; reflexivity.
  - open_app a; app_eval; reflexivity.
Qed.

Lemma endCall_mattes (dv : Demo.version) (a : Demo.App) :
  Demo.matte (Demo.endCall dv a) = None /\
  forall i, Demo.matte a <> Some i ->
    nth_error (Demo.mattes (Demo.endCall dv a)) i = nth_error (Demo.mattes a) i.
Proof.
  split.
  - destruct dv; open_app a; app_eval; reflexivity.
  - intros i Hm.
    destruct dv; open_app a; revert Hm; app_eval; intro Hm;
      trivial; rewrite nth_error_update;
      match goal with |- context [Nat.eqb ?x ?y] => destruct (Nat.eqb_spec x y) end;
      trivial; congruence.
Qed.

Section Leak.
Context {P : Platform}.

Lemma tick_enter_keeps_flag (ver : variant) (v : Video) (m : PersonMatte) :
  _stopped (snd (_tick_enter ver v m)) = _stopped m.
Proof.
  unfold _tick_enter, bind, gets, incr_frame, modify, ret.
  destruct (_stopped m) eqn:S; [exact S|].
  cbn [opts _frame next_frame].
  destruct ((1 <? divide (opts m))%Z && negb (Z.rem (_frame m + 1) (divide (opts m)) =? 0)%Z).
  - destruct (composite_output_only ver (Some (ImgVideo v)) v (next_frame m))
      as (_ & _ & St & _).
    destruct (_composite ver (Some (ImgVideo v)) v (next_frame m)) as [[[]|e] m'];
      cbn [snd] in *; rewrite St; exact S.
  - exact S.
Qed.

Lemma start_session_keeps_flag (ver : variant) (v0 : Video) (loads : list Video)
    (m : PersonMatte) (s : Session) :
  start_session ver v0 loads m = Some s -> _stopped (self s) = _stopped m.
Proof.
  unfold start_session, start.
  destruct (_waitForVideo ver v0 loads) as [v|]; [|discriminate].
  intros [= <-]. rewrite settle_self. destruct (start_dims ver v) as [w h].
  unfold bind at 1. unfold sizeAll, bind, modifyC, modify. cbn [fst snd].
  now rewrite tick_enter_keeps_flag.
Qed.

Lemma step_keeps_flag (ver : variant) (s s' : Session) (e : event) :
  e <> EvStop -> step ver s e = Some s' -> _stopped (self s') = _stopped (self s).
Proof.
  intro Ne. destruct e as [v| |r v| |v]; cbn [step]; [| congruence | | |].
  - destruct (queued s); [discriminate|]. intros [= <-].
    rewrite settle_self. apply tick_enter_keeps_flag.
  - intros [= <-]. cbn [self]. apply (onResults_keeps_control ver r v (self s)).
  - destruct (suspended s); [discriminate|]. intros [= <-]. reflexivity.
  - destruct (suspended s); [discriminate|]. intros [= <-].
    rewrite settle_self. unfold _tick_rejected, bind, ret.
    destruct (composite_output_only ver (Some (ImgVideo v)) v (self s)) as (_ & _ & St & _).
    destruct (_composite ver (Some (ImgVideo v)) v (self s)) as [[[]|e] m']; exact St.
Qed.

Lemma afterStart_keeps_mattes (dv : Demo.version) (a : Demo.App) :
  Demo.mattes (Demo.afterStart dv a) = Demo.mattes a /\
  Demo.matte (Demo.afterStart dv a) = Demo.matte a.
Proof.
  destruct dv; open_app a; app_eval; split; reflexivity.
Qed.

Lemma attachRemote_mattes (s : nat) (a : Demo.App) :
  (Demo.mattes (Demo.attachRemote s a) = Demo.mattes a /\
   Demo.matte (Demo.attachRemote s a) = Demo.matte a /\
   Demo.window_SelfieSegmentation a = false) \/
  (exists o, Demo.mattes (Demo.attachRemote s a) = Demo.mattes a ++ [o] /\
             Demo.matte (Demo.attachRemote s a) = Some (length (Demo.mattes a)) /\
             Demo.window_SelfieSegmentation a = true).
Proof.
  open_app a; destruct window_SelfieSegmentation;
    first [ left; repeat split; reflexivity
          | right; eexists; repeat split; reflexivity ].
Qed.

Lemma abandoned_step (dv : Demo.version) (ver : variant) (a a' : Demo.App)
    (e : Demo.appEvent) (i : nat) :
  abandoned a i -> Demo.appStep dv ver a e = Some a' -> abandoned a' i.
Proof.
  intros [St Ne]. unfold Demo.stoppedAt in St.
  destruct (nth_error (Demo.mattes a) i) as [o|] eqn:N; [|discriminate].
  injection St as St.
  assert (Li : (i < length (Demo.mattes a))%nat)
    by (apply nth_error_Some; congruence).
  destruct e as [s|j v0 loads| | |j e]; cbn [Demo.appStep].
  - intros [= <-]. unfold abandoned, Demo.stoppedAt.
    destruct (attachRemote_mattes s a) as [(-> & -> & _)|(o' & -> & -> & _)].
    + rewrite N. split; [now rewrite St | exact Ne].
    + rewrite nth_error_app1 by exact Li. rewrite N.
      split; [now rewrite St|]. intros [= E]. lia.
  - destruct (nth_error (Demo.mattes a) j) as [oj|] eqn:Nj; [|discriminate].
    destruct (Demo.waiting oj); [|discriminate].
    destruct (start_session ver v0 loads (self (Demo.object oj))) as [s|] eqn:Ss;
      [|discriminate].
    intros [= <-]. unfold abandoned, Demo.stoppedAt.
    destruct (afterStart_keeps_mattes dv
                (Demo.set_mattes (Demo.update (Demo.mattes a) j
                                    (fun _ => Demo.mkMatteObj s false)) a)) as [-> ->].
    replace (Demo.mattes (Demo.set_mattes (Demo.update (Demo.mattes a) j
                            (fun _ => Demo.mkMatteObj s false)) a))
      with (Demo.update (Demo.mattes a) j (fun _ => Demo.mkMatteObj s false))
      by reflexivity.
    replace (Demo.matte (Demo.set_mattes (Demo.update (Demo.mattes a) j
                            (fun _ => Demo.mkMatteObj s false)) a))
      with (Demo.matte a) by reflexivity.
    split; [|exact Ne].
    rewrite nth_error_update, N. destruct (Nat.eqb_spec j i) as [->|_].
    + cbn [option_map Demo.object].
      rewrite (start_session_keeps_flag ver v0 loads _ s Ss).
      replace oj with o by congruence. now rewrite St.
    + now rewrite St.
  - intros [= <-].
    destruct (endCall_mattes dv a) as (Em & Eo).
    unfold abandoned, Demo.stoppedAt. rewrite Em, (Eo i Ne), N.
    split; [now rewrite St | discriminate].
  - intros [= <-]. unfold abandoned, Demo.stoppedAt.
    replace (Demo.mattes (Demo.muteBtn_onclick a)) with (Demo.mattes a) by reflexivity.
    replace (Demo.matte (Demo.muteBtn_onclick a)) with (Demo.matte a) by reflexivity.
    rewrite N. split; [now rewrite St | exact Ne].
  - assert (G : match nth_error (Demo.mattes a) j with
                | Some oj =>
                    if Demo.waiting oj then None
                    else match step ver (Demo.object oj) e with
                         | Some s => Some (Demo.set_mattes
                                             (Demo.update (Demo.mattes a) j
                                                (fun _ => Demo.mkMatteObj s false)) a)
                         | None => None
                         end
                | None => None
                end = Some a' -> e <> EvStop -> abandoned a' i).
    { destruct (nth_error (Demo.mattes a) j) as [oj|] eqn:Nj; [|discriminate].
      destruct (Demo.waiting oj); [discriminate|].
      destruct (step ver (Demo.object oj) e) as [s|] eqn:Se; [|discriminate].
      intros [= <-] Nst. unfold abandoned, Demo.stoppedAt.
      replace (Demo.mattes (Demo.set_mattes (Demo.update (Demo.mattes a) j
                              (fun _ => Demo.mkMatteObj s false)) a))
        with (Demo.update (Demo.mattes a) j (fun _ => Demo.mkMatteObj s false))
        by reflexivity.
      replace (Demo.matte (Demo.set_mattes (Demo.update (Demo.mattes a) j
                              (fun _ => Demo.mkMatteObj s false)) a))
        with (Demo.matte a) by reflexivity.
      split; [|exact Ne].
      rewrite nth_error_update, N. destruct (Nat.eqb_spec j i) as [->|_].
      - cbn [option_map Demo.object].
        rewrite (step_keeps_flag ver _ s e Nst Se).
        replace oj with o by congruence. now rewrite St.
      - now rewrite St. }
    destruct e; try (intro H; apply G; [exact H | discriminate]). discriminate.
Qed.

Lemma abandoned_run (dv : Demo.version) (ver : variant) (es : list Demo.appEvent) (i : nat) :
  forall a a', abandoned a i -> Demo.appRun dv ver a es = Some a' -> abandoned a' i.
Proof.
  induction es as [|e es IH]; intros a a' A; cbn [Demo.appRun].
  - now intros [= <-].
  - destruct (Demo.appStep dv ver a e) as [a1|] eqn:E; [|discriminate].
    apply IH. exact (abandoned_step dv ver a a1 e i A E).
Qed.

(** X20: [attachRemote] constructs a new matte without stopping one
    that exists.  A matte that runs when a stream arrives is still running
    after any later events of the page, [endCall] included, and the variable
    [matte] never points to it again. *)
Theorem replaced_matte_is_never_stopped (dv : Demo.version) (ver : variant)
    (a : Demo.App) (stream : nat) (es : list Demo.appEvent) (a' : Demo.App) (i : nat) :
  Demo.window_SelfieSegmentation a = true ->
  Demo.stoppedAt a i = Some false ->
  Demo.appRun dv ver (Demo.attachRemote stream a) es = Some a' ->
  Demo.stoppedAt a' i = Some false /\ Demo.matte a' <> Some i.
Proof.
  intros L St R.
  apply (abandoned_run dv ver es i (Demo.attachRemote stream a) a'); [|exact R].
  unfold abandoned, Demo.stoppedAt in *.
  destruct (nth_error (Demo.mattes a) i) as [o|] eqn:N; [|discriminate].
  assert (Li : (i < length (Demo.mattes a))%nat)
    by (apply nth_error_Some; congruence).
  destruct (attachRemote_mattes stream a) as [(_ & _ & F)|(o' & -> & -> & _)];
    [congruence|].
  rewrite nth_error_app1 by exact Li. rewrite N.
  split; [exact St|]. intros [= E]. lia.
Qed.

End Leak.

Lemma replaced_matte_is_never_stopped_witness :
  Demo.window_SelfieSegmentation Demo.inCall = true /\
  Demo.matte Demo.inCall = Some 0%nat /\
  Demo.stoppedAt Demo.inCall 0 = Some false /\
  Demo.appRun (P := tent) Demo.Second RGBThenMask (Demo.attachRemote 8 Demo.inCall)
    [Demo.Hangup]
  = Some (Demo.endCall Demo.Second (Demo.attachRemote 8 Demo.inCall)) /\
  Demo.stoppedAt (Demo.endCall Demo.Second (Demo.attachRemote 8 Demo.inCall)) 0
  = Some false /\
  Demo.matte (Demo.endCall Demo.Second (Demo.attachRemote 8 Demo.inCall)) <> Some 0%nat.
Proof.
  assert (R : Demo.appRun (P := tent) Demo.Second RGBThenMask
                (Demo.attachRemote 8 Demo.inCall) [Demo.Hangup]
              = Some (Demo.endCall Demo.Second (Demo.attachRemote 8 Demo.inCall)))
    by reflexivity.
  split; [reflexivity|]. split; [reflexivity|]. split; [reflexivity|].
  split; [exact R|].
  exact (replaced_matte_is_never_stopped (P := tent) Demo.Second RGBThenMask Demo.inCall 8
           [Demo.Hangup] _ 0%nat eq_refl eq_refl R).
Defined.

(** ** Hanging up before the video is ready *)

Lemma nth_error_update_last {A} (l : list A) (x : A) (f : A -> A) :
  nth_error (Demo.update (l ++ [x]) (length l) f) (length l) = Some (f x).
Proof.
  rewrite nth_error_update, Nat.eqb_refl, nth_error_app2 by lia.
  now rewrite Nat.sub_diag.
Qed.

(** The object [attachRemote] constructs. *)
Lemma attached_object :
  new_PersonMatte true Demo.attachOptions
  = Normal (mkPM (mkOpts 1 1 (6 # 10) (35 # 100) (992 # 1000) 1)
                 createCanvas createCanvas createCanvas createCanvas false 0).
Proof. reflexivity. Qed.

Lemma attachRemote_loaded (stream : nat) (a : Demo.App) :
  Demo.window_SelfieSegmentation a = true ->
  Demo.attachRemote stream a
  = Demo.set_matte (Some (length (Demo.mattes a)))
      (Demo.set_mattes
         (Demo.mattes a
          ++ [Demo.mkMatteObj
                (mkSession (mkPM (mkOpts 1 1 (6 # 10) (35 # 100) (992 # 1000) 1)
                              createCanvas createCanvas createCanvas createCanvas false 0)
                   0 0) true])
         (Demo.log "remote stream received"%string
            (Demo.set_srcObject (Some stream) (Demo.set_remoteStream (Some stream) a)))).
Proof.
  intro L. unfold Demo.attachRemote.
  change (Demo.window_SelfieSegmentation
            (Demo.log "remote stream received"%string
               (Demo.set_srcObject (Some stream) (Demo.set_remoteStream (Some stream) a))))
    with (Demo.window_SelfieSegmentation a).
  rewrite L, attached_object. reflexivity.
Qed.

Lemma attach_then_hangup (dv : Demo.version) (stream : nat) (a : Demo.App) :
  Demo.window_SelfieSegmentation a = true ->
  exists m,
    new_PersonMatte true Demo.attachOptions = Normal m /\
    nth_error (Demo.mattes (Demo.endCall dv (Demo.attachRemote stream a)))
      (length (Demo.mattes a))
    = Some (Demo.mkMatteObj (mkSession (stopped_ m) 0 0) true) /\
    Demo.matte (Demo.endCall dv (Demo.attachRemote stream a)) = None /\
    Demo.matteTexture (Demo.endCall dv (Demo.attachRemote stream a)) = None /\
    Demo.remotePlane (Demo.endCall dv (Demo.attachRemote stream a)) = None /\
    Demo.uncaught (Demo.endCall dv (Demo.attachRemote stream a)) = Demo.uncaught a /\
    Demo.status_textContent (Demo.endCall dv (Demo.attachRemote stream a))
    = "status: call ended"%string.
Proof.
  intro L. eexists. split; [exact attached_object|].
  rewrite (attachRemote_loaded stream a L). clear L.
  destruct dv; open_app a; app_eval; rewrite ?nth_error_update_last;
    repeat split; reflexivity.
Qed.

Section EarlyHangup.
Context {P : Platform}.

Lemma start_session_stopped (ver : variant) (v0 : Video) (loads : list Video)
    (m : PersonMatte) (s : Session) :
  _stopped m = true -> start_session ver v0 loads m = Some s ->
  _stopped (self s) = true /\ _frame (self s) = _frame m /\
  queued s = 0%nat /\ suspended s = 0%nat.
Proof.
  intro St. unfold start_session, start.
  destruct (_waitForVideo ver v0 loads) as [v|]; [|discriminate].
  intros [= <-]. destruct (start_dims ver v) as [w h].
  unfold bind at 1. unfold sizeAll, bind, modifyC, modify. cbn [fst snd].
  rewrite tick_enter_stopped by (cbn; exact St).
  cbn. now repeat split.
Qed.

(** X21: when the call ends before the remote video is ready, the
    pending [start] still completes later but its tick returns at once (object
    stopped, counter 0, nothing queued or awaited); the function given to
    [then] reads [matte.canvas] on null: no texture and no plane are made, the
    first version leaves a TypeError unhandled, the second shows
    "segmentation failed". *)
Theorem hangup_before_the_video_is_ready (dv : Demo.version) (ver : variant)
    (a : Demo.App) (stream : nat) (v0 : Video) (loads : list Video) (a3 : Demo.App) :
  Demo.window_SelfieSegmentation a = true ->
  Demo.appStep dv ver (Demo.endCall dv (Demo.attachRemote stream a))
    (Demo.VideoReady (length (Demo.mattes a)) v0 loads) = Some a3 ->
  (exists o, nth_error (Demo.mattes a3) (length (Demo.mattes a)) = Some o /\
     _stopped (self (Demo.object o)) = true /\ _frame (self (Demo.object o)) = 0%Z /\
     queued (Demo.object o) = 0%nat /\ suspended (Demo.object o) = 0%nat) /\
  Demo.matteTexture a3 = None /\ Demo.remotePlane a3 = None /\
  Demo.scene a3 = Demo.scene (Demo.endCall dv (Demo.attachRemote stream a)) /\
  match dv with
  | Demo.First =>
      Demo.uncaught a3 = Demo.TypeError :: Demo.uncaught a /\
      Demo.status_textContent a3 = "status: call ended"%string
  | Demo.Second =>
      Demo.uncaught a3 = Demo.uncaught a /\
      Demo.status_textContent a3 = "status: segmentation failed"%string
  end.
Proof.
  intros L. cbn [Demo.appStep].
  destruct (attach_then_hangup dv stream a L) as (m & Em & N & M & T & Pl & U & S).
  remember (Demo.endCall dv (Demo.attachRemote stream a)) as a2 eqn:Ea2. clear Ea2.
  rewrite N. cbn [Demo.waiting Demo.object self].
  destruct (start_session ver v0 loads (stopped_ m)) as [s|] eqn:Ss; [|discriminate].
  destruct (start_session_stopped ver v0 loads (stopped_ m) s eq_refl Ss)
    as (S1 & S2 & S3 & S4).
  assert (F0 : _frame m = 0%Z) by (rewrite attached_object in Em; now injection Em as <-).
  intros [= <-].
  set (a2' := Demo.set_mattes
                (Demo.update (Demo.mattes a2) (length (Demo.mattes a))
                   (fun _ => Demo.mkMatteObj s false)) a2).
  assert (M' : Demo.matte a2' = None) by exact M.
  assert (A : Demo.afterStart dv a2'
              = match dv with
                | Demo.First => Demo.set_uncaught (Demo.TypeError :: Demo.uncaught a2') a2'
                | Demo.Second => Demo.log "segmentation failed"%string a2'
                end).
  { unfold Demo.afterStart, Demo.onStarted. now rewrite M'. }
  rewrite A.
  assert (Nm : nth_error (Demo.update (Demo.mattes a2) (length (Demo.mattes a))
                            (fun _ => Demo.mkMatteObj s false)) (length (Demo.mattes a))
               = Some (Demo.mkMatteObj s false)).
  { rewrite nth_error_update, Nat.eqb_refl, N. reflexivity. }
  split.
  { exists (Demo.mkMatteObj s false). split.
    - destruct dv; exact Nm.
    - cbn [Demo.object]. rewrite S2 in *. cbn [stopped_ _frame]. now repeat split. }
  destruct dv.
  - repeat apply conj; [exact T | exact Pl | reflexivity | | exact S].
    change (Demo.TypeError :: Demo.uncaught a2 = Demo.TypeError :: Demo.uncaught a).
    now rewrite U.
  - repeat apply conj; [exact T | exact Pl | reflexivity | exact U | reflexivity].
Qed.

End EarlyHangup.

Lemma some_orIdle_app (o : option Demo.App) :
  is_some o = true -> o = Some (Demo.orIdle o).
Proof. destruct o; [reflexivity | discriminate]. Qed.

Lemma hangup_before_the_video_is_ready_witness :
  Demo.window_SelfieSegmentation Demo.idle = true /\
  Demo.appStep (P := tent) Demo.Second RGBThenMask
    (Demo.endCall Demo.Second (Demo.attachRemote 7 Demo.idle))
    (Demo.VideoReady (length (Demo.mattes Demo.idle)) cam []) = Some Demo.lateStart /\
  (exists o, nth_error (Demo.mattes Demo.lateStart) (length (Demo.mattes Demo.idle)) = Some o /\
     _stopped (self (Demo.object o)) = true /\ _frame (self (Demo.object o)) = 0%Z /\
     queued (Demo.object o) = 0%nat /\ suspended (Demo.object o) = 0%nat) /\
  Demo.matteTexture Demo.lateStart = None /\ Demo.remotePlane Demo.lateStart = None /\
  Demo.scene Demo.lateStart
  = Demo.scene (Demo.endCall Demo.Second (Demo.attachRemote 7 Demo.idle)) /\
  Demo.uncaught Demo.lateStart = Demo.uncaught Demo.idle /\
  Demo.status_textContent Demo.lateStart = "status: segmentation failed"%string.
Proof.
  assert (S : Demo.appStep (P := tent) Demo.Second RGBThenMask
                (Demo.endCall Demo.Second (Demo.attachRemote 7 Demo.idle))
                (Demo.VideoReady (length (Demo.mattes Demo.idle)) cam [])
              = Some Demo.lateStart)
    by (apply some_orIdle_app; vm_compute; reflexivity).
  split; [reflexivity|]. split; [exact S|].
  exact (hangup_before_the_video_is_ready (P := tent) Demo.Second RGBThenMask Demo.idle 7
           cam [] Demo.lateStart eq_refl S).
Defined.

(** ** The plane in the scene *)

Lemma afterStart_plane (dv : Demo.version) (a : Demo.App) :
  plane_in_scene a -> plane_in_scene (Demo.afterStart dv a).
Proof.
  unfold plane_in_scene. destruct dv; open_app a; app_eval; intro H; subst;
    reflexivity.
Qed.

Lemma endCall_plane (dv : Demo.version) (a : Demo.App) :
  plane_in_scene a -> plane_in_scene (Demo.endCall dv a).
Proof.
  unfold plane_in_scene. destruct dv; open_app a; app_eval; intro H; subst;
    cbn [Demo.remove_child]; rewrite ?Nat.eqb_refl; reflexivity.
Qed.

Lemma attachRemote_plane (s : nat) (a : Demo.App) :
  plane_in_scene a -> plane_in_scene (Demo.attachRemote s a).
Proof.
  unfold plane_in_scene. open_app a; destruct window_SelfieSegmentation; intro H; exact H.
Qed.

Section Scene.
Context {P : Platform}.

Lemma plane_in_scene_step (dv : Demo.version) (ver : variant) (a a' : Demo.App)
    (e : Demo.appEvent) :
  plane_in_scene a -> Demo.appStep dv ver a e = Some a' -> plane_in_scene a'.
Proof.
  intro I. destruct e as [s|j v0 loads| | |j e]; cbn [Demo.appStep].
  - intros [= <-]. now apply attachRemote_plane.
  - destruct (nth_error (Demo.mattes a) j) as [oj|]; [|discriminate].
    destruct (Demo.waiting oj); [|discriminate].
    destruct (start_session ver v0 loads (self (Demo.object oj))) as [s|]; [|discriminate].
    intros [= <-]. apply afterStart_plane. exact I.
  - intros [= <-]. now apply endCall_plane.
  - intros [= <-]. exact I.
  - destruct e; try discriminate;
      (destruct (nth_error (Demo.mattes a) j) as [oj|]; [|discriminate];
       destruct (Demo.waiting oj); [discriminate|];
       match goal with
       | |- match ?x with _ => _ end = _ -> _ => destruct x; [|discriminate]
       end;
       intros [= <-]; exact I).
Qed.

(** X22: the scene never collects planes: from a page whose scene holds
    just the remote plane, if any, every sequence of events leaves a scene
    that holds just the current remote plane, if any. *)
Theorem one_remote_plane_in_the_scene (dv : Demo.version) (ver : variant)
    (es : list Demo.appEvent) (a a' : Demo.App) :
  plane_in_scene a -> Demo.appRun dv ver a es = Some a' ->
  Demo.scene a' = match Demo.remotePlane a' with Some p => [p] | None => [] end.
Proof.
  revert a. induction es as [|e es IH]; intros a I; cbn [Demo.appRun].
  - now intros [= <-].
  - destruct (Demo.appStep dv ver a e) as [a1|] eqn:E; [|discriminate].
    apply IH. exact (plane_in_scene_step dv ver a a1 e I E).
Qed.

End Scene.

Lemma one_remote_plane_in_the_scene_witness :
  plane_in_scene Demo.idle /\
  Demo.appRun (P := tent) Demo.First MaskThenRGB Demo.idle Demo.wholeCall
  = Some (Demo.orIdle (Demo.appRun (P := tent) Demo.First MaskThenRGB Demo.idle
                         Demo.wholeCall)) /\
  Demo.scene (Demo.orIdle (Demo.appRun (P := tent) Demo.First MaskThenRGB Demo.idle
                             Demo.wholeCall))
  = match Demo.remotePlane
            (Demo.orIdle (Demo.appRun (P := tent) Demo.First MaskThenRGB Demo.idle
                            Demo.wholeCall)) with
    | Some p => [p]
    | None => []
    end.
Proof.
  assert (I : plane_in_scene Demo.idle) by reflexivity.
  assert (R : Demo.appRun (P := tent) Demo.First MaskThenRGB Demo.idle Demo.wholeCall
              = Some (Demo.orIdle (Demo.appRun (P := tent) Demo.First MaskThenRGB Demo.idle
                                     Demo.wholeCall)))
    by (apply some_orIdle_app; vm_compute; reflexivity).
  split; [exact I|]. split; [exact R|].
  exact (one_remote_plane_in_the_scene (P := tent) Demo.First MaskThenRGB Demo.wholeCall
           Demo.idle _ I R).
Defined.
(** ** Muting *)

(** X23: a click on the mute button flips [isMuted], leaves every audio
    track enabled exactly when the page is not muted, and labels the button
    with the opposite action; from then on two clicks give the same page. *)
Theorem mute_button_keeps_tracks_and_label_in_step (a : Demo.App) :
  let a1 := Demo.muteBtn_onclick a in
  Demo.isMuted a1 = negb (Demo.isMuted a) /\
  length (Demo.audioTracks a1) = length (Demo.audioTracks a) /\
  (forall t, In t (Demo.audioTracks a1) -> t = negb (Demo.isMuted a1)) /\
  Demo.muteBtn_textContent a1
  = (if Demo.isMuted a1 then "unmute"%string else "mute"%string) /\
  Demo.muteBtn_onclick (Demo.muteBtn_onclick a1) = a1.
Proof.
  cbv zeta. destruct a. app_eval. repeat apply conj.
  - reflexivity.
  - apply length_map.
  - intros t I. apply in_map_iff in I. destruct I as (x & <- & _). reflexivity.
  - reflexivity.
  - rewrite !map_map. destruct isMuted; reflexivity.
Qed.

(** ** Identifiers *)

Lemma Qtrunc_between (q : Qc) (lo hi : Z) :
  (0 <= lo)%Z -> (inject_Z lo <= this q)%Q -> (this q < inject_Z hi)%Q ->
  (lo <= Qtrunc q < hi)%Z.
Proof.
  intros L0 L U. unfold Qtrunc.
  assert (E : Qcleb 0 q = true).
  { apply Qcleb_le. unfold Qcle. change (this 0) with (inject_Z 0).
    apply Qle_trans with (inject_Z lo); [|exact L]. now rewrite <- Zle_Qle. }
  rewrite E. split.
  - rewrite <- (Qfloor_Z lo). now apply Qfloor_resp_le.
  - rewrite Zlt_Qlt. apply Qle_lt_trans with (this q); [apply Qfloor_le | exact U].
Qed.

Lemma random_index (r : Qc) (n : Z) :
  0 <= r -> r < 1 -> (0 < n < 2 ^ 31)%Z ->
  (0 <= ToInt32 (r * Q2Qc (inject_Z n)) < n)%Z.
Proof.
  intros R0 R1 N. unfold Qcle, Qclt in R0, R1.
  change (this 0) with 0%Q in R0. change (this 1) with 1%Q in R1.
  assert (T : (0 <= Qtrunc (r * Q2Qc (inject_Z n)) < n)%Z).
  { assert (Pn : (0 < inject_Z n)%Q) by (change 0%Q with (inject_Z 0); rewrite <- Zlt_Qlt; lia).
    apply Qtrunc_between; [lia | |]; rewrite this_mult, this_inject_Z.
    - change (inject_Z 0) with 0%Q. apply Qmult_le_0_compat; [exact R0 | now apply Qlt_le_weak].
    - setoid_replace (inject_Z n) with (1 * inject_Z n)%Q at 2 by ring.
      now apply Qmult_lt_compat_r. }
  unfold ToInt32. rewrite int32_small; lia.
Qed.

Lemma element_in (l : list Demo.string) (i : Z) :
  (0 <= i < Z.of_nat (length l))%Z -> In (Demo.element l i) l.
Proof.
  intro H. unfold Demo.element.
  destruct (Z.ltb_spec i 0); [lia|]. apply nth_In. lia.
Qed.

(** X24: whatever [Math.random] returns, [readableId] of the first
    version of src/demo.js throws ReferenceError ([animals] is not declared
    there), and the one of the second version returns animal-place-n with the
    animal and the place from its two lists and 100 <= n <= 998. *)
Theorem readableId_of_each_version (r1 r2 r3 : Qc) :
  0 <= r1 /\ r1 < 1 -> 0 <= r2 /\ r2 < 1 -> 0 <= r3 /\ r3 < 1 ->
  Demo.readableId Demo.First r1 r2 r3 = inl Demo.ReferenceError /\
  exists a p n,
    Demo.readableId Demo.Second r1 r2 r3 = inr (Demo.template a p n) /\
    In a Demo.animals /\ In p Demo.places /\ (100 <= n <= 998)%Z.
Proof.
  intros [A0 A1] [B0 B1] [C0 C1]. split; [reflexivity|].
  cbn [Demo.readableId].
  exists (Demo.element Demo.animals (ToInt32 (r1 * Demo.lengthOf Demo.animals))),
         (Demo.element Demo.places (ToInt32 (r2 * Demo.lengthOf Demo.places))),
         (ToInt32 (r3 * (899 # 1) + (100 # 1))).
  split; [reflexivity|]. split; [|split].
  - apply element_in. apply (random_index r1 12); [assumption | assumption | lia].
  - apply element_in. apply (random_index r2 12); [assumption | assumption | lia].
  - unfold Qcle, Qclt in C0, C1.
    change (this 0) with 0%Q in C0. change (this 1) with 1%Q in C1.
    assert (T : (100 <= Qtrunc (r3 * (899 # 1) + (100 # 1)) < 999)%Z).
    { apply Qtrunc_between; [lia | |]; rewrite this_plus, this_mult;
        change (this (899 # 1)) with (899 # 1)%Q; change (this (100 # 1)) with (100 # 1)%Q;
        change (inject_Z 100) with (100 # 1)%Q; change (inject_Z 999) with (999 # 1)%Q; lra. }
    unfold ToInt32. rewrite int32_small; lia.
Qed.

Lemma half_is_a_draw : 0 <= 1 # 2 /\ 1 # 2 < 1.
Proof. split; [apply Qcleb_le | apply Qcltb_lt]; reflexivity. Qed.

Lemma readableId_of_each_version_witness :
  (0 <= 1 # 2 /\ 1 # 2 < 1) /\
  Demo.readableId Demo.First (1 # 2) (1 # 2) (1 # 2) = inl Demo.ReferenceError /\
  exists a p n,
    Demo.readableId Demo.Second (1 # 2) (1 # 2) (1 # 2) = inr (Demo.template a p n) /\
    In a Demo.animals /\ In p Demo.places /\ (100 <= n <= 998)%Z.
Proof.
  split; [exact half_is_a_draw|].
  exact (readableId_of_each_version (1 # 2) (1 # 2) (1 # 2)
           half_is_a_draw half_is_a_draw half_is_a_draw).
Defined.
